(** * Vertical-Select: column selection and find/replace

    A shallow embedding of the text algorithms of the Vertical-Select
    application and proofs of the properties its design document states
    about them.

    Four source files are covered, each in a module of its own:
    - [AppJs]      : js/app.js (plain JavaScript column selector),
    - [Part000]    : the React column selector (unnamed part 000),
    - [Part001]    : the React find/replace panel (unnamed part 001),
    - [FindReplaceTsx] : src/components/FindReplace.tsx.
    The listeners of js/app.js and the functions of the two panels
    that the design document does not speak of are in [App],
    [Panel001] and [PanelTsx].

    Conventions.  A JavaScript string is a list of characters
    ([text := list ascii]).  [toUpperCase] and [toLowerCase] are those
    of ASCII text, where they act on the 26 letters and keep the
    length; what depends on the case of letters is stated for ASCII
    text ([ascii_text]).  String offsets, which the code only ever
    obtains from [indexOf], [exec] or arithmetic on lengths, are [nat];
    numbers that come from user input or from subtraction are [Z].
    The pixel coordinates [getPositionFromEvent] and [getPosition]
    compute with are doubles ([Number]); the listeners of the page,
    which use a position as a pair of non-negative integers and
    nothing else, are modelled over exact rationals.  A thrown
    exception is [None]; where a loop may run for ever the model takes
    fuel and answers with a [Run]. *)

From Stdlib Require Import ZArith QArith Qround Ascii String Sorted DecimalString SpecFloat.
From stdpp Require Import base list gmap sorting.
From Stdlib Require Import Lia.

Set Default Goal Selector "!".

(** ** JavaScript strings *)

Module JS.

Definition text := list ascii.

Definition str (s : string) : text := list_ascii_of_string s.

Definition nl : ascii := "010"%char.

Definition len (s : text) : Z := Z.of_nat (length s).

(** [s.split(c)] for a one-character separator. *)
Fixpoint split_char (c : ascii) (s : text) : list text :=
  match s with
  | [] => [[]]
  | x :: s' =>
      if Ascii.eqb x c then [] :: split_char c s'
      else match split_char c s' with
           | l :: ls => (x :: l) :: ls
           | [] => [[x]]
           end
  end.

(** [a.join(c)]. *)
Fixpoint join (c : ascii) (ls : list text) : text :=
  match ls with
  | [] => []
  | [l] => l
  | l :: ls' => l ++ c :: join c ls'
  end.

(** Relative index of [slice]: negative counts from the end. *)
Definition rel_index (n i : Z) : Z :=
  if (i <? 0)%Z then Z.max (n + i) 0 else Z.min i n.

(** [s.slice(a, b)], for strings and arrays alike. *)
Definition slice {A} (s : list A) (a b : Z) : list A :=
  let n := Z.of_nat (length s) in
  let from := rel_index n a in
  let to := rel_index n b in
  take (Z.to_nat (to - from)) (drop (Z.to_nat from) s).

(** [s.slice(a)]. *)
Definition slice_from {A} (s : list A) (a : Z) : list A :=
  drop (Z.to_nat (rel_index (Z.of_nat (length s)) a)) s.

(** [s.substring(a, b)]: arguments clamped to [0, length] and swapped
    when out of order. *)
Definition substring (s : text) (a b : Z) : text :=
  let a' := Z.min (Z.max a 0) (len s) in
  let b' := Z.min (Z.max b 0) (len s) in
  take (Z.to_nat (Z.max a' b' - Z.min a' b')) (drop (Z.to_nat (Z.min a' b')) s).

(** [s.substring(a)]. *)
Definition substring_from (s : text) (a : Z) : text :=
  drop (Z.to_nat (Z.min (Z.max a 0) (len s))) s.

(** Character classes, by code. *)
Definition code (c : ascii) : nat := nat_of_ascii c.

Definition is_upper (c : ascii) : bool := (65 <=? code c) && (code c <=? 90).
Definition is_lower (c : ascii) : bool := (97 <=? code c) && (code c <=? 122).
Definition is_digit (c : ascii) : bool := (48 <=? code c) && (code c <=? 57).

(** [/[a-zA-Z0-9]/.test(c)] on a one-character string. *)
Definition is_alnum (c : ascii) : bool := is_upper c || is_lower c || is_digit c.

(** The word characters of [\b]: letters, digits and underscore. *)
Definition is_word (c : ascii) : bool := is_alnum c || (code c =? 95).

(** [s.toUpperCase()] and [s.toLowerCase()] on ASCII text, where
    they map the 26 letters and nothing else.  Outside ASCII the
    engine maps other letters too and can change the length of the
    string; what depends on the case of letters is stated for
    [ascii_text]. *)
Definition upper_char (c : ascii) : ascii :=
  if is_lower c then ascii_of_nat (code c - 32) else c.
Definition lower_char (c : ascii) : ascii :=
  if is_upper c then ascii_of_nat (code c + 32) else c.

Definition toUpperCase (s : text) : text := map upper_char s.
Definition toLowerCase (s : text) : text := map lower_char s.

(** A string of ASCII characters: every code is below 128. *)
Definition ascii_text (s : text) : Prop := Forall (fun c => code c < 128) s.

(** White space and line terminators removed by [trim]. *)
Definition is_space (c : ascii) : bool :=
  ((9 <=? code c) && (code c <=? 13)) || (code c =? 32) || (code c =? 160).

Fixpoint trimStart (s : text) : text :=
  match s with
  | c :: s' => if is_space c then trimStart s' else s
  | [] => []
  end.

Definition trim (s : text) : text := reverse (trimStart (reverse (trimStart s))).

(** String equality [a === b]. *)
Definition text_eqb (a b : text) : bool := bool_decide (a = b).

(** [s.startsWith(p)], the test at the heart of [indexOf]. *)
Fixpoint starts_with (p s : text) : bool :=
  match p, s with
  | [], _ => true
  | _ :: _, [] => false
  | a :: p', b :: s' => Ascii.eqb a b && starts_with p' s'
  end.

(** First position [k' >= k] at which [p] occurs, [s] being the
    suffix of the subject that starts at [k]. *)
Fixpoint find_from (p s : text) (k : nat) : option nat :=
  if starts_with p s then Some k
  else match s with
       | [] => None
       | _ :: s' => find_from p s' (S k)
       end.

(** [s.indexOf(p, from)]; [None] is the result [-1]. *)
Definition indexOf (s p : text) (from : nat) : option nat :=
  let f := min from (length s) in
  find_from p (drop f s) f.

Fixpoint last_index_char (c : ascii) (s : text) (k : nat) (best : option nat)
  : option nat :=
  match s with
  | [] => best
  | x :: s' => last_index_char c s' (S k) (if Ascii.eqb x c then Some k else best)
  end.

(** [s.lastIndexOf(c, from)] for a one-character [c]: the last
    position at or before [from]. *)
Definition lastIndexOf (s : text) (c : ascii) (from : nat) : option nat :=
  last_index_char c (take (S from) s) 0 None.

(** [a.sort(cmp)]: a stable sort; [x] goes before [y] unless
    [cmp x y > 0]. *)
Fixpoint sort_insert {A} (cmp : A -> A -> Z) (x : A) (l : list A) : list A :=
  match l with
  | [] => [x]
  | y :: l' => if (cmp x y <=? 0)%Z then x :: y :: l' else y :: sort_insert cmp x l'
  end.

Fixpoint sort {A} (cmp : A -> A -> Z) (l : list A) : list A :=
  match l with
  | [] => []
  | x :: l' => sort_insert cmp x (sort cmp l')
  end.

(** [a.filter((_, index) => p(index))]. *)
Fixpoint filter_index {A} (p : nat -> bool) (i : nat) (l : list A) : list A :=
  match l with
  | [] => []
  | x :: l' => if p i then x :: filter_index p (S i) l' else filter_index p (S i) l'
  end.

(** The characters of [/[.*+?^${}()|[\]\\]/]. *)
Definition is_meta (c : ascii) : bool :=
  bool_decide (c ∈ str ".*+?^${}()|[]\").

(** [s.replace(/[.*+?^${}()|[\]\\]/g, '\\$&')]: a backslash before
    every metacharacter. *)
Definition escapeRegExp (s : text) : text :=
  flat_map (fun c => if is_meta c then ["\"%char; c] else [c]) s.

(** [s.split(sep)] for a separator string of one character or more.
    [skip] counts the characters of a separator just found that are
    still to be passed over; [cur] holds the current piece, reversed. *)
Fixpoint split_str_from (sep : text) (skip : nat) (cur : text) (s : text) : list text :=
  match s with
  | [] => [reverse cur]
  | x :: s' =>
      match skip with
      | S k => split_str_from sep k cur s'
      | O =>
          if starts_with sep s
          then reverse cur :: split_str_from sep (length sep - 1) [] s'
          else split_str_from sep 0 (x :: cur) s'
      end
  end.

Definition split_str (sep s : text) : list text := split_str_from sep 0 [] s.

End JS.

Import JS.

(** ** The host's regular expressions

    The regular-expression engine of the host is a black box.  It is
    an interface here: compiling a pattern source, and searching a
    subject from a start position for the leftmost match.  The
    JavaScript-level behaviour the code relies on ([lastIndex], [exec],
    [test], [String.prototype.match] and [replace]) is defined on top
    of it, following ECMA-262. *)

Record Flags := mkFlags { global : bool; ignoreCase : bool }.

Definition flags_g : Flags := mkFlags true false.
Definition flags_gi : Flags := mkFlags true true.
Definition flags_i : Flags := mkFlags false true.

(** What a successful search reports: where the match starts, how long
    it is, and the text captured by each group. *)
Record MatchResult := mkMatchResult {
  m_index : nat;
  m_length : nat;
  m_captures : list (option text)
}.

Class RegExpHost := {
  Pattern : Type;
  (** [compile source ignoreCase]; [None] is a [SyntaxError]. *)
  compile : text -> bool -> option Pattern;
  (** [search p s from]: the leftmost match of [p] in [s] that starts
      at or after [from]. *)
  search : Pattern -> text -> nat -> option MatchResult
}.

(** What the theorems on scans assume of an engine: a match lies at
    or after the start position and inside the subject; and it is the
    leftmost one, so that a search started anywhere between the start
    position and the match finds the same match. *)
Class RegExpHostOk (host : RegExpHost) : Prop := {
  search_bounds : forall (p : Pattern) (s : text) (from : nat) (m : MatchResult),
    search p s from = Some m ->
    from <= m_index m /\ m_index m + m_length m <= length s;
  search_leftmost : forall (p : Pattern) (s : text) (from k : nat) (m : MatchResult),
    search p s from = Some m ->
    from <= k <= m_index m ->
    search p s k = Some m
}.

(** What is assumed of an engine where a find text is sought as it
    stands: the expression made of the escaped text, between word
    boundaries or not, matches as many characters as the text has. *)
Class LiteralHostOk (host : RegExpHost) : Prop := {
  literal_length : forall (s : text) (wholeWord ic : bool) (p : Pattern)
                          (T : text) (from : nat) (m : MatchResult),
    compile (if wholeWord then str "\b" ++ escapeRegExp s ++ str "\b"
             else escapeRegExp s) ic = Some p ->
    search p T from = Some m ->
    m_length m = length s
}.

Module RegExp.
Section WithHost.
Context {host : RegExpHost}.

(** A [RegExp] object: the compiled pattern, its flags and the mutable
    [lastIndex]. *)
Record RegExpObject := mkRegExp {
  pattern : Pattern;
  flags : Flags;
  lastIndex : nat
}.

(** [new RegExp(source, flags)]. *)
Definition new (source : text) (f : Flags) : option RegExpObject :=
  p ← compile source (ignoreCase f);
  Some (mkRegExp p f 0).

Definition set_lastIndex (r : RegExpObject) (i : nat) : RegExpObject :=
  mkRegExp (pattern r) (flags r) i.

(** [m[0]]: the matched text. *)
Definition matched (s : text) (m : MatchResult) : text :=
  take (m_length m) (drop (m_index m) s).

(** [r.exec(s)] (RegExpBuiltinExec): a global expression searches from
    [lastIndex] and leaves the end of the match there, or 0 after a
    failure; any other expression searches from 0 and keeps
    [lastIndex]. *)
Definition exec (r : RegExpObject) (s : text) : option MatchResult * RegExpObject :=
  let g := global (flags r) in
  let from := if g then lastIndex r else 0 in
  let failed := if g then set_lastIndex r 0 else r in
  if length s <? from then (None, failed)
  else match search (pattern r) s from with
       | None => (None, failed)
       | Some m => (Some m, if g then set_lastIndex r (m_index m + m_length m) else r)
       end.

(** [r.test(s)]. *)
Definition test (r : RegExpObject) (s : text) : bool * RegExpObject :=
  let '(m, r') := exec r s in (bool_decide (is_Some m), r').

(** The loop shared by [RegExp.prototype[Symbol.match]] and
    [[Symbol.replace]] for a global expression: [exec] until it fails,
    stepping over an empty match (AdvanceStringIndex).  Every round
    moves [lastIndex] forward, so [length s + 2] rounds are enough
    (lemma [global_matches_fuel]). *)
Fixpoint global_matches_loop (fuel : nat) (r : RegExpObject) (s : text)
  : list MatchResult :=
  match fuel with
  | O => []
  | S fuel' =>
      match exec r s with
      | (None, _) => []
      | (Some m, r') =>
          let r'' := if m_length m =? 0 then set_lastIndex r' (lastIndex r' + 1) else r' in
          m :: global_matches_loop fuel' r'' s
      end
  end.

Definition global_matches (r : RegExpObject) (s : text) : list MatchResult :=
  global_matches_loop (length s + 2) (set_lastIndex r 0) s.

(** [s.match(r)] for a global [r]: the matched texts, [None] for
    [null] when there is none. *)
Definition String_match (s : text) (r : RegExpObject) : option (list text) :=
  match global_matches r s with
  | [] => None
  | ms => Some (map (matched s) ms)
  end.

(** Decimal value of the digits at the head of a replacement
    reference. *)
Definition digit_val (c : ascii) : nat := code c - 48.

(** [$n] and [$nn] of GetSubstitution: [d1] and the optional [d2] are
    the digits that follow the dollar; the result is the replacement
    text and whether the second digit was consumed. *)
Definition capture_ref (captures : list (option text)) (d1 : ascii) (d2 : option ascii)
  : text * bool :=
  let m := length captures in
  let one := digit_val d1 in
  let ref (i : nat) (lit : text) : text :=
    if (1 <=? i) && (i <=? m) then default [] (mjoin (captures !! (i - 1)))
    else lit in
  match d2 with
  | Some d =>
      let two := 10 * digit_val d1 + digit_val d in
      if two <=? m then (ref two ["$"%char; d1; d], true)
      else (ref one ["$"%char; d1], false)
  | None => (ref one ["$"%char; d1], false)
  end.

(** GetSubstitution: expansion of a replacement template at one match.
    The engines considered have no named groups, so [$<] stands for
    itself. *)
Fixpoint GetSubstitution (s : text) (m : MatchResult) (template : text) : text :=
  match template with
  | [] => []
  | "$"%char :: rest =>
      match rest with
      | [] => ["$"%char]
      | c :: rest' =>
          if Ascii.eqb c "$" then "$"%char :: GetSubstitution s m rest'
          else if Ascii.eqb c "&" then matched s m ++ GetSubstitution s m rest'
          else if Ascii.eqb c "`" then take (m_index m) s ++ GetSubstitution s m rest'
          else if Ascii.eqb c "'" then
            drop (m_index m + m_length m) s ++ GetSubstitution s m rest'
          else if is_digit c then
            match rest' with
            | d :: rest'' =>
                if is_digit d then
                  let '(t, two) := capture_ref (m_captures m) c (Some d) in
                  if two then t ++ GetSubstitution s m rest''
                  else t ++ GetSubstitution s m rest'
                else fst (capture_ref (m_captures m) c None) ++ GetSubstitution s m rest'
            | [] => fst (capture_ref (m_captures m) c None)
            end
          else "$"%char :: GetSubstitution s m rest
      end
  | c :: rest => c :: GetSubstitution s m rest
  end.

(** The assembly step of [[Symbol.replace]]: the text between matches
    is copied, each match gives way to its substitution. *)
Fixpoint replace_results (s template : text) (results : list MatchResult)
  (nextSourcePosition : nat) : text :=
  match results with
  | [] => drop nextSourcePosition s
  | m :: results' =>
      let position := min (m_index m) (length s) in
      if nextSourcePosition <=? position then
        take (position - nextSourcePosition) (drop nextSourcePosition s)
          ++ GetSubstitution s m template
          ++ replace_results s template results' (position + m_length m)
      else replace_results s template results' nextSourcePosition
  end.

(** [s.replace(r, template)] for a global [r]. *)
Definition String_replace (s : text) (r : RegExpObject) (template : text) : text :=
  replace_results s template (global_matches r s) 0.

End WithHost.
End RegExp.

(** ** A reference engine

    An executable engine for a fragment of the pattern language:
    literal characters, a backslash before a metacharacter, [.], [\b],
    and [*] after a one-character atom.  It searches leftmost-first
    with greedy repetition, as the host does, and is used to run the
    code on concrete inputs.  A source outside the fragment is rejected
    like an invalid one. *)

Module Fragment.

Inductive atom : Type :=
  | Lit (c : ascii)
  | AnyChar.

Inductive item : Type :=
  | One (a : atom)
  | Star (a : atom)
  | Boundary.

(** The items of a pattern source.  After a backslash come [b] or a
    metacharacter taken literally; a dot is any character; any other
    metacharacter is outside the fragment; a star belongs to the atom
    before it. *)
Fixpoint parse (src : text) : option (list item) :=
  match src with
  | [] => Some []
  | c :: rest =>
      if Ascii.eqb c "\" then
        match rest with
        | [] => None
        | d :: rest' =>
            if Ascii.eqb d "b" then cons Boundary <$> parse rest'
            else if is_meta d then
              match rest' with
              | q :: rest'' =>
                  if Ascii.eqb q "*" then cons (Star (Lit d)) <$> parse rest''
                  else cons (One (Lit d)) <$> parse rest'
              | [] => Some [One (Lit d)]
              end
            else None
        end
      else if is_meta c && negb (Ascii.eqb c ".") then None
      else
        let a := if Ascii.eqb c "." then AnyChar else Lit c in
        match rest with
        | q :: rest' =>
            if Ascii.eqb q "*" then cons (Star a) <$> parse rest'
            else cons (One a) <$> parse rest
        | [] => Some [One a]
        end
  end.

Definition atom_matches (ic : bool) (a : atom) (x : ascii) : bool :=
  match a with
  | Lit c => if ic then Ascii.eqb (lower_char x) (lower_char c) else Ascii.eqb x c
  | AnyChar => negb (Ascii.eqb x nl || Ascii.eqb x "013")
  end.

Definition word_opt (c : option ascii) : bool :=
  match c with Some x => is_word x | None => false end.

(** [match_here ic r prev s]: the length of the match of [r] at the
    head of [s], [prev] being the character before it. *)
Fixpoint match_here (ic : bool) (r : list item) (prev : option ascii) (s : text)
  {struct r} : option nat :=
  match r with
  | [] => Some 0
  | Boundary :: r' =>
      if xorb (word_opt prev) (word_opt (head s)) then match_here ic r' prev s else None
  | One a :: r' =>
      match s with
      | x :: s' => if atom_matches ic a x then S <$> match_here ic r' (Some x) s' else None
      | [] => None
      end
  | Star a :: r' =>
      (fix star (prev : option ascii) (s : text) {struct s} : option nat :=
         match s with
         | x :: s' =>
             if atom_matches ic a x then
               match star (Some x) s' with
               | Some n => Some (S n)
               | None => match_here ic r' prev s
               end
             else match_here ic r' prev s
         | [] => match_here ic r' prev s
         end) prev s
  end.

Fixpoint search_from (ic : bool) (r : list item) (prev : option ascii) (s : text) (k : nat)
  : option (nat * nat) :=
  match match_here ic r prev s with
  | Some n => Some (k, n)
  | None =>
      match s with
      | [] => None
      | x :: s' => search_from ic r (Some x) s' (S k)
      end
  end.

(** The character before position [k]. *)
Definition prev_at (s : text) (k : nat) : option ascii :=
  match k with O => None | S j => s !! j end.

Definition search_fragment (p : bool * list item) (s : text) (from : nat)
  : option MatchResult :=
  if length s <? from then None
  else
    '(i, n) ← search_from (fst p) (snd p) (prev_at s from) (drop from s) from;
    Some (mkMatchResult i n []).

(** The items of a literal. *)
Definition literal (s : text) : list item := (fun c => One (Lit c)) <$> s.

Definition compile_fragment (src : text) (ic : bool) : option (bool * list item) :=
  r ← parse src; Some (ic, r).

#[export] Instance host : RegExpHost :=
  {| Pattern := bool * list item;
     compile := compile_fragment;
     search := search_fragment |}.

End Fragment.

(** ** Numbers

    A JavaScript number is an IEEE 754 double.  The Standard Library
    specifies them in [SpecFloat]: a number is a zero, an infinity,
    NaN, or a sign, a mantissa and an exponent; with a precision of
    53 bits and the exponent bound 1024 its operations are those of
    the format binary64, rounding to the nearest number, ties to the
    even mantissa. *)

Module Number.

Definition number := spec_float.

Definition prec : Z := 53.
Definition emax : Z := 1024.

(** [a + b], [a - b] and [a / b]. *)
Definition add : number -> number -> number := SFadd prec emax.
Definition sub : number -> number -> number := SFsub prec emax.
Definition div : number -> number -> number := SFdiv prec emax.

(** The number of an integer, and that of the fraction [n / d], for
    writing measures down: [ratio 136 10] is the number [13.6]. *)
Definition of_Z (z : Z) : number := binary_normalize prec emax z 0 false.
Definition ratio (n d : Z) : number := div (of_Z n) (of_Z d).

(** What [Math.floor] returns: a number whose value is an integer,
    kept here as that integer, an infinity, or NaN. *)
Inductive Integral : Type :=
  | Int (z : Z)
  | PlusInfinity
  | MinusInfinity
  | NaN.

(** [Math.floor(x)].  The value of a finite number is its mantissa
    shifted by its exponent; a shift to the right rounds towards
    minus infinity.  The sign of a zero is not kept: the code hands
    the result to [Math.max(0, ...)], which turns either zero into
    [+0]. *)
Definition floor (x : number) : Integral :=
  match x with
  | S754_nan => NaN
  | S754_infinity s => if s then MinusInfinity else PlusInfinity
  | S754_zero _ => Int 0
  | S754_finite s m e => Int (Z.shiftl (cond_Zopp s (Zpos m)) e)
  end.

(** [Math.max(0, v)]: NaN if [v] is. *)
Definition max0 (v : Integral) : Integral :=
  match v with
  | Int z => Int (Z.max 0 z)
  | PlusInfinity => PlusInfinity
  | MinusInfinity => Int 0
  | NaN => NaN
  end.

(** [v >= n] for the length [n] of an array: false when [v] is NaN. *)
Definition geb (v : Integral) (n : nat) : bool :=
  match v with
  | Int z => (Z.of_nat n <=? z)%Z
  | PlusInfinity => true
  | MinusInfinity | NaN => false
  end.

(** The value of a finite number, as a fraction. *)
Definition toQ (x : number) : Q :=
  match x with
  | S754_finite s m e =>
      (inject_Z (cond_Zopp s (Zpos m))
       * (if (0 <=? e)%Z then inject_Z (2 ^ e) else / inject_Z (2 ^ (- e))))%Q
  | _ => 0%Q
  end.

(** A number that is neither an infinity nor NaN; and one that is
    finite and above zero. *)
Definition finite (x : number) : Prop :=
  match x with
  | S754_zero _ | S754_finite _ _ _ => True
  | S754_infinity _ | S754_nan => False
  end.

Definition above_zero (x : number) : Prop :=
  match x with
  | S754_finite false _ _ => True
  | _ => False
  end.

End Number.

(** ** Column selection *)

Record SelectionState := mkSelection {
  active : bool;
  startX : Z;
  startY : Z;
  endX : Z;
  endY : Z;
  justFinishedDragging : bool
}.

Record Position := mkPosition { row : Z; col : Z }.

(** Font and layout metrics read from the text area, and the pointer
    event, for the listeners of the page: in exact arithmetic. *)
Record Metrics := mkMetrics {
  charWidth : Q;
  lineHeight : Q;
  rectLeft : Q;
  rectTop : Q;
  paddingLeft : Q;
  paddingTop : Q;
  scrollLeft : Q;
  scrollTop : Q
}.

Record MouseEvent := mkMouseEvent {
  clientX : Q;
  clientY : Q;
  ctrlKey : bool;
  metaKey : bool
}.

Module ColumnSelector.

(** One iteration of the row loop of [getSelectedText].  [lines[r]] is
    [undefined] for a negative [r], and reading its [length] throws. *)
Definition selectedLine (lines : list text) (minCol maxCol r : Z) : option text :=
  if (r >=? Z.of_nat (length lines))%Z then Some []
  else
    match (if (r <? 0)%Z then None else lines !! Z.to_nat r) with
    | None => None
    | Some line =>
        let startCol := Z.min minCol (len line) in
        let endCol := Z.min (maxCol + 1) (len line) in
        if (endCol >? startCol)%Z then Some (slice line startCol endCol)
        else Some []
    end.

(** The values the loop variable takes in
    [for (let r = minRow; r <= maxRow; r++)]. *)
Definition rows (minRow maxRow : Z) : list Z :=
  map (fun k => (minRow + Z.of_nat k)%Z) (seq 0 (Z.to_nat (maxRow - minRow + 1))).

Definition getSelectedText (text : text) (selection : SelectionState) : option JS.text :=
  let minRow := Z.min (startY selection) (endY selection) in
  let maxRow := Z.max (startY selection) (endY selection) in
  let minCol := Z.min (startX selection) (endX selection) in
  let maxCol := Z.max (startX selection) (endX selection) in
  let lines := split_char nl text in
  selectedLines ← mapM (selectedLine lines minCol maxCol) (rows minRow maxRow);
  Some (join nl selectedLines).

(** The grid mapping in exact arithmetic, for the listeners of the
    page ([App]): they use a position as a pair of non-negative
    integers and nothing else, and every such pair whose row is a line
    of the text is the position of some pointer (lemma
    [gridPosition_onto]).  The mapping as the engine computes it, on
    numbers, is [Pointer.gridPosition]. *)
Definition gridPosition (m : Metrics) (text : text) (event : MouseEvent) : option Position :=
  let x := (clientX event - rectLeft m - paddingLeft m + scrollLeft m)%Q in
  let y := (clientY event - rectTop m - paddingTop m + scrollTop m)%Q in
  let col := Z.max 0 (Qfloor (x / charWidth m)) in
  let row := Z.max 0 (Qfloor (y / lineHeight m)) in
  let lines := split_char nl text in
  if (row >=? Z.of_nat (length lines))%Z && (Z.of_nat (length lines) >? 0)%Z then None
  else Some (mkPosition row col).

End ColumnSelector.

(** The grid mapping as the engine computes it, on numbers.  The
    measures [getPositionFromEvent] and [getPosition] read from the
    text area, and the pointer event; the position they return has
    the results of [Math.max(0, Math.floor(...))] for its row and its
    column. *)
Module Pointer.

Record Metrics := mkMetrics {
  charWidth : Number.number;
  lineHeight : Number.number;
  rectLeft : Number.number;
  rectTop : Number.number;
  paddingLeft : Number.number;
  paddingTop : Number.number;
  scrollLeft : Number.number;
  scrollTop : Number.number
}.

Record MouseEvent := mkMouseEvent { clientX : Number.number; clientY : Number.number }.

Record Position := mkPosition { row : Number.Integral; col : Number.Integral }.

(** [x = event.clientX - rect.left - paddingLeft + scrollLeft], from
    left to right, and so for [y]; [row >= lines.length &&
    lines.length > 0] gives [null]. *)
Definition gridPosition (m : Metrics) (text : text) (event : MouseEvent) : option Position :=
  let x :=
    Number.add (Number.sub (Number.sub (clientX event) (rectLeft m)) (paddingLeft m))
      (scrollLeft m) in
  let y :=
    Number.add (Number.sub (Number.sub (clientY event) (rectTop m)) (paddingTop m))
      (scrollTop m) in
  let col := Number.max0 (Number.floor (Number.div x (charWidth m))) in
  let row := Number.max0 (Number.floor (Number.div y (lineHeight m))) in
  let lines := split_char nl text in
  if Number.geb row (length lines) && (0 <? length lines) then None
  else Some (mkPosition row col).

End Pointer.

(** js/app.js *)
Module AppJs.

Definition getSelectedText := ColumnSelector.getSelectedText.

Definition getPositionFromEvent (textArea : Pointer.Metrics) (value : text)
  (event : Pointer.MouseEvent) : option Pointer.Position :=
  Pointer.gridPosition textArea value event.

End AppJs.

(** The React column selector. *)
Module Part000.

Definition getSelectedText := ColumnSelector.getSelectedText.

(** [textAreaRef.current] is [null] until the text area is mounted. *)
Definition getPosition (textAreaRef : option Pointer.Metrics) (text : text)
  (event : Pointer.MouseEvent) : option Pointer.Position :=
  match textAreaRef with
  | None => None
  | Some m => Pointer.gridPosition m text event
  end.

End Part000.

(** ** Outcome of a run

    [Returns a]: the call came back with [a].  [Throws]: it left
    through an exception.  [Diverges]: the loop was still running when
    the fuel given to the model ran out. *)
Inductive Run (A : Type) : Type :=
  | Returns (a : A)
  | Throws
  | Diverges.
Arguments Returns {A} a.
Arguments Throws {A}.
Arguments Diverges {A}.

(** ** The find/replace panel of the React application (part 001) *)

Module Part001.

Record LineRange := mkLineRange { range_start : Z; range_end : Z }.

Record SearchOptions := mkSearchOptions {
  caseSensitive : bool;
  wholeWord : bool;
  useRegex : bool;
  replaceFirst : bool;
  smartCase : bool;
  lineRange : option LineRange;
  contextFilter : option text
}.

Record Match := mkMatch {
  index : nat;
  length : nat;
  text : JS.text;
  lineNumber : nat;
  context : JS.text
}.

(** [id] and [timestamp] come from the clock and the random source. *)
Record ReplaceOperation := mkReplaceOperation {
  id : nat * nat;
  find : JS.text;
  replace : JS.text;
  timestamp : nat;
  matchCount : nat;
  options : SearchOptions
}.

(** The state of the component that the modelled functions read and
    write; [text] is the property the parent updates on
    [onTextChange]. *)
Record State := mkState {
  st_text : JS.text;
  findText : JS.text;
  replaceText : JS.text;
  st_options : SearchOptions;
  matches : list Match;
  currentMatchIndex : Z;
  history : list ReplaceOperation;
  batchReplacements : JS.text;
  isInteractiveMode : bool;
  selectedMatches : gset nat
}.

Definition set_matches (st : State) (ms : list Match) (cur : Z) : State :=
  mkState (st_text st) (findText st) (replaceText st) (st_options st) ms cur
    (history st) (batchReplacements st) (isInteractiveMode st) (selectedMatches st).

Definition initialOptions : SearchOptions :=
  mkSearchOptions false false false false true None None.

Section WithHost.
Context {host : RegExpHost}.

(** The expression [findMatches] builds from the find text. *)
Definition buildPattern (findText : JS.text) (o : SearchOptions)
  : option RegExp.RegExpObject :=
  if useRegex o then
    RegExp.new findText (if caseSensitive o then flags_g else flags_gi)
  else
    let escapedFind := escapeRegExp findText in
    let escapedFind :=
      if wholeWord o then str "\b" ++ escapedFind ++ str "\b" else escapedFind in
    RegExp.new escapedFind (if caseSensitive o then flags_g else flags_gi).

(** The context window of a match at [idx] of length [n]. *)
Definition contextOf (searchText : JS.text) (idx n : nat) : JS.text :=
  let lineStart := match lastIndexOf searchText nl idx with
                   | Some k => (Z.of_nat k + 1)%Z
                   | None => 0%Z
                   end in
  let lineEnd := indexOf searchText [nl] idx in
  substring searchText
    (Z.max 0 (lineStart - 50))
    (match lineEnd with
     | None => Z.min (len searchText) (Z.of_nat idx + Z.of_nat n + 50)
     | Some e => Z.min (Z.of_nat e + 50) (len searchText)
     end).

(** [lineNumber < lineRange.start || lineNumber > lineRange.end] *)
Definition outsideRange (o : SearchOptions) (lineNumber : nat) : bool :=
  match lineRange o with
  | Some r => (Z.of_nat lineNumber <? range_start r)%Z
              || (Z.of_nat lineNumber >? range_end r)%Z
  | None => false
  end.

(** The [while ((match = pattern.exec(searchText)) !== null)] loop.
    A [continue] goes straight back to [exec]; the step over an empty
    match is the last statement of the body. *)
Fixpoint scanLoop (fuel : nat) (o : SearchOptions) (searchText : JS.text)
  (pattern : RegExp.RegExpObject) (foundMatches : list Match) : Run (list Match) :=
  match fuel with
  | O => Diverges
  | S fuel' =>
      match RegExp.exec pattern searchText with
      | (None, _) => Returns foundMatches
      | (Some m, pattern) =>
          let lineNumber :=
            List.length (split_char nl (substring searchText 0 (Z.of_nat (m_index m)))) in
          let context := contextOf searchText (m_index m) (m_length m) in
          if outsideRange o lineNumber then
            scanLoop fuel' o searchText pattern foundMatches
          else
            let push (_ : unit) :=
              let foundMatches :=
                foundMatches ++ [mkMatch (m_index m) (m_length m)
                                   (RegExp.matched searchText m) lineNumber (trim context)] in
              let pattern :=
                if m_length m =? 0
                then RegExp.set_lastIndex pattern (RegExp.lastIndex pattern + 1)
                else pattern in
              scanLoop fuel' o searchText pattern foundMatches in
            match contextFilter o with
            | Some (c :: cf) =>
                match RegExp.new (c :: cf) flags_i with
                | None => Throws
                | Some contextPattern =>
                    if fst (RegExp.test contextPattern context) then push ()
                    else scanLoop fuel' o searchText pattern foundMatches
                end
            | _ => push ()
            end
      end
  end.

(** The body of [findMatches] after the guard on an empty find text:
    the scan of [text], and what the [try] block makes of it. *)
Definition scan (fuel : nat) (findText text : JS.text) (o : SearchOptions)
  : Run (list Match) :=
  match buildPattern findText o with
  | None => Throws
  | Some pattern => scanLoop fuel o text pattern []
  end.

Definition findMatches (fuel : nat) (st : State) : Run State :=
  match findText st with
  | [] => Returns (set_matches st [] (currentMatchIndex st))
  | _ =>
      match scan fuel (findText st) (st_text st) (st_options st) with
      | Returns foundMatches =>
          Returns (set_matches st foundMatches
                     (if decide (foundMatches = []) then (-1)%Z else 0%Z))
      | Throws => Returns (set_matches st [] (currentMatchIndex st))
      | Diverges => Diverges
      end
  end.

End WithHost.

(** [preserveCase].  [original[0]] is read only when [original]
    differs from its upper-case form, hence is not empty; [take 1] is
    that first character as a string. *)
Definition preserveCase (o : SearchOptions) (original replacement : JS.text) : JS.text :=
  if negb (smartCase o) then replacement
  else if text_eqb original (toUpperCase original) then toUpperCase replacement
  else if text_eqb original (toLowerCase original) then toLowerCase replacement
  else if text_eqb (take 1 original) (toUpperCase (take 1 original)) then
    toUpperCase (take 1 replacement) ++ toLowerCase (slice_from replacement 1)
  else replacement.

(** The replacement put in place of one match. *)
Definition replacementFor (o : SearchOptions) (replaceText : JS.text) (m : Match) : JS.text :=
  if smartCase o then preserveCase o (text m) replaceText else replaceText.

(** One round of the loop over [sortedMatches]. *)
Definition replaceStep (o : SearchOptions) (replaceText : JS.text)
  (result : JS.text) (m : Match) : JS.text :=
  substring result 0 (Z.of_nat (index m))
    ++ replacementFor o replaceText m
    ++ substring_from result (Z.of_nat (index m + length m)).

Definition matchesToReplace (st : State) : list Match :=
  if isInteractiveMode st
  then filter_index (fun i => bool_decide (i ∈ selectedMatches st)) 0 (matches st)
  else matches st.

(** The text [performReplace] (and [generatePreview]) computes. *)
Definition replacedText (o : SearchOptions) (replaceText text : JS.text)
  (matchesToReplace : list Match) : JS.text :=
  match replaceFirst o, matchesToReplace with
  | true, m :: _ => replaceStep o replaceText text m
  | _, _ =>
      let sortedMatches :=
        sort (fun a b => (Z.of_nat (index b) - Z.of_nat (index a))%Z) matchesToReplace in
      foldl (replaceStep o replaceText) text sortedMatches
  end.

(** [setHistory(prev => [operation, ...prev.slice(0, 19)])] *)
Definition pushHistory (operation : ReplaceOperation) (prev : list ReplaceOperation)
  : list ReplaceOperation :=
  operation :: slice prev 0 19.

(** [performReplace]; [now] is the reading of the clock. *)
Definition performReplace (now : nat) (st : State) : State :=
  if bool_decide (findText st = []) || bool_decide (matches st = []) then st
  else
    let toReplace := matchesToReplace st in
    if bool_decide (toReplace = []) then st
    else
      let result := replacedText (st_options st) (replaceText st) (st_text st) toReplace in
      let operation :=
        mkReplaceOperation (now, 0) (findText st) (replaceText st) now
          (List.length toReplace) (st_options st) in
      mkState result (findText st) (replaceText st) (st_options st) (matches st)
        (currentMatchIndex st) (pushHistory operation (history st))
        (batchReplacements st) (isInteractiveMode st) ∅.

(** One line of the batch text, [find -> replace]; [None] for a line
    the loop passes over. *)
Definition parseRule (line : JS.text) : option (JS.text * JS.text) :=
  match map trim (split_str (str "->") line) with
  | [find; replace] => if bool_decide (find = []) then None else Some (find, replace)
  | _ => None
  end.

(** [batchReplacements.split('\n').filter(line => line.trim())] *)
Definition batchLines (batchReplacements : JS.text) : list JS.text :=
  List.filter (fun line => negb (bool_decide (trim line = [])))
    (split_char nl batchReplacements).

Section WithHost.
Context {host : RegExpHost}.

(** The expression of one batch rule. *)
Definition batchPattern (find : JS.text) : option RegExp.RegExpObject :=
  RegExp.new (escapeRegExp find) flags_g.

(** The loop over the batch lines.  [stamp k] is what the clock and
    the random source give for the [k]-th operation recorded.  [None]:
    [new RegExp] threw. *)
Fixpoint batchLoop (stamp : nat -> nat * nat) (o : SearchOptions) (lines : list JS.text)
  (result : JS.text) (operations : list ReplaceOperation)
  : option (JS.text * list ReplaceOperation) :=
  match lines with
  | [] => Some (result, operations)
  | line :: lines' =>
      match parseRule line with
      | None => batchLoop stamp o lines' result operations
      | Some (find, replace) =>
          pattern ← batchPattern find;
          let matches := List.length (default [] (RegExp.String_match result pattern)) in
          let result := RegExp.String_replace result pattern replace in
          let k := List.length operations in
          batchLoop stamp o lines' result
            (operations ++ [mkReplaceOperation (stamp k) find replace (fst (stamp k)) matches o])
      end
  end.

(** [setHistory(prev => [...operations, ...prev.slice(0, 20 - operations.length)])] *)
Definition pushBatchHistory (operations prev : list ReplaceOperation)
  : list ReplaceOperation :=
  operations ++ slice prev 0 (20 - Z.of_nat (List.length operations)).

Definition performBatchReplace (stamp : nat -> nat * nat) (st : State) : option State :=
  if bool_decide (trim (batchReplacements st) = []) then Some st
  else
    '(result, operations) ←
      batchLoop stamp (st_options st) (batchLines (batchReplacements st)) (st_text st) [];
    Some (mkState result (findText st) (replaceText st) (st_options st) (matches st)
            (currentMatchIndex st) (pushBatchHistory operations (history st))
            [] (isInteractiveMode st) (selectedMatches st)).

End WithHost.

End Part001.

(** ** src/components/FindReplace.tsx *)

Module FindReplaceTsx.

Record LineRange := mkLineRange { range_start : Z; range_end : Z }.

Record FindReplaceOptions := mkOptions {
  caseSensitive : bool;
  wholeWord : bool;
  useRegex : bool;
  replaceFirstOnly : bool;
  preserveCase : bool;
  lineRange : option LineRange;
  contextAware : bool;
  conditionalReplace : bool
}.

Record Match := mkMatch {
  start : nat;
  end_ : nat;
  text : JS.text;
  line : nat;
  context : JS.text
}.

Record ReplacementHistory := mkReplacementHistory {
  id : nat;
  timestamp : nat;
  h_findText : JS.text;
  h_replaceText : JS.text;
  options : FindReplaceOptions;
  matchCount : nat
}.

Record BatchReplacement := mkBatchReplacement {
  find : JS.text;
  replace : JS.text;
  enabled : bool
}.

Record Statistics := mkStatistics {
  totalReplacements : nat;
  totalMatches : nat;
  patternsUsed : nat
}.

Record State := mkState {
  st_text : JS.text;
  findText : JS.text;
  replaceText : JS.text;
  st_options : FindReplaceOptions;
  matches : list Match;
  currentMatchIndex : Z;
  history : list ReplacementHistory;
  batchReplacements : list BatchReplacement;
  statistics : Statistics
}.

Definition initialOptions : FindReplaceOptions :=
  mkOptions false false false false false None false false.

(** [line[i] || ""] tested against [/[a-zA-Z0-9]/]. *)
Definition alnumAt (line : JS.text) (i : Z) : bool :=
  if (i <? 0)%Z then false
  else match line !! Z.to_nat i with
       | Some c => is_alnum c
       | None => false
       end.

(** The whole-word test both loops apply to a candidate at [idx] of
    length [n]: true when the candidate is rejected. *)
Definition touchesWord (line : JS.text) (idx n : nat) : bool :=
  alnumAt line (Z.of_nat idx - 1) || alnumAt line (Z.of_nat (idx + n)).

(** The context string of a match at [idx] of length [n]. *)
Definition contextOf (line : JS.text) (idx n : nat) : JS.text :=
  let contextStart := Z.max 0 (Z.of_nat idx - 20) in
  let contextEnd := Z.min (len line) (Z.of_nat idx + Z.of_nat n + 20) in
  let context := slice line contextStart contextEnd in
  if (contextStart >? 0)%Z then str "..." ++ context
  else context ++ (if (contextEnd <? len line)%Z then str "..." else []).

Definition mkFound (line : JS.text) (lineIndex globalIndex idx n : nat) (t : JS.text) : Match :=
  mkMatch (globalIndex + idx) (globalIndex + idx + n) t (lineIndex + 1) (contextOf line idx n).

(** The literal branch: [while ((index = searchText.indexOf(searchPattern, index)) !== -1)]. *)
Fixpoint literalLoop (fuel : nat) (o : FindReplaceOptions) (line searchText searchPattern : JS.text)
  (lineIndex globalIndex index : nat) (newMatches : list Match) : Run (list Match) :=
  match fuel with
  | O => Diverges
  | S fuel' =>
      match indexOf searchText searchPattern index with
      | None => Returns newMatches
      | Some index =>
          let n := List.length searchPattern in
          if wholeWord o && touchesWord line index n then
            literalLoop fuel' o line searchText searchPattern lineIndex globalIndex
              (index + 1) newMatches
          else
            literalLoop fuel' o line searchText searchPattern lineIndex globalIndex
              (index + 1)
              (newMatches ++ [mkFound line lineIndex globalIndex index n
                                (slice line (Z.of_nat index) (Z.of_nat (index + n)))])
      end
  end.

Section WithHost.
Context {host : RegExpHost}.

(** The regex branch: [while ((match = regex.exec(line)) !== null)]. *)
Fixpoint regexLoop (fuel : nat) (o : FindReplaceOptions) (line : JS.text)
  (lineIndex globalIndex : nat) (regex : RegExp.RegExpObject) (newMatches : list Match)
  : Run (list Match) :=
  match fuel with
  | O => Diverges
  | S fuel' =>
      match RegExp.exec regex line with
      | (None, _) => Returns newMatches
      | (Some m, regex) =>
          if wholeWord o && touchesWord line (m_index m) (m_length m) then
            regexLoop fuel' o line lineIndex globalIndex regex newMatches
          else
            regexLoop fuel' o line lineIndex globalIndex regex
              (newMatches ++ [mkFound line lineIndex globalIndex (m_index m) (m_length m)
                                (RegExp.matched line m)])
      end
  end.

(** [lineIndex < lineRange.start || lineIndex > lineRange.end] *)
Definition outsideRange (o : FindReplaceOptions) (lineIndex : nat) : bool :=
  match lineRange o with
  | Some r => (Z.of_nat lineIndex <? range_start r)%Z
              || (Z.of_nat lineIndex >? range_end r)%Z
  | None => false
  end.

(** The callback of [lines.forEach]: the matches of one line are
    appended to [newMatches].  An invalid expression is caught and
    logged, and the line gives no match. *)
Definition scanLine (fuel : nat) (o : FindReplaceOptions) (findText : JS.text)
  (line : JS.text) (lineIndex globalIndex : nat) (newMatches : list Match)
  : Run (list Match) :=
  if outsideRange o lineIndex then Returns newMatches
  else
    let searchText := if caseSensitive o then line else toLowerCase line in
    let searchPattern := if caseSensitive o then findText else toLowerCase findText in
    if useRegex o then
      match RegExp.new searchPattern (if caseSensitive o then flags_g else flags_gi) with
      | None => Returns newMatches
      | Some regex => regexLoop fuel o line lineIndex globalIndex regex newMatches
      end
    else literalLoop fuel o line searchText searchPattern lineIndex globalIndex 0 newMatches.

(** [lines.forEach], with the running [globalIndex]. *)
Fixpoint scanLines (fuel : nat) (o : FindReplaceOptions) (findText : JS.text)
  (lines : list JS.text) (lineIndex globalIndex : nat) (newMatches : list Match)
  : Run (list Match) :=
  match lines with
  | [] => Returns newMatches
  | line :: lines' =>
      match scanLine fuel o findText line lineIndex globalIndex newMatches with
      | Returns newMatches =>
          scanLines fuel o findText lines' (lineIndex + 1)
            (globalIndex + List.length line + 1) newMatches
      | r => r
      end
  end.

(** The body of [findMatches] after the guard on an empty find text. *)
Definition scan (fuel : nat) (findText text : JS.text) (o : FindReplaceOptions)
  : Run (list Match) :=
  scanLines fuel o findText (split_char nl text) 0 0 [].

Definition set_matches (st : State) (ms : list Match) (cur : Z) : State :=
  mkState (st_text st) (findText st) (replaceText st) (st_options st) ms cur
    (history st) (batchReplacements st) (statistics st).

Definition findMatches (fuel : nat) (st : State) : Run State :=
  match findText st with
  | [] => Returns (set_matches st [] (currentMatchIndex st))
  | _ =>
      match scan fuel (findText st) (st_text st) (st_options st) with
      | Returns newMatches =>
          Returns (set_matches st newMatches
                     (if decide (newMatches = []) then (-1)%Z else 0%Z))
      | Throws => Throws
      | Diverges => Diverges
      end
  end.

End WithHost.

(** [replaceWithCasePreservation].  As in part 001, [original[0]] is
    read only when [original] is not empty. *)
Definition replaceWithCasePreservation (o : FindReplaceOptions)
  (original replacement : JS.text) : JS.text :=
  if negb (preserveCase o) then replacement
  else if text_eqb original (toUpperCase original) then toUpperCase replacement
  else if text_eqb original (toLowerCase original) then toLowerCase replacement
  else if text_eqb (take 1 original) (toUpperCase (take 1 original))
          && text_eqb (slice_from original 1) (toLowerCase (slice_from original 1)) then
    toUpperCase (take 1 replacement) ++ toLowerCase (slice_from replacement 1)
  else replacement.

(** The callback of [sortedReplacements.forEach]. *)
Definition replaceStep (o : FindReplaceOptions) (replaceText : JS.text)
  (newText : JS.text) (m : Match) : JS.text :=
  let before := slice newText 0 (Z.of_nat (start m)) in
  let after := slice_from newText (Z.of_nat (end_ m)) in
  let replacement := replaceWithCasePreservation o (text m) replaceText in
  before ++ replacement ++ after.

(** The text [performReplace] hands to [onReplace]. *)
Definition replacedText (o : FindReplaceOptions) (replaceText text : JS.text)
  (replacementsToMake : list Match) : JS.text :=
  let sortedReplacements :=
    sort (fun a b => (Z.of_nat (start b) - Z.of_nat (start a))%Z) replacementsToMake in
  foldl (replaceStep o replaceText) text sortedReplacements.

(** [setHistory(prev => [historyEntry, ...prev.slice(0, 9)])] *)
Definition pushHistory (entry : ReplacementHistory) (prev : list ReplacementHistory)
  : list ReplacementHistory :=
  entry :: slice prev 0 9.

(** [performReplace(replaceAll)].  [matches[currentMatchIndex]] is
    [undefined] when the index is out of range, and reading its
    [start] throws ([None]). *)
Definition performReplace (now : nat) (replaceAll : bool) (st : State) : option State :=
  if bool_decide (matches st = []) then Some st
  else
    replacementsToMake ←
      (if replaceAll then Some (matches st)
       else if (currentMatchIndex st <? 0)%Z then None
       else m ← matches st !! Z.to_nat (currentMatchIndex st); Some [m]);
    let newText := replacedText (st_options st) (replaceText st) (st_text st) replacementsToMake in
    let replacements := List.length replacementsToMake in
    let stats :=
      mkStatistics (totalReplacements (statistics st) + replacements)
        (totalMatches (statistics st) + List.length (matches st))
        (patternsUsed (statistics st)) in
    let historyEntry :=
      mkReplacementHistory now now (findText st) (replaceText st) (st_options st)
        (List.length (matches st)) in
    Some (mkState newText (findText st) (replaceText st) (st_options st) [] (-1)%Z
            (pushHistory historyEntry (history st)) (batchReplacements st) stats).

Section WithHost.
Context {host : RegExpHost}.

(** The expression of one batch item. *)
Definition batchPattern (o : FindReplaceOptions) (item : BatchReplacement)
  : option RegExp.RegExpObject :=
  RegExp.new (if wholeWord o then str "\b" ++ find item ++ str "\b" else find item)
    (if caseSensitive o then flags_g else flags_gi).

(** The callback of [forEach] in [performBatchReplace]; [None]:
    [new RegExp] threw. *)
Definition batchStep (o : FindReplaceOptions) (acc : JS.text * nat) (item : BatchReplacement)
  : option (JS.text * nat) :=
  let '(newText, totalReplacements) := acc in
  regex ← batchPattern o item;
  match RegExp.String_match newText regex with
  | Some matches =>
      Some (RegExp.String_replace newText regex (replace item),
            totalReplacements + List.length matches)
  | None => Some (newText, totalReplacements)
  end.

(** [.filter(item => item.enabled && item.find)] *)
Definition activeItems (items : list BatchReplacement) : list BatchReplacement :=
  List.filter (fun item => enabled item && negb (bool_decide (find item = []))) items.

Fixpoint batchLoop (o : FindReplaceOptions) (items : list BatchReplacement)
  (acc : JS.text * nat) : option (JS.text * nat) :=
  match items with
  | [] => Some acc
  | item :: items' => acc' ← batchStep o acc item; batchLoop o items' acc'
  end.

(** The new text and the total of [performBatchReplace]. *)
Definition batchResult (o : FindReplaceOptions) (items : list BatchReplacement)
  (text : JS.text) : option (JS.text * nat) :=
  batchLoop o (activeItems items) (text, 0).

Definition performBatchReplace (st : State) : option State :=
  '(newText, total) ← batchResult (st_options st) (batchReplacements st) (st_text st);
  let stats :=
    mkStatistics (totalReplacements (statistics st) + total)
      (totalMatches (statistics st))
      (patternsUsed (statistics st) + 1) in
  Some (mkState newText (findText st) (replaceText st) (st_options st) (matches st)
          (currentMatchIndex st) (history st) (batchReplacements st) stats).

End WithHost.

End FindReplaceTsx.

(** ** The vocabulary of the properties

    The notions the properties are stated in.  Those of the design
    document (the entry of a row, the cell of a pointer, spans and
    their replacement, orderings, case patterns, passes of a batch) are
    defined from its wording, independently of the code; the others
    name the pieces of a round of the scan loops. *)

Module Design.

(** *** Column extraction *)

(** The output entry for row [r]: empty at or past the end of the
    text and when the clipped column range is empty, otherwise the
    line from [min(minCol, length)] to [min(maxCol + 1, length)]. *)
Definition entryOk (lines : list text) (minCol maxCol r : Z) (e : text) : Prop :=
  ((Z.of_nat (length lines) <= r)%Z -> e = []) /\
  (forall line, (0 <= r)%Z -> lines !! Z.to_nat r = Some line ->
     let a := Z.min minCol (len line) in
     let b := Z.min (maxCol + 1) (len line) in
     ((b <= a)%Z -> e = []) /\
     ((a < b)%Z -> e = take (Z.to_nat (b - a)) (drop (Z.to_nat a) line))).

(** *** Grid mapping *)

(** [floor((pointerX - originX + scrollX) / charWidth)] and
    [floor((pointerY - originY + scrollY) / lineHeight)], each clamped
    to be non-negative, computed on numbers in the order of the code:
    the corner of the text area is taken off first, then the
    padding. *)
Definition gridCol (m : Pointer.Metrics) (ev : Pointer.MouseEvent) : Number.Integral :=
  Number.max0
    (Number.floor
       (Number.div
          (Number.add
             (Number.sub (Number.sub (Pointer.clientX ev) (Pointer.rectLeft m))
                (Pointer.paddingLeft m))
             (Pointer.scrollLeft m))
          (Pointer.charWidth m))).

Definition gridRow (m : Pointer.Metrics) (ev : Pointer.MouseEvent) : Number.Integral :=
  Number.max0
    (Number.floor
       (Number.div
          (Number.add
             (Number.sub (Number.sub (Pointer.clientY ev) (Pointer.rectTop m))
                (Pointer.paddingTop m))
             (Pointer.scrollTop m))
          (Pointer.lineHeight m))).

(** The column of the same formula in exact arithmetic, on the
    values of the measures. *)
Definition exactCol (m : Pointer.Metrics) (ev : Pointer.MouseEvent) : Z :=
  Z.max 0
    (Qfloor ((Number.toQ (Pointer.clientX ev) - Number.toQ (Pointer.rectLeft m)
              - Number.toQ (Pointer.paddingLeft m) + Number.toQ (Pointer.scrollLeft m))
             / Number.toQ (Pointer.charWidth m))).

(** Measures as a document gives them: the width of a character and
    the height of a line are finite and above zero, and the other
    measures and the coordinates of the pointer are finite. *)
Definition finitePointer (m : Pointer.Metrics) (ev : Pointer.MouseEvent) : Prop :=
  Number.above_zero (Pointer.charWidth m) /\ Number.above_zero (Pointer.lineHeight m) /\
  Number.finite (Pointer.rectLeft m) /\ Number.finite (Pointer.rectTop m) /\
  Number.finite (Pointer.paddingLeft m) /\ Number.finite (Pointer.paddingTop m) /\
  Number.finite (Pointer.scrollLeft m) /\ Number.finite (Pointer.scrollTop m) /\
  Number.finite (Pointer.clientX ev) /\ Number.finite (Pointer.clientY ev).

(** A non-negative integer; one that indexes an array of length [n];
    and a value at or beyond the length [n]. *)
Definition natural (v : Number.Integral) : Prop :=
  exists k : nat, v = Number.Int (Z.of_nat k).

Definition indexes (v : Number.Integral) (n : nat) : Prop :=
  exists k : nat, v = Number.Int (Z.of_nat k) /\ k < n.

Definition atOrBeyond (v : Number.Integral) (n : nat) : Prop :=
  v = Number.PlusInfinity \/ exists k : nat, v = Number.Int (Z.of_nat k) /\ n <= k.

(** *** Replacement *)

(** A span of the text and what is to stand in its place. *)
Record Span := mkSpan { s_start : nat; s_stop : nat; s_new : text }.

(** [T[0:start] ++ R ++ T[stop:]] *)
Definition splice (X : text) (sp : Span) : text :=
  take (s_start sp) X ++ s_new sp ++ drop (s_stop sp) X.

(** The text with every span replaced, read from left to right from
    position [p] on. *)
Fixpoint spliceAll (T : text) (p : nat) (sps : list Span) : text :=
  match sps with
  | [] => drop p T
  | sp :: sps' =>
      take (s_start sp - p) (drop p T) ++ s_new sp ++ spliceAll T (s_stop sp) sps'
  end.

(** Spans in scan order from position [p] on, without overlap: each
    starts at or after the end of the one before, and strictly after
    its start. *)
Fixpoint ascending (p : nat) (sps : list Span) : Prop :=
  match sps with
  | [] => True
  | sp :: sps' =>
      p <= s_start sp /\ s_start sp <= s_stop sp /\
      match sps' with
      | sp' :: _ => s_start sp < s_start sp'
      | [] => True
      end /\
      ascending (s_stop sp) sps'
  end.

(** The comparison function of both [performReplace]: by descending
    key. *)
Definition descending {A} (key : A -> nat) (a b : A) : Z :=
  (Z.of_nat (key b) - Z.of_nat (key a))%Z.

(** Every span ends at or before [q]; inside [T]. *)
Definition before (q : nat) (sps : list Span) : Prop :=
  Forall (fun sp => s_stop sp <= q) sps.

Definition within (T : text) (sps : list Span) : Prop := before (length T) sps.

(** Spans whose starts go strictly up from position [p] on; they may
    overlap. *)
Fixpoint increasing (p : nat) (sps : list Span) : Prop :=
  match sps with
  | [] => True
  | sp :: sps' => p <= s_start sp /\ increasing (S (s_start sp)) sps'
  end.

(** No span is empty. *)
Definition nonempty (sps : list Span) : Prop :=
  Forall (fun sp => s_start sp < s_stop sp) sps.

(** Characters and line separators of a list of lines. *)
Definition total (lines : list text) : nat :=
  sum_list_with (fun l => length l + 1) lines.

(** The span of a match of either implementation, with the
    replacement the implementation computes for it. *)
Definition span001 (o : Part001.SearchOptions) (R : text) (m : Part001.Match) : Span :=
  mkSpan (Part001.index m) (Part001.index m + Part001.length m)
    (Part001.replacementFor o R m).

Definition spanTsx (o : FindReplaceTsx.FindReplaceOptions) (R : text)
  (m : FindReplaceTsx.Match) : Span :=
  mkSpan (FindReplaceTsx.start m) (FindReplaceTsx.end_ m)
    (FindReplaceTsx.replaceWithCasePreservation o (FindReplaceTsx.text m) R).

(** *** Scanning *)

(** The record the scan of part 001 keeps of a match. *)
Definition found001 (T : text) (m : MatchResult) : Part001.Match :=
  Part001.mkMatch (m_index m) (m_length m) (RegExp.matched T m)
    (length (split_char nl (substring T 0 (Z.of_nat (m_index m)))))
    (trim (Part001.contextOf T (m_index m) (m_length m))).

(** The expression after the step over an empty match. *)
Definition stepped {host : RegExpHost} (m : MatchResult) (r : RegExp.RegExpObject)
  : RegExp.RegExpObject :=
  if m_length m =? 0 then RegExp.set_lastIndex r (RegExp.lastIndex r + 1) else r.

(** The line number the scan of part 001 gives a match. *)
Definition lineNumberOf (T : text) (m : MatchResult) : nat :=
  length (split_char nl (substring T 0 (Z.of_nat (m_index m)))).

(** The verdict of the context filter of part 001 on a match; [None]
    when the filter is no valid expression. *)
Definition passesContext {host : RegExpHost} (o : Part001.SearchOptions) (T : text)
  (m : MatchResult) : option bool :=
  match Part001.contextFilter o with
  | Some (c :: cf) =>
      cp ← RegExp.new (c :: cf) flags_i;
      Some (fst (RegExp.test cp (Part001.contextOf T (m_index m) (m_length m))))
  | _ => Some true
  end.

(** The options without the line range. *)
Definition without_range (o : Part001.SearchOptions) : Part001.SearchOptions :=
  Part001.mkSearchOptions (Part001.caseSensitive o) (Part001.wholeWord o)
    (Part001.useRegex o) (Part001.replaceFirst o) (Part001.smartCase o) None
    (Part001.contextFilter o).

(** A line number lies in the range, bounds included. *)
Definition inRange (r : Part001.LineRange) (lineNumber : nat) : bool :=
  (Part001.range_start r <=? Z.of_nat lineNumber)%Z
  && (Z.of_nat lineNumber <=? Part001.range_end r)%Z.

(** Where the lower-casing of a literal search in FindReplace.tsx is
    that of the engine: in a case-sensitive search, which lowers
    nothing, and on ASCII text. *)
Definition caseFaithful (o : FindReplaceTsx.FindReplaceOptions) (P T : text) : Prop :=
  FindReplaceTsx.caseSensitive o = true \/ (ascii_text P /\ ascii_text T).

(** *** Case patterns, character by character *)

Definition allUpper (s : text) : Prop := Forall (fun c => is_lower c = false) s.
Definition allLower (s : text) : Prop := Forall (fun c => is_upper c = false) s.

(** First character upper case, rest lower case. *)
Definition capitalized (s : text) : Prop :=
  match s with
  | c :: rest => is_upper c = true /\ allLower rest
  | [] => False
  end.

Definition capitalize (r : text) : text :=
  match r with
  | c :: rest => upper_char c :: toLowerCase rest
  | [] => []
  end.

(** *** Batches *)

Section WithHost.
Context {host : RegExpHost}.

(** The text the batch of part 001 produces, rule after rule. *)
Fixpoint batchText (lines : list text) (T : text) : option text :=
  match lines with
  | [] => Some T
  | line :: lines' =>
      match Part001.parseRule line with
      | None => batchText lines' T
      | Some (find, replace) =>
          pattern ← RegExp.new (escapeRegExp find) (mkFlags true false);
          batchText lines' (RegExp.String_replace T pattern replace)
      end
  end.



End WithHost.

(** The same state under other options. *)
Definition with_options (st : Part001.State) (o : Part001.SearchOptions) : Part001.State :=
  Part001.mkState (Part001.st_text st) (Part001.findText st) (Part001.replaceText st) o
    (Part001.matches st) (Part001.currentMatchIndex st) (Part001.history st)
    (Part001.batchReplacements st) (Part001.isInteractiveMode st)
    (Part001.selectedMatches st).

End Design.

Import Design.

(** ** Sample inputs *)

Module Sample.

Definition twoLines : text := str "abcd" ++ nl :: str "efgh".

(** A drag from row 0, column 1 to row 3, column 2. *)
Definition drag : SelectionState := mkSelection false 1 0 2 3 true.

(** A text area at (10, 20) with 8 px padding, 8 px wide characters
    and 16 px lines, not scrolled. *)
Definition metrics : Metrics := mkMetrics 8 16 10 20 8 8 0 0.

Definition atOrigin : MouseEvent := mkMouseEvent 18 28 false false.
Definition oneLineDown : MouseEvent := mkMouseEvent 18 44 false false.

(** The same text area and pointers, in numbers. *)
Definition pointerMetrics : Pointer.Metrics :=
  Pointer.mkMetrics (Number.of_Z 8) (Number.of_Z 16) (Number.of_Z 10) (Number.of_Z 20)
    (Number.of_Z 8) (Number.of_Z 8) (Number.of_Z 0) (Number.of_Z 0).

Definition pointerAtOrigin : Pointer.MouseEvent :=
  Pointer.mkMouseEvent (Number.of_Z 18) (Number.of_Z 28).

Definition pointerOneLineDown : Pointer.MouseEvent :=
  Pointer.mkMouseEvent (Number.of_Z 18) (Number.of_Z 44).

(** A text area at 13.6 px from the left with 16 px padding and
    characters 8.4 px wide, and a pointer at 38 px: on the line
    between the first and the second column. *)
Definition narrowMetrics : Pointer.Metrics :=
  Pointer.mkMetrics (Number.ratio 84 10) (Number.of_Z 16) (Number.ratio 136 10)
    (Number.of_Z 0) (Number.of_Z 16) (Number.of_Z 0) (Number.of_Z 0) (Number.of_Z 0).

Definition pointerOnBoundary : Pointer.MouseEvent :=
  Pointer.mkMouseEvent (Number.of_Z 38) (Number.of_Z 0).

Definition smartCase : Part001.SearchOptions :=
  Part001.mkSearchOptions false false false false true None None.

Definition keepCase : FindReplaceTsx.FindReplaceOptions :=
  FindReplaceTsx.mkOptions false false false false true None false false.

Definition matchX (i : nat) : Part001.Match :=
  Part001.mkMatch i 1 (str "X") 1 (str "aXaXa").

Definition matchXTsx (i : nat) : FindReplaceTsx.Match :=
  FindReplaceTsx.mkMatch i (i + 1) (str "X") 1 (str "aXaXa").

(** Twenty-one batch lines. *)
Definition batch21 : text := join nl (replicate 21 (str "a->b")).

Definition state21 : Part001.State :=
  Part001.mkState (str "a") [] [] Part001.initialOptions [] (-1) [] batch21 false ∅.

Definition abRules : list FindReplaceTsx.BatchReplacement :=
  [FindReplaceTsx.mkBatchReplacement (str "a") (str "b") true;
   FindReplaceTsx.mkBatchReplacement (str "b") (str "c") true].

Definition abLines : list text := [str "a -> b"; str "b -> c"].

(** Case-sensitive search by regular expression, and by literal
    text. *)
Definition regex001 : Part001.SearchOptions :=
  Part001.mkSearchOptions true false true false false None None.

Definition literal001 : Part001.SearchOptions :=
  Part001.mkSearchOptions true false false false false None None.

Definition regexTsx : FindReplaceTsx.FindReplaceOptions :=
  FindReplaceTsx.mkOptions true false true false false None false false.

Definition literalTsx : FindReplaceTsx.FindReplaceOptions :=
  FindReplaceTsx.mkOptions true false false false false None false false.

(** The same, restricted to a line range. *)
Definition regex001_lines (a b : Z) : Part001.SearchOptions :=
  Part001.mkSearchOptions true false true false false
    (Some (Part001.mkLineRange a b)) None.

Definition literal001_lines (a b : Z) : Part001.SearchOptions :=
  Part001.mkSearchOptions true false false false false
    (Some (Part001.mkLineRange a b)) None.

Definition literalTsx_lines (a b : Z) : FindReplaceTsx.FindReplaceOptions :=
  FindReplaceTsx.mkOptions true false false false false
    (Some (FindReplaceTsx.mkLineRange a b)) false false.

Definition abab : text := str "ab" ++ nl :: str "ab".

End Sample.

(** ** The page of js/app.js and its listeners

    The part of the page the listeners compute with: the content of
    the text area, the selection, and the overlay, which holds one
    [div] per line and in it one [span] per character; a span is [true]
    when it carries the class [selected-column].  No other element of
    the page carries that class.  The status line, the selection
    summary, the focus, the scroll transform and the timed [active]
    animation class are presentation and are left out. *)

Module App.

Record Page := mkPage {
  value : text;
  selectionState : SelectionState;
  overlay : list (list bool)
}.

Definition initialSelection : SelectionState := mkSelection false 0 0 0 0 false.

Definition demoText : text :=
  join nl
    [str "User ID,Name,Email,Sign-up Date,Status,Plan";
     str "1001,John Smith,john.smith@example.com,2023-01-15,Active,Pro";
     str "1002,Emily Johnson,emily.j@example.com,2023-02-20,Active,Basic";
     str "1003,Michael Brown,mbrown@example.com,2023-01-30,Inactive,Basic";
     str "1004,Sarah Davis,sarah.davis@example.com,2023-03-05,Active,Premium";
     str "1005,David Wilson,dwilson@example.com,2023-02-10,Active,Pro";
     str "1006,Jennifer Taylor,jtaylor@example.com,2023-03-15,Pending,Basic";
     str "1007,Robert Anderson,robert.a@example.com,2023-01-22,Active,Premium";
     str "1008,Lisa Thomas,lthomas@example.com,2023-02-28,Active,Basic";
     str "1009,James Martin,jmartin@example.com,2023-03-10,Inactive,Pro";
     str "1010,Laura Garcia,lgarcia@example.com,2023-01-18,Active,Premium"].

(** A [for] loop over the values [l] of its variable; the body may
    throw. *)
Fixpoint for_each {S A : Type} (body : S -> A -> option S) (s : S) (l : list A)
  : option S :=
  match l with
  | [] => Some s
  | a :: l' => s' ← body s a; for_each body s' l'
  end.

(** [updateOverlay]: a line gives a [div] with one fresh span per
    character, an empty line a [div] with a single span. *)
Definition updateOverlay (p : Page) : Page :=
  mkPage (value p) (selectionState p)
    ((fun line : text =>
        if bool_decide (line = []) then [false] else (fun _ => false) <$> line)
       <$> split_char nl (value p)).

(** [clearSelection] *)
Definition clearSelection (p : Page) : Page :=
  mkPage (value p) (selectionState p)
    ((fun spans : list bool => (fun _ => false) <$> spans) <$> overlay p).

(** [document.querySelector('.selected-column')] finds an element. *)
Definition hasSelection (p : Page) : bool :=
  existsb (fun spans => existsb (fun selected : bool => selected) spans) (overlay p).

(** The body of the column loop of [highlightColumns]: [spans[c]] is
    [undefined] for a negative [c], and reading its [classList]
    throws. *)
Definition highlightSpan (spans : list bool) (c : Z) : option (list bool) :=
  if (c <? Z.of_nat (length spans))%Z then
    if (c <? 0)%Z then None else Some (<[Z.to_nat c := true]> spans)
  else Some spans.

(** The body of the row loop: [textOverlay.children[r]] is
    [undefined] for a negative [r], and reading its [children]
    throws. *)
Definition highlightRow (minCol maxCol : Z) (divs : list (list bool)) (r : Z)
  : option (list (list bool)) :=
  if (r >=? Z.of_nat (length divs))%Z then Some divs
  else if (r <? 0)%Z then None
  else
    spans ← divs !! Z.to_nat r;
    spans ← for_each highlightSpan spans (ColumnSelector.rows minCol maxCol);
    Some (<[Z.to_nat r := spans]> divs).

Definition highlightColumns (p : Page) : option Page :=
  let s := selectionState p in
  let minRow := Z.min (startY s) (endY s) in
  let maxRow := Z.max (startY s) (endY s) in
  let minCol := Z.min (startX s) (endX s) in
  let maxCol := Z.max (startX s) (endX s) in
  divs ← for_each (highlightRow minCol maxCol) (overlay p) (ColumnSelector.rows minRow maxRow);
  Some (mkPage (value p) s divs).

(** What [getPositionFromEvent] reads before it maps the pointer to
    a cell: of the computed style the font size, the line height
    ([None] when [parseFloat] gives [NaN], as it does for [normal]) and
    the paddings; the width the measuring span has for an "M"; the
    rectangle and the scroll offsets of the text area. *)
Record Style := mkStyle {
  fontSize : Q;
  styleLineHeight : option Q;
  stylePaddingLeft : Q;
  stylePaddingTop : Q
}.

Record Box := mkBox {
  boxLeft : Q;
  boxTop : Q;
  boxScrollLeft : Q;
  boxScrollTop : Q
}.

(** [width > 0 ? width : parseFloat(style.fontSize) * 0.6] *)
Definition measureCharWidth (width : Q) (style : Style) : Q :=
  if Qlt_le_dec 0 width then width else (fontSize style * (6 # 10))%Q.

(** [parseFloat(style.lineHeight) || parseFloat(style.fontSize) * 1.2] *)
Definition measureLineHeight (style : Style) : Q :=
  match styleLineHeight style with
  | Some h => if Qeq_bool h 0 then (fontSize style * (12 # 10))%Q else h
  | None => (fontSize style * (12 # 10))%Q
  end.

Definition metricsOf (width : Q) (style : Style) (box : Box) : Metrics :=
  mkMetrics (measureCharWidth width style) (measureLineHeight style)
    (boxLeft box) (boxTop box) (stylePaddingLeft style) (stylePaddingTop style)
    (boxScrollLeft box) (boxScrollTop box).

Definition set_selection (p : Page) (s : SelectionState) : Page :=
  mkPage (value p) s (overlay p).

(** The selection after [startX], [startY], [endX], [endY] and
    [active] are set on mouse down, and after [endX] and [endY] are
    set while dragging. *)
Definition startAt (s : SelectionState) (pos : Position) : SelectionState :=
  mkSelection true (col pos) (row pos) (col pos) (row pos) (justFinishedDragging s).

Definition endAt (s : SelectionState) (pos : Position) : SelectionState :=
  mkSelection (active s) (startX s) (startY s) (col pos) (row pos) (justFinishedDragging s).

(** [handleInput]; the text area holds the new content when the
    listener runs.  Encoding and decoding as UTF-8 leaves a string of
    ASCII characters as it is. *)
Definition handleInput (p : Page) : Page := clearSelection (updateOverlay p).

Definition handleClick (p : Page) : Page :=
  let s := selectionState p in
  if justFinishedDragging s then
    set_selection p
      (mkSelection (active s) (startX s) (startY s) (endX s) (endY s) false)
  else if hasSelection p then clearSelection p
  else p.

(** [handleMouseDown]; [onTextArea] is [event.target === textArea].
    Here and in the two listeners after it the position of the
    pointer is that of the exact grid mapping. *)
Definition handleMouseDown (onTextArea : bool) (textArea : Metrics) (event : MouseEvent)
  (p : Page) : Page :=
  if negb onTextArea then p
  else
    match ColumnSelector.gridPosition textArea (value p) event with
    | None => p
    | Some pos =>
        let p := set_selection p (startAt (selectionState p) pos) in
        if negb (ctrlKey event) && negb (metaKey event) then clearSelection p else p
    end.

Definition handleMouseMove (textArea : Metrics) (event : MouseEvent) (p : Page)
  : option Page :=
  if negb (active (selectionState p)) then Some p
  else
    match ColumnSelector.gridPosition textArea (value p) event with
    | None => Some p
    | Some pos =>
        let p := set_selection p (endAt (selectionState p) pos) in
        highlightColumns (clearSelection p)
    end.

Definition finishSelection (p : Page) : Page :=
  let s := selectionState p in
  set_selection p (mkSelection false (startX s) (startY s) (endX s) (endY s) true).

Definition handleMouseUp (textArea : Metrics) (event : MouseEvent) (p : Page)
  : option Page :=
  if negb (active (selectionState p)) then Some p
  else
    p ← match ColumnSelector.gridPosition textArea (value p) event with
        | None => Some p
        | Some pos =>
            let p := set_selection p (endAt (selectionState p) pos) in
            highlightColumns (clearSelection p)
        end;
    Some (finishSelection p).

Definition handleWindowMouseUp (p : Page) : Page :=
  if active (selectionState p) then finishSelection p else p.

(** What [handleCopy] does: one of its two warnings, or the call of
    [copyToClipboard]. *)
Inductive CopyOutcome : Type :=
  | NoTextSelected
  | NoValidText
  | CopyToClipboard (selectedText : text).

Definition handleCopy (p : Page) : option CopyOutcome :=
  if negb (hasSelection p) then Some NoTextSelected
  else
    selectedText ← AppJs.getSelectedText (value p) (selectionState p);
    if bool_decide (trim selectedText = []) then Some NoValidText
    else Some (CopyToClipboard selectedText).

Definition handleClear (p : Page) : Page :=
  updateOverlay (clearSelection (mkPage [] (selectionState p) (overlay p))).

Definition loadDemoText (p : Page) : Page :=
  updateOverlay (mkPage demoText (selectionState p) (overlay p)).

(** [init], on a text area that holds [value]. *)
Definition init (value : text) : Page := updateOverlay (mkPage value initialSelection []).

(** What happens on the page, and the listeners that run for it, in
    the order of dispatch: a [mouseup] on the text area reaches the
    listener of the text area, then that of the window. *)
Inductive Event : Type :=
  | input (newValue : text)
  | click
  | mousedown (textArea : Metrics) (event : MouseEvent)
  | mousemove (textArea : Metrics) (event : MouseEvent)
  | mouseup (textArea : Metrics) (event : MouseEvent)
  | mouseupOutside
  | clearButton
  | demoButton.

Definition dispatch (p : Page) (e : Event) : option Page :=
  match e with
  | input newValue =>
      Some (handleInput (mkPage newValue (selectionState p) (overlay p)))
  | click => Some (handleClick p)
  | mousedown textArea event => Some (handleMouseDown true textArea event p)
  | mousemove textArea event => handleMouseMove textArea event p
  | mouseup textArea event => handleWindowMouseUp <$> handleMouseUp textArea event p
  | mouseupOutside => Some (handleWindowMouseUp p)
  | clearButton => Some (handleClear p)
  | demoButton => Some (loadDemoText p)
  end.

End App.

(** ** The utilities at the end of js/app.js

    [debounce] and [throttle] return closures that work with the
    timers of the host.  [setTimeout(callback, delay)] makes the
    callback due [delay] milliseconds later; the host runs a due
    callback at a later moment of its choice, between two calls of
    the program, unless [clearTimeout] has removed it.  A step is a
    call of the closure or the run of its due callback, at a time in
    milliseconds; a step gives the new state of the closure and the
    call of [func] it makes, if any, or is not possible. *)

Module Utils.

Section Closures.
Context {Args : Type}.

Inductive Step : Type :=
  | call (now : nat) (args : Args)
  | due (now : nat).

Definition time (e : Step) : nat :=
  match e with call now _ | due now => now end.

(** The variable [timeout] of a closure of [debounce]: the timer it
    set last, while it is pending: when it is due, and the arguments
    its callback holds. *)
Record Debounced := mkDebounced { timeout : option (nat * Args) }.

(** [clearTimeout(timeout); timeout = setTimeout(() =>
    func.apply(context, args), wait)], and the callback. *)
Definition debounced (wait : nat) (d : Debounced) (e : Step)
  : option (Debounced * option (nat * Args)) :=
  match e with
  | call now args => Some (mkDebounced (Some (now + wait, args)), None)
  | due now =>
      match timeout d with
      | Some (at_, args) =>
          if at_ <=? now then Some (mkDebounced None, Some (now, args)) else None
      | None => None
      end
  end.

(** A run of steps from the time [clock] on: time does not go back.
    The result lists, step by step, the calls of [func]. *)
Fixpoint run {S : Type} (step : S -> Step -> option (S * option (nat * Args)))
  (clock : nat) (s : S) (steps : list Step) : option (list (option (nat * Args))) :=
  match steps with
  | [] => Some []
  | e :: steps' =>
      if time e <? clock then None
      else
        '(s', out) ← step s e;
        outs ← run step (time e) s' steps';
        Some (out :: outs)
  end.


(** What happens to a closure of [throttle]: it is called; the call
    of the closure that is in progress comes to its end, by coming
    back or, when [func] throws, by an exception; or the host runs the
    callback of a timer that is due.  A call made while another is in
    progress is a call [func] makes, directly or not. *)
Inductive Event : Type :=
  | enter (now : nat) (args : Args)
  | leave (now : nat) (returned : bool)
  | fire (now : nat).

Definition moment (e : Event) : nat :=
  match e with enter now _ | leave now _ | fire now => now end.

(** The variable [inThrottle] of a closure of [throttle]; the timers
    it has set and that are pending, by the time they are due, the
    oldest first; and the calls of the closure in progress, the
    innermost first, each with whether it has called [func]. *)
Record Throttled := mkThrottled {
  inThrottle : bool;
  timers : list nat;
  frames : list bool
}.

(** [if (!inThrottle) { func.apply(context, args); inThrottle = true;
    setTimeout(() => inThrottle = false, limit); }]: [func] is called
    first; the two statements after it are reached when it comes
    back, and skipped when it throws.  The host runs a callback when
    no call is in progress. *)
Definition throttled (limit : nat) (s : Throttled) (e : Event)
  : option (Throttled * option (nat * Args)) :=
  match e with
  | enter now args =>
      if inThrottle s then Some (mkThrottled true (timers s) (false :: frames s), None)
      else Some (mkThrottled false (timers s) (true :: frames s), Some (now, args))
  | leave now returned =>
      match frames s with
      | [] => None
      | true :: frames' =>
          if returned then Some (mkThrottled true (timers s ++ [now + limit]) frames', None)
          else Some (mkThrottled (inThrottle s) (timers s) frames', None)
      | false :: frames' =>
          if returned then Some (mkThrottled (inThrottle s) (timers s) frames', None)
          else None
      end
  | fire now =>
      match frames s, timers s with
      | [], at_ :: timers' =>
          if at_ <=? now then Some (mkThrottled false timers' [], None) else None
      | _, _ => None
      end
  end.

(** A run of the events of a closure of [throttle] from the time
    [clock] on; the result lists, event by event, the calls of
    [func]. *)
Fixpoint play (limit clock : nat) (s : Throttled) (events : list Event)
  : option (list (option (nat * Args))) :=
  match events with
  | [] => Some []
  | e :: events' =>
      if moment e <? clock then None
      else
        '(s', out) ← throttled limit s e;
        outs ← play limit (moment e) s' events';
        Some (out :: outs)
  end.

(** Events in which [func] never calls the closure: every call of
    the closure has come to its end before the next event, but
    perhaps the last. *)
Inductive flat : list Event -> Prop :=
  | flat_nil : flat []
  | flat_pending now args : flat [enter now args]
  | flat_fire now events : flat events -> flat (fire now :: events)
  | flat_call now args now' returned events :
      flat events -> flat (enter now args :: leave now' returned :: events).

End Closures.

Arguments Step Args : clear implicits.
Arguments Debounced Args : clear implicits.
Arguments Event Args : clear implicits.

End Utils.

(** ** The rest of the panel of part 001 *)

Module Panel001.
Import Part001.

(** The text [generatePreview] hands to [setPreviewText]. *)
Definition generatePreview (st : State) : JS.text :=
  if bool_decide (findText st = []) || bool_decide (matches st = []) then st_text st
  else replacedText (st_options st) (replaceText st) (st_text st) (matchesToReplace st).

Definition toggleMatchSelection (index : nat) (st : State) : State :=
  let prev := selectedMatches st in
  let newSet := if bool_decide (index ∈ prev) then prev ∖ {[index]} else prev ∪ {[index]} in
  mkState (st_text st) (findText st) (replaceText st) (st_options st) (matches st)
    (currentMatchIndex st) (history st) (batchReplacements st) (isInteractiveMode st) newSet.

Record SavedPattern := mkSavedPattern {
  p_id : JS.text;
  p_name : JS.text;
  p_find : JS.text;
  p_replace : JS.text;
  p_options : SearchOptions;
  p_description : JS.text
}.

(** The state of the save dialog. *)
Record Patterns := mkPatterns {
  savedPatterns : list SavedPattern;
  patternName : JS.text;
  showSaveDialog : bool
}.

(** A number in a template string. *)
Definition decimal (n : nat) : JS.text := str (NilEmpty.string_of_uint (Nat.to_uint n)).

(** [savePattern]; [now] is the reading of the clock. *)
Definition savePattern (now : nat) (st : State) (ps : Patterns) : Patterns :=
  if bool_decide (trim (patternName ps) = []) || bool_decide (findText st = []) then ps
  else
    let pattern :=
      mkSavedPattern (decimal now) (patternName ps) (findText st) (replaceText st)
        (st_options st) (decimal (List.length (matches st)) ++ str " matches found") in
    mkPatterns (pattern :: savedPatterns ps) [] false.

Definition loadPattern (pattern : SavedPattern) (st : State) : State :=
  mkState (st_text st) (p_find pattern) (p_replace pattern) (p_options pattern) (matches st)
    (currentMatchIndex st) (history st) (batchReplacements st) (isInteractiveMode st)
    (selectedMatches st).

End Panel001.

(** ** The rest of FindReplace.tsx *)

Module PanelTsx.
Import FindReplaceTsx.

(** [<mark class="bg-yellow-200">] *)
Definition markOpen : JS.text :=
  str "<mark class=" ++ ["034"%char] ++ str "bg-yellow-200" ++ ["034"%char; ">"%char].

Definition markClose : JS.text := str "</mark>".

(** The callback of [sortedMatches.forEach] in [generatePreview]. *)
Definition previewStep (o : FindReplaceOptions) (replaceText : JS.text)
  (preview : JS.text) (m : Match) : JS.text :=
  let before := slice preview 0 (Z.of_nat (start m)) in
  let after := slice_from preview (Z.of_nat (end_ m)) in
  let replacement := replaceWithCasePreservation o (text m) replaceText in
  before ++ (markOpen ++ replacement ++ markClose) ++ after.

(** The text [generatePreview] hands to [setPreviewText]. *)
Definition generatePreview (st : State) : JS.text :=
  if bool_decide (matches st = []) then st_text st
  else
    let sortedMatches :=
      sort (fun a b => (Z.of_nat (start b) - Z.of_nat (start a))%Z) (matches st) in
    foldl (previewStep (st_options st) (replaceText st)) (st_text st) sortedMatches.

(** [onClick={() => setCurrentMatchIndex(index)}] on entry [index] of
    the list of matches. *)
Definition selectMatch (index : nat) (st : State) : State :=
  set_matches st (matches st) (Z.of_nat index).

(** [acc[word] = (acc[word] || 0) + 1] on an object whose keys are
    kept in the order of their insertion. *)
Fixpoint countWord (acc : list (JS.text * nat)) (word : JS.text) : list (JS.text * nat) :=
  match acc with
  | [] => [(word, 1)]
  | (w, n) :: acc' =>
      if bool_decide (w = word) then (w, n + 1) :: acc' else (w, n) :: countWord acc' word
  end.

Section WithHost.
Context {host : RegExpHost}.

(** [generateSuggestions].  The expression is written
    [/\\b\\w+\\b/g]: in it each [\\] is a backslash taken literally.
    Every word it finds therefore begins with a backslash, so that no
    key of [wordCount] is an array index or a property every object
    has, and [Object.entries] lists the keys in the order of their
    insertion.  [None]: the expression does not compile on the host. *)
Definition generateSuggestions (text : JS.text) : option (list JS.text) :=
  regex ← RegExp.new (str "\\b\\w+\\b") flags_g;
  let words := default [] (RegExp.String_match (toLowerCase text) regex) in
  let wordCount := foldl countWord [] words in
  let suggestions :=
    fst <$>
      slice
        (sort (fun a b : JS.text * nat => (Z.of_nat (snd b) - Z.of_nat (snd a))%Z)
           (List.filter (fun e : JS.text * nat => (1 <? snd e) && (3 <? List.length (fst e)))
              (wordCount)))
        0 5 in
  Some suggestions.

End WithHost.

(** What the user does in the panel, from the state [st] on:
    the effect that runs [findMatches], a click on a listed match, the
    two replace buttons, the batch button, and the edits of the
    fields. *)
Inductive step {host : RegExpHost} (st : State) : State -> Prop :=
  | step_find fuel st' : findMatches fuel st = Returns st' -> step st st'
  | step_select index : index < List.length (matches st) -> step st (selectMatch index st)
  | step_replace now replaceAll st' :
      performReplace now replaceAll st = Some st' -> step st st'
  | step_batch st' : performBatchReplace st = Some st' -> step st st'
  | step_edit T F R o items :
      step st (mkState T F R o (matches st) (currentMatchIndex st) (history st) items
                 (statistics st)).

(** The panel as it is mounted on the text [T]. *)
Definition mounted (T : JS.text) : State :=
  mkState T [] [] initialOptions [] 0 [] [mkBatchReplacement [] [] true]
    (mkStatistics 0 0 0).

Inductive reachable {host : RegExpHost} (T : JS.text) : State -> Prop :=
  | reach_mounted : reachable T (mounted T)
  | reach_step st st' : reachable T st -> step st st' -> reachable T st'.

End PanelTsx.

(** ** The reference engine with [+]

    The fragment of the reference engine, with [+] after a
    one-character atom: [a+] is [a] followed by [a*]. *)

Module FragmentPlus.
Import Fragment.

(** The items of a pattern source, as in the fragment, with [+]
    read like [*] after an atom. *)
Fixpoint parse (src : text) : option (list item) :=
  match src with
  | [] => Some []
  | c :: rest =>
      if Ascii.eqb c "\" then
        match rest with
        | [] => None
        | d :: rest' =>
            if Ascii.eqb d "b" then cons Boundary <$> parse rest'
            else if is_meta d then
              match rest' with
              | q :: rest'' =>
                  if Ascii.eqb q "*" then cons (Star (Lit d)) <$> parse rest''
                  else if Ascii.eqb q "+" then
                    app [One (Lit d); Star (Lit d)] <$> parse rest''
                  else cons (One (Lit d)) <$> parse rest'
              | [] => Some [One (Lit d)]
              end
            else None
        end
      else if is_meta c && negb (Ascii.eqb c ".") then None
      else
        let a := if Ascii.eqb c "." then AnyChar else Lit c in
        match rest with
        | q :: rest' =>
            if Ascii.eqb q "*" then cons (Star a) <$> parse rest'
            else if Ascii.eqb q "+" then app [One a; Star a] <$> parse rest'
            else cons (One a) <$> parse rest
        | [] => Some [One a]
        end
  end.

Definition compile_plus (src : text) (ic : bool) : option (bool * list item) :=
  r ← parse src; Some (ic, r).

Definition host : RegExpHost :=
  {| Pattern := bool * list item;
     compile := compile_plus;
     search := search_fragment |}.

End FragmentPlus.

(** ** Further vocabulary *)

Module Terms.

(** *** Selection on the page *)

(** The bounds of a selection. *)
Definition minRow (s : SelectionState) : Z := Z.min (startY s) (endY s).
Definition maxRow (s : SelectionState) : Z := Z.max (startY s) (endY s).
Definition minCol (s : SelectionState) : Z := Z.min (startX s) (endX s).
Definition maxCol (s : SelectionState) : Z := Z.max (startX s) (endX s).

(** The span at row [r] and column [c] of the overlay carries the
    class [selected-column]. *)
Definition selectedAt (p : App.Page) (r c : nat) : Prop :=
  exists spans, App.overlay p !! r = Some spans /\ spans !! c = Some true.

(** The characters of a line whose spans are selected. *)
Fixpoint picked (line : text) (spans : list bool) : text :=
  match line, spans with
  | x :: line', b :: spans' => if b then x :: picked line' spans' else picked line' spans'
  | _, _ => []
  end.

(** Row [r] of the page as it is highlighted: the selected characters
    of line [r]. *)
Definition highlighted (p : App.Page) (r : nat) : text :=
  picked (default [] (split_char nl (App.value p) !! r)) (default [] (App.overlay p !! r)).

(** The overlay has one row per line, and in it one span per
    character, or a single span for an empty line. *)
Definition mirrors (overlay : list (list bool)) (value : text) : Prop :=
  length <$> overlay = (fun line : text => Nat.max 1 (length line)) <$> split_char nl value.

(** The flags of a row of [n] spans of which those of the columns
    [a] to [b] are selected. *)
Definition band (a b : Z) (n : nat) : list bool :=
  (fun c => bool_decide (a <= Z.of_nat c <= b)%Z) <$> seq 0 n.

(** The overlay of a text with nothing selected, and with the
    rectangle of the selection [s] selected. *)
Definition blank (value : text) : list (list bool) :=
  (fun line : text => replicate (Nat.max 1 (length line)) false) <$> split_char nl value.

Definition shown (s : SelectionState) (value : text) : list (list bool) :=
  imap (fun r (line : text) =>
          if bool_decide (minRow s <= Z.of_nat r <= maxRow s)%Z
          then band (minCol s) (maxCol s) (Nat.max 1 (length line))
          else replicate (Nat.max 1 (length line)) false)
    (split_char nl value).

(** No coordinate of the selection is negative. *)
Definition onGrid (s : SelectionState) : Prop :=
  (0 <= startX s)%Z /\ (0 <= startY s)%Z /\ (0 <= endX s)%Z /\ (0 <= endY s)%Z.

(** A page whose selection is on the grid and whose overlay mirrors
    its text; and one whose overlay shows nothing or the rectangle of
    its selection. *)
Definition tidy (p : App.Page) : Prop :=
  onGrid (App.selectionState p) /\ mirrors (App.overlay p) (App.value p).

Definition faithful (p : App.Page) : Prop :=
  onGrid (App.selectionState p) /\
  (App.overlay p = blank (App.value p) \/
   App.overlay p = shown (App.selectionState p) (App.value p)).

(** Two selections with the same corners. *)
Definition sameCorners (s s' : SelectionState) : Prop :=
  startX s' = startX s /\ startY s' = startY s /\ endX s' = endX s /\ endY s' = endY s.

(** The number of columns of the selection. *)
Definition colCount (s : SelectionState) : Z := (maxCol s - minCol s + 1)%Z.

(** Character width and line height are positive. *)
Definition measured (m : Metrics) : Prop := (0 < charWidth m)%Q /\ (0 < lineHeight m)%Q.

(** An event whose metrics are measured. *)
Definition measuredEvent (e : App.Event) : Prop :=
  match e with
  | App.mousedown m _ | App.mousemove m _ | App.mouseup m _ => measured m
  | _ => True
  end.

(** A measured event that, if it is a [mousedown], comes without the
    control and meta keys. *)
Definition plain (e : App.Event) : Prop :=
  measuredEvent e /\
  match e with
  | App.mousedown _ ev => ctrlKey ev = false /\ metaKey ev = false
  | _ => True
  end.

(** *** Matches *)

(** The number of line separators in a text. *)
Definition newlines (s : text) : nat :=
  length (List.filter (fun c => Ascii.eqb c nl) s).

(** The positions of [s] at which [p] occurs. *)
Definition occurrences (p s : text) : list nat :=
  List.filter (fun i => starts_with p (drop i s)) (seq 0 (length s)).

(** The lines of a text with their index and the offset of their
    first character. *)
Fixpoint numbered (lines : list text) (lineIndex globalIndex : nat)
  : list (nat * nat * text) :=
  match lines with
  | [] => []
  | line :: lines' =>
      (lineIndex, globalIndex, line)
        :: numbered lines' (lineIndex + 1) (globalIndex + length line + 1)
  end.

(** What a literal search of FindReplace.tsx is to record of the
    find text at position [i] of a line: nothing when the whole-word
    test rejects it, otherwise the [n] characters of the line at [i],
    with their offsets in the text. *)
Definition literalFound (o : FindReplaceTsx.FindReplaceOptions) (line : text)
  (lineIndex globalIndex n i : nat) : list FindReplaceTsx.Match :=
  if FindReplaceTsx.wholeWord o && FindReplaceTsx.touchesWord line i n then []
  else [FindReplaceTsx.mkFound line lineIndex globalIndex i n (take n (drop i line))].

(** What a literal search of FindReplace.tsx is to find: on every
    line inside the line range, every occurrence of the find text (in
    the lower-case line when the search ignores case), overlapping
    ones included, that the whole-word test lets through. *)
Definition literalMatches (o : FindReplaceTsx.FindReplaceOptions) (P T : text)
  : list FindReplaceTsx.Match :=
  '(lineIndex, globalIndex, line) ← numbered (split_char nl T) 0 0;
  if FindReplaceTsx.outsideRange o lineIndex then []
  else
    let fold := fun s : text => if FindReplaceTsx.caseSensitive o then s else toLowerCase s in
    i ← occurrences (fold P) (fold line);
    literalFound o line lineIndex globalIndex (length P) i.

(** A match recorded from [n] characters at position [idx] of one of
    the numbered lines. *)
Definition recordedFrom (lines : list (nat * nat * text)) (a : FindReplaceTsx.Match) : Prop :=
  exists lineIndex globalIndex line idx n,
    (lineIndex, globalIndex, line) ∈ lines /\ idx + n <= length line /\
    a = FindReplaceTsx.mkFound line lineIndex globalIndex idx n (take n (drop idx line)).

(** The span of a match in the preview of FindReplace.tsx: the
    replacement between the two tags. *)
Definition markedSpan (o : FindReplaceTsx.FindReplaceOptions) (R : text)
  (m : FindReplaceTsx.Match) : Span :=
  mkSpan (FindReplaceTsx.start m) (FindReplaceTsx.end_ m)
    (PanelTsx.markOpen
       ++ FindReplaceTsx.replaceWithCasePreservation o (FindReplaceTsx.text m) R
       ++ PanelTsx.markClose).

(** [sep] occurs nowhere in [s]. *)
Definition free_of (sep s : text) : Prop :=
  forall i, starts_with sep (drop i s) = false.

(** *** Closures *)

(** A closure of [throttle] between two calls, when its calls are
    not nested: no call is in progress, and a timer is pending
    exactly when [inThrottle] is set. *)
Definition idle (s : Utils.Throttled) : Prop :=
  Utils.frames s = [] /\
  (if Utils.inThrottle s then exists at_, Utils.timers s = [at_] else Utils.timers s = []).

(** The time before which an idle closure lets no call through. *)
Definition barrier (s : Utils.Throttled) : nat :=
  match Utils.timers s with at_ :: _ => at_ | [] => 0 end.

End Terms.

Import Terms.

(** ** Further sample inputs *)

Module Cases.

(** A drag from the first character of the first line to the first
    character of the second, and the click that ends it. *)
Definition dragDown : list App.Event :=
  [App.mousedown Sample.metrics Sample.atOrigin;
   App.mousemove Sample.metrics Sample.oneLineDown;
   App.mouseup Sample.metrics Sample.oneLineDown;
   App.click].

(** The panel of part 001 on the text "aXaXa", with "X" to be
    replaced by "Y", case-sensitive and literal. *)
Definition findX : Part001.State :=
  Part001.mkState (str "aXaXa") (str "X") (str "Y") Sample.literal001 [] (-1) [] []
    false ∅.

(** The save dialog with the name "xy" typed in. *)
Definition namedXY : Panel001.Patterns := Panel001.mkPatterns [] (str "xy") true.

(** The panel of part 001 with an unbalanced parenthesis sought as a
    regular expression. *)
Definition findParen : Part001.State :=
  Part001.mkState (str "a(b") (str "(") [] Sample.regex001 [] 0 [] [] false ∅.

(** The same in FindReplace.tsx. *)
Definition findParenTsx : FindReplaceTsx.State :=
  FindReplaceTsx.mkState (str "a(b") (str "(") [] Sample.regexTsx [] 0 [] []
    (FindReplaceTsx.mkStatistics 0 0 0).

(** FindReplace.tsx with the "X" of "aXa" found. *)
Definition foundXTsx : FindReplaceTsx.State :=
  FindReplaceTsx.mkState (str "aXa") (str "X") (str "Y") Sample.literalTsx
    [Sample.matchXTsx 1] 0 [] [] (FindReplaceTsx.mkStatistics 0 0 0).

(** FindReplace.tsx on the text "aXaXa", with the expression "X" to
    be replaced by "Y". *)
Definition findXTsx : FindReplaceTsx.State :=
  FindReplaceTsx.mkState (str "aXaXa") (str "X") (str "Y") Sample.regexTsx [] 0 [] []
    (FindReplaceTsx.mkStatistics 0 0 0).

(** Three calls in a burst, the callback of the last one, and a
    call later on. *)
Definition burst : list (Utils.Step nat) :=
  [Utils.call 0 1; Utils.call 10 2; Utils.call 20 3; Utils.due 125; Utils.call 130 4].

(** A call that goes through and comes back after 2 ms, a call that
    is dropped, the callback of the timer, and a call after it. *)
Definition spaced : list (Utils.Event nat) :=
  [Utils.enter 0 1; Utils.leave 2 true; Utils.enter 50 2; Utils.leave 50 true;
   Utils.fire 104; Utils.enter 130 3; Utils.leave 131 true].

(** [func] throws in the first call. *)
Definition thrown : list (Utils.Event nat) :=
  [Utils.enter 0 1; Utils.leave 0 false; Utils.enter 1 2; Utils.leave 1 true].

(** [func] calls the closure. *)
Definition nested : list (Utils.Event nat) :=
  [Utils.enter 0 1; Utils.enter 0 2; Utils.leave 0 true; Utils.leave 0 true].

End Cases.

(** * Proofs *)

(** ** Strings *)

Section Strings.

Lemma split_char_nonempty c s : split_char c s <> [].
Proof.
  destruct s as [|x s]; simpl; [done|].
  destruct (Ascii.eqb x c); [done|]. by destruct (split_char c s).
Qed.

Lemma split_char_length_pos c s : 0 < length (split_char c s).
Proof.
  pose proof (split_char_nonempty c s). destruct (split_char c s); [done|]. simpl. lia.
Qed.

(** No piece of a split contains the separator. *)
Lemma split_char_no_sep c s : Forall (fun l => c ∉ l) (split_char c s).
Proof.
  induction s as [|x s IH]; simpl.
  - constructor; [|constructor]. apply not_elem_of_nil.
  - destruct (Ascii.eqb_spec x c) as [->|Hne].
    + constructor; [apply not_elem_of_nil|done].
    + destruct (split_char c s) as [|l ls]; inversion IH; subst.
      * constructor; [|constructor]. rewrite list_elem_of_singleton. congruence.
      * constructor; [|done]. rewrite elem_of_cons. intros [->|]; done.
Qed.

Lemma split_char_app_no_sep c l s :
  c ∉ l -> split_char c (l ++ c :: s) = l :: split_char c s.
Proof.
  induction l as [|x l IH]; simpl; intros Hl.
  - by rewrite Ascii.eqb_refl.
  - rewrite not_elem_of_cons in Hl. destruct Hl as [Hx Hl].
    destruct (Ascii.eqb_spec x c) as [->|Hne]; [done|]. by rewrite IH.
Qed.

Lemma split_char_no_sep_id c l : c ∉ l -> split_char c l = [l].
Proof.
  induction l as [|x l IH]; simpl; intros Hl; [done|].
  rewrite not_elem_of_cons in Hl. destruct Hl as [Hx Hl].
  destruct (Ascii.eqb_spec x c) as [->|Hne]; [done|]. by rewrite IH.
Qed.

(** Splitting undoes joining when no piece contains the separator. *)
Lemma split_char_join c ls :
  ls <> [] -> Forall (fun l => c ∉ l) ls -> split_char c (join c ls) = ls.
Proof.
  induction ls as [|l ls IH]; [done|]. intros _ Hall.
  inversion Hall as [|? ? Hl Hls]; subst.
  destruct ls as [|l' ls].
  - simpl. by apply split_char_no_sep_id.
  - change (join c (l :: l' :: ls)) with (l ++ c :: join c (l' :: ls)).
    rewrite split_char_app_no_sep; [|done]. by rewrite IH.
Qed.

Lemma slice_elem_of {A} (l : list A) a b x : x ∈ slice l a b -> x ∈ l.
Proof.
  unfold slice. intros H.
  apply elem_of_take in H as (i & H & _).
  rewrite lookup_drop in H. by eapply list_elem_of_lookup_2.
Qed.

Lemma slice_0 {A} (s : list A) (n : nat) : slice s 0 (Z.of_nat n) = take n s.
Proof.
  unfold slice, rel_index. simpl.
  destruct (Z.ltb_spec (Z.of_nat n) 0) as [?|_]; [lia|].
  rewrite (Z.min_l 0), Z.sub_0_r by lia. simpl. rewrite drop_0.
  destruct (decide (n <= length s)).
  - by rewrite Z.min_l, Nat2Z.id by lia.
  - rewrite Z.min_r, Nat2Z.id by lia. by rewrite !take_ge by lia.
Qed.

Lemma slice_from_nat {A} (s : list A) (n : nat) : slice_from s (Z.of_nat n) = drop n s.
Proof.
  unfold slice_from, rel_index.
  destruct (Z.ltb_spec (Z.of_nat n) 0) as [?|_]; [lia|].
  destruct (decide (n <= length s)).
  - by rewrite Z.min_l, Nat2Z.id by lia.
  - rewrite Z.min_r, Nat2Z.id by lia. by rewrite !drop_ge by lia.
Qed.

Lemma substring_0 (s : text) (n : nat) : substring s 0 (Z.of_nat n) = take n s.
Proof.
  unfold substring, len. rewrite Z.max_id, (Z.min_l 0) by lia.
  rewrite (Z.max_l (Z.of_nat n)) by lia.
  rewrite (Z.max_r 0), (Z.min_l 0) by lia. simpl. rewrite drop_0.
  destruct (decide (n <= length s)).
  - by rewrite Z.min_l, Z.sub_0_r, Nat2Z.id by lia.
  - rewrite Z.min_r, Z.sub_0_r, Nat2Z.id by lia.
    by rewrite !take_ge by lia.
Qed.

Lemma substring_from_nat (s : text) (n : nat) : substring_from s (Z.of_nat n) = drop n s.
Proof.
  unfold substring_from, len. rewrite Z.max_l by lia.
  destruct (decide (n <= length s)).
  - by rewrite Z.min_l, Nat2Z.id by lia.
  - rewrite Z.min_r, Nat2Z.id by lia. by rewrite !drop_ge by lia.
Qed.

Lemma text_eqb_true a b : text_eqb a b = true <-> a = b.
Proof. unfold text_eqb. by rewrite bool_decide_eq_true. Qed.

Lemma text_eqb_false a b : text_eqb a b = false <-> a <> b.
Proof. unfold text_eqb. by rewrite bool_decide_eq_false. Qed.

(** A check of [ascii_text] by computation. *)
Lemma ascii_text_check s : forallb (fun c => code c <? 128) s = true -> ascii_text s.
Proof.
  induction s as [|c s IH]; [constructor|]. simpl.
  intros [Hc Hs]%andb_true_iff. constructor; [by apply Nat.ltb_lt|by apply IH].
Qed.

End Strings.

(** ** Column extraction *)

Section ColumnExtraction.
Import ColumnSelector.

Lemma selectedLine_ok lines minCol maxCol r :
  (0 <= r)%Z -> (0 <= minCol)%Z ->
  exists e, selectedLine lines minCol maxCol r = Some e /\
            entryOk lines minCol maxCol r e /\
            (Forall (fun l => nl ∉ l) lines -> nl ∉ e).
Proof.
  intros Hr Hc. unfold selectedLine.
  destruct (Z.geb_spec r (Z.of_nat (length lines))) as [Hge|Hlt].
  - exists []. split; [done|]. split; [|intros _; apply not_elem_of_nil].
    split; [done|]. intros line _ Hl.
    apply lookup_lt_Some in Hl. lia.
  - destruct (Z.ltb_spec r 0) as [?|_]; [lia|].
    destruct (lines !! Z.to_nat r) as [line|] eqn:Hl.
    2:{ apply lookup_ge_None in Hl. lia. }
    set (a := Z.min minCol (len line)). set (b := Z.min (maxCol + 1) (len line)).
    destruct (Z.gtb_spec b a) as [Hgt|Hle].
    + exists (slice line a b). split; [done|]. split.
      * split; [lia|]. intros line' _ Hl'.
        assert (line' = line) as -> by congruence. fold a b.
        split; [lia|]. intros _. unfold slice, rel_index.
        fold (len line).
        destruct (Z.ltb_spec a 0) as [?|_]; [unfold a, len in *; lia|].
        destruct (Z.ltb_spec b 0) as [?|_]; [unfold a, b, len in *; lia|].
        rewrite (Z.min_l a) by (unfold a; lia).
        rewrite (Z.min_l b) by (unfold b; lia). done.
      * intros Hall Hin. apply slice_elem_of in Hin.
        rewrite Forall_forall in Hall.
        eapply Hall; [|done]. by eapply list_elem_of_lookup_2.
    + exists []. split; [done|]. split; [|intros _; apply not_elem_of_nil].
      split; [done|]. intros line' _ Hl'.
      assert (line' = line) as -> by congruence. fold a b. split; [done|lia].
Qed.

Lemma rows_lookup a b k :
  k < Z.to_nat (b - a + 1) -> rows a b !! k = Some (a + Z.of_nat k)%Z.
Proof.
  intros Hk. unfold rows. rewrite list_lookup_fmap, lookup_seq_lt by done. done.
Qed.

Lemma mapM_selectedLine lines minCol maxCol rs :
  (0 <= minCol)%Z -> Forall (fun r => (0 <= r)%Z) rs ->
  exists es, mapM (selectedLine lines minCol maxCol) rs = Some es /\
    Forall2 (fun r e => entryOk lines minCol maxCol r e /\
                        (Forall (fun l => nl ∉ l) lines -> nl ∉ e)) rs es.
Proof.
  intros Hc Hall. induction Hall as [|r rs Hr _ (es & Hes & HF)].
  - exists []. split; [done|constructor].
  - destruct (selectedLine_ok lines minCol maxCol r Hr Hc) as (e & He & Hok & Hnl).
    exists (e :: es). split.
    + apply mapM_Some. constructor; [done|]. by apply mapM_Some.
    + by constructor.
Qed.

(** C4.  For a selection whose bounds are non-negative,
    [getSelectedText] returns a string which, split on newline, has
    exactly [maxRow - minRow + 1] entries, and entry [k] is the one the
    design assigns to row [minRow + k]: empty at or past the end of the
    text and when the clipped column range is empty, otherwise line
    [minRow + k] from [min(minCol, length)] to
    [min(maxCol + 1, length)].  The function is the same in js/app.js
    and in the React component. *)
Theorem getSelectedText_rows (T : text) (sel : SelectionState) :
  let minRow := Z.min (startY sel) (endY sel) in
  let maxRow := Z.max (startY sel) (endY sel) in
  let minCol := Z.min (startX sel) (endX sel) in
  let maxCol := Z.max (startX sel) (endX sel) in
  (0 <= minRow)%Z -> (0 <= minCol)%Z ->
  exists out,
    AppJs.getSelectedText T sel = Some out /\
    Part000.getSelectedText T sel = Some out /\
    length (split_char nl out) = Z.to_nat (maxRow - minRow + 1) /\
    forall k : nat, k < Z.to_nat (maxRow - minRow + 1) ->
      exists e, split_char nl out !! k = Some e /\
                entryOk (split_char nl T) minCol maxCol (minRow + Z.of_nat k) e.
Proof.
  intros minRow maxRow minCol maxCol Hr Hc.
  unfold AppJs.getSelectedText, Part000.getSelectedText, getSelectedText.
  fold minRow maxRow minCol maxCol.
  set (lines := split_char nl T).
  assert (Hall : Forall (fun r => (0 <= r)%Z) (rows minRow maxRow)).
  { apply Forall_forall. intros r Hin. unfold rows in Hin.
    apply list_elem_of_fmap in Hin as (k & -> & _). lia. }
  destruct (mapM_selectedLine lines minCol maxCol _ Hc Hall) as (es & Hes & HF).
  rewrite Hes. simpl. exists (join nl es). split; [done|]. split; [done|].
  assert (Hlen : length es = Z.to_nat (maxRow - minRow + 1)).
  { rewrite <- (Forall2_length _ _ _ HF). unfold rows.
    by rewrite length_map, length_seq. }
  assert (Hsplit : split_char nl (join nl es) = es).
  { apply split_char_join.
    - intros ->. simpl in Hlen. unfold minRow, maxRow in Hlen. lia.
    - eapply Forall2_Forall_r; [exact HF|]. apply Forall_forall.
      intros r _ e [_ Hnl]. apply Hnl, split_char_no_sep. }
  rewrite Hsplit. split; [done|]. intros k Hk.
  pose proof (rows_lookup minRow maxRow k Hk) as Hrow.
  destruct (Forall2_lookup_l _ _ _ _ _ HF Hrow) as (e & He & Hok & _).
  by exists e.
Qed.

(** Rows 0 to 3 of a text of two lines give four entries. *)
Lemma getSelectedText_rows_witness :
  exists out, AppJs.getSelectedText Sample.twoLines Sample.drag = Some out /\
              length (split_char nl out) = 4.
Proof.
  destruct (getSelectedText_rows Sample.twoLines Sample.drag) as (out & H1 & _ & H2 & _).
  - simpl. lia.
  - simpl. lia.
  - exists out. split; [exact H1|exact H2].
Defined.

(** Column extraction past the end of the text: the last two of the
    four entries are empty. *)
Example getSelectedText_past_end :
  AppJs.getSelectedText Sample.twoLines Sample.drag
  = Some (str "bc" ++ nl :: str "fg" ++ [nl; nl]).
Proof. reflexivity. Qed.

End ColumnExtraction.

(** ** Grid mapping *)

(** *** Rounding never gives NaN *)

Section Rounding.

Lemma iter_pos_invariant {A} (P : A -> Prop) (f : A -> A) :
  (forall x, P x -> P (f x)) -> forall n x, P x -> P (SpecFloat.iter_pos f n x).
Proof.
  intros Hf. induction n as [n IH|n IH|]; intros x Hx; simpl; auto.
Qed.

Lemma shr_1_nonneg mrs : (0 <= shr_m mrs)%Z -> (0 <= shr_m (shr_1 mrs))%Z.
Proof.
  destruct mrs as [m r s]. simpl. intros H.
  destruct m as [|[p|p|]|p]; simpl; lia.
Qed.

Lemma shr_nonneg mrs e n : (0 <= shr_m mrs)%Z -> (0 <= shr_m (shr mrs e n).1)%Z.
Proof.
  intros H. unfold shr. destruct n as [|p|p]; simpl; [done| |done].
  by apply (iter_pos_invariant (fun x => 0 <= shr_m x)%Z); [apply shr_1_nonneg|].
Qed.

Lemma shr_fexp_nonneg m e l :
  (0 <= m)%Z -> (0 <= shr_m (shr_fexp Number.prec Number.emax m e l).1)%Z.
Proof.
  intros H. unfold shr_fexp. apply shr_nonneg. by destruct l as [|[]].
Qed.

Lemma round_nearest_even_nonneg m l : (0 <= m)%Z -> (0 <= round_nearest_even m l)%Z.
Proof.
  intros H. destruct l as [|[]]; simpl; [done| |done|lia].
  destruct (Z.even m); lia.
Qed.

(** The rounding of a non-negative mantissa is a zero, a finite
    number or an infinity. *)
Lemma binary_round_aux_number s m e l :
  (0 <= m)%Z -> binary_round_aux Number.prec Number.emax s m e l <> S754_nan.
Proof.
  intros H. unfold binary_round_aux.
  pose proof (shr_fexp_nonneg m e l H) as H1.
  destruct (shr_fexp Number.prec Number.emax m e l) as [mrs1 e1]. simpl in H1.
  pose proof (shr_fexp_nonneg _ e1 loc_Exact
                (round_nearest_even_nonneg _ (loc_of_shr_record mrs1) H1)) as H2.
  destruct (shr_fexp Number.prec Number.emax _ e1 loc_Exact) as [mrs2 e2]. simpl in H2.
  destruct (shr_m mrs2) as [|p|p]; [done| |lia].
  by destruct (_ <=? _)%Z.
Qed.

Lemma binary_normalize_number m e s :
  binary_normalize Number.prec Number.emax m e s <> S754_nan.
Proof.
  unfold binary_normalize, binary_round.
  destruct m as [|p|p]; [done|..];
    destruct (shl_align _ _ _) as [mz ez]; by apply binary_round_aux_number.
Qed.

Lemma finite_number x : Number.finite x -> x <> S754_nan.
Proof. by destruct x. Qed.

(** A finite number added to or taken off a number, and a number
    divided by a number above zero, is a number. *)
Lemma sub_number a b : a <> S754_nan -> Number.finite b -> Number.sub a b <> S754_nan.
Proof.
  intros Ha Hb. unfold Number.sub, SFsub.
  destruct a as [sa|sa| |sa ma ea], b as [sb| | |sb mb eb]; try done.
  - by destruct sa, sb.
  - apply binary_normalize_number.
Qed.

Lemma add_number a b : a <> S754_nan -> Number.finite b -> Number.add a b <> S754_nan.
Proof.
  intros Ha Hb. unfold Number.add, SFadd.
  destruct a as [sa|sa| |sa ma ea], b as [sb| | |sb mb eb]; try done.
  - by destruct sa, sb.
  - apply binary_normalize_number.
Qed.

Lemma div_number a w : a <> S754_nan -> Number.above_zero w -> Number.div a w <> S754_nan.
Proof.
  intros Ha Hw. unfold Number.div, SFdiv.
  destruct w as [| | |[] mw ew]; try done.
  destruct a as [sa|sa| |sa ma ea]; try done.
  unfold SFdiv_core_binary.
  set (m' := match _ with Zpos _ => _ | Z0 => _ | Zneg _ => _ end).
  assert (Hm : (0 <= m')%Z).
  { unfold m'. destruct (_ - _ - _)%Z; [lia| |lia]. by apply Z.shiftl_nonneg. }
  pose proof (Z.div_pos m' (Zpos mw) Hm ltac:(lia)) as Hq. unfold Z.div in Hq.
  destruct (Z.div_eucl m' (Zpos mw)) as [q r].
  by apply binary_round_aux_number.
Qed.

Lemma floor_number x : x <> S754_nan -> Number.floor x <> Number.NaN.
Proof. destruct x as [| | |]; try done. by destruct s. Qed.

(** [Math.max(0, v)] is NaN, plus infinity or a non-negative
    integer. *)
Lemma max0_cases v :
  Number.max0 v = Number.NaN \/ Number.max0 v = Number.PlusInfinity \/
  natural (Number.max0 v).
Proof.
  destruct v as [z| | |]; simpl; [|tauto| |tauto]; right; right.
  - exists (Z.to_nat (Z.max 0 z)). f_equal. lia.
  - by exists 0.
Qed.

Lemma max0_number v : Number.max0 v = Number.NaN -> v = Number.NaN.
Proof. by destruct v. Qed.

(** With finite measures and a cell size above zero the row and the
    column are non-negative integers or plus infinity. *)
Lemma grid_number (a b c d w : Number.number) :
  Number.finite a -> Number.finite b -> Number.finite c -> Number.finite d ->
  Number.above_zero w ->
  let v := Number.max0
             (Number.floor (Number.div (Number.add (Number.sub (Number.sub a b) c) d) w)) in
  v = Number.PlusInfinity \/ natural v.
Proof.
  intros Ha Hb Hc Hd Hw v.
  destruct (max0_cases (Number.floor
              (Number.div (Number.add (Number.sub (Number.sub a b) c) d) w)))
    as [Hnan|H]; [|exact H].
  exfalso. apply max0_number in Hnan. revert Hnan.
  apply floor_number, div_number; [|done].
  apply add_number; [|done]. apply sub_number; [|done]. apply sub_number; [|done].
  by apply finite_number.
Qed.

End Rounding.

(** *** The position of a pointer *)

Section GridMapping.

(** C9, amended.  [getPositionFromEvent] and [getPosition] compute
    the column and the row of the design in double precision, each
    clamped at 0, and return [null] exactly when the row is at or
    beyond the number of lines of the text, in which an empty text
    counts for one (empty) line; [getPosition] also returns [null]
    while the text area is not mounted.  With finite measures and a
    character width and a line height above zero, a position they
    return has a row that indexes a line and a column that is a
    non-negative integer or plus infinity. *)
Theorem grid_mapping (m : Pointer.Metrics) (T : text) (ev : Pointer.MouseEvent) :
  let n := length (split_char nl T) in
  let r := gridRow m ev in
  let c := gridCol m ev in
  (AppJs.getPositionFromEvent m T ev = None <-> atOrBeyond r n) /\
  (forall p, AppJs.getPositionFromEvent m T ev = Some p ->
     Pointer.row p = r /\ Pointer.col p = c) /\
  Part000.getPosition (Some m) T ev = AppJs.getPositionFromEvent m T ev /\
  Part000.getPosition None T ev = None /\
  (finitePointer m ev ->
   forall p, AppJs.getPositionFromEvent m T ev = Some p ->
     indexes (Pointer.row p) n /\
     (natural (Pointer.col p) \/ Pointer.col p = Number.PlusInfinity)).
Proof.
  intros n r c.
  assert (Hn : 0 < n) by (unfold n; pose proof (split_char_length_pos nl T); lia).
  assert (Hlt : (0 <? n) = true) by (by apply Nat.ltb_lt).
  assert (Hget : AppJs.getPositionFromEvent m T ev
                 = if Number.geb r n then None else Some (Pointer.mkPosition r c)).
  { unfold AppJs.getPositionFromEvent, Pointer.gridPosition.
    fold (gridRow m ev) (gridCol m ev). fold n r c. by rewrite Hlt, andb_true_r. }
  assert (Hgeb : Number.geb r n = true <-> atOrBeyond r n).
  { destruct (max0_cases (Number.floor
                (Number.div
                   (Number.add
                      (Number.sub (Number.sub (Pointer.clientY ev) (Pointer.rectTop m))
                         (Pointer.paddingTop m))
                      (Pointer.scrollTop m))
                   (Pointer.lineHeight m)))) as [Hr|[Hr|(k & Hr)]];
      fold (gridRow m ev) in Hr; fold r in Hr; rewrite Hr; simpl.
    - split; [done|]. by intros [|(k & ? & _)].
    - split; [by left|done].
    - rewrite Z.leb_le. split.
      + intros Hle. right. exists k. split; [done|lia].
      + intros [|(k' & [= Hk] & Hle)]; [done|lia]. }
  split; [|split; [|split; [|split]]].
  - rewrite Hget, <- Hgeb. by destruct (Number.geb r n).
  - intros p. rewrite Hget. destruct (Number.geb r n); [done|]. by intros [= <-].
  - done.
  - done.
  - intros (Hw & Hh & Hl & Ht & Hpl & Hpt & Hsl & Hst & Hx & Hy) p.
    rewrite Hget. destruct (Number.geb r n) eqn:Eg; [done|]. intros [= <-]. simpl.
    assert (Hr : r = Number.PlusInfinity \/ natural r) by (by apply grid_number).
    assert (Hc : c = Number.PlusInfinity \/ natural c) by (by apply grid_number).
    split; [|tauto].
    destruct Hr as [Hr|(k & Hr)]; rewrite Hr in Eg |- *; simpl in Eg; [done|].
    apply Z.leb_gt in Eg. exists k. split; [done|lia].
Qed.

End GridMapping.

(** A pointer one line height below the content origin, over a text
    of two lines: row 1 of 2, column 0. *)
Lemma grid_mapping_witness :
  indexes (Number.Int 1) 2 /\
  (natural (Number.Int 0) \/ Number.Int 0 = Number.PlusInfinity).
Proof.
  refine (proj2 (proj2 (proj2 (proj2
            (grid_mapping Sample.pointerMetrics Sample.twoLines Sample.pointerOneLineDown))))
            _ (Pointer.mkPosition (Number.Int 1) (Number.Int 0)) eq_refl).
  repeat split.
Defined.

(** C9 as it is stated fails twice.  Below the one line of an empty
    text there is no position, although the buffer is empty.  And the
    column is the floor of a quotient of numbers: with the text area
    at 13.6, a padding of 16 and characters 8.4 wide, the pointer at
    38 is in column 1 in exact arithmetic, the quotient being 1, and
    in column 0 for the code, whose subtractions give a number just
    below 8.4. *)
Lemma grid_mapping_counterexample :
  AppJs.getPositionFromEvent Sample.pointerMetrics [] Sample.pointerOneLineDown = None /\
  AppJs.getPositionFromEvent Sample.narrowMetrics Sample.twoLines Sample.pointerOnBoundary
  = Some (Pointer.mkPosition (Number.Int 0) (Number.Int 0)) /\
  exactCol Sample.narrowMetrics Sample.pointerOnBoundary = 1%Z.
Proof.
  repeat split; vm_compute; reflexivity.
Qed.

(** The pointer at the content origin maps to row 0, column 0; one
    full line height below, to row 1. *)
Example grid_origin :
  AppJs.getPositionFromEvent Sample.pointerMetrics Sample.twoLines Sample.pointerAtOrigin
    = Some (Pointer.mkPosition (Number.Int 0) (Number.Int 0)) /\
  Part000.getPosition (Some Sample.pointerMetrics) Sample.twoLines Sample.pointerOneLineDown
    = Some (Pointer.mkPosition (Number.Int 1) (Number.Int 0)).
Proof. split; reflexivity. Qed.

(** An empty text has one line, the empty one. *)
Example grid_empty_text :
  length (split_char nl []) = 1 /\
  AppJs.getPositionFromEvent Sample.pointerMetrics [] Sample.pointerAtOrigin
    = Some (Pointer.mkPosition (Number.Int 0) (Number.Int 0)).
Proof. split; reflexivity. Qed.

(** Below the last line there is no position. *)
Example grid_below_text :
  AppJs.getPositionFromEvent Sample.pointerMetrics Sample.twoLines
    (Pointer.mkMouseEvent (Number.of_Z 18) (Number.of_Z 60)) = None.
Proof. reflexivity. Qed.

(** A character width of zero: the quotient is plus infinity or NaN,
    and so is the column. *)
Example grid_zero_width :
  Pointer.col <$>
    AppJs.getPositionFromEvent
      (Pointer.mkMetrics (Number.of_Z 0) (Number.of_Z 16) (Number.of_Z 0) (Number.of_Z 0)
         (Number.of_Z 0) (Number.of_Z 0) (Number.of_Z 0) (Number.of_Z 0))
      Sample.twoLines (Pointer.mkMouseEvent (Number.of_Z 5) (Number.of_Z 0))
  = Some Number.PlusInfinity /\
  Pointer.col <$>
    AppJs.getPositionFromEvent
      (Pointer.mkMetrics (Number.of_Z 0) (Number.of_Z 16) (Number.of_Z 0) (Number.of_Z 0)
         (Number.of_Z 0) (Number.of_Z 0) (Number.of_Z 0) (Number.of_Z 0))
      Sample.twoLines (Pointer.mkMouseEvent (Number.of_Z 0) (Number.of_Z 0))
  = Some Number.NaN.
Proof. split; reflexivity. Qed.

(** ** Replacing matches *)

Section Splicing.

Lemma ascending_weaken p q sps : q <= p -> ascending p sps -> ascending q sps.
Proof.
  destruct sps; simpl; [done|]. intros ? (? & ? & ? & ?). repeat split; [lia|done..].
Qed.

Lemma ascending_starts p sps :
  ascending p sps -> Forall (fun sp => p <= s_start sp) sps.
Proof.
  revert p. induction sps as [|sp sps IH]; intros p; simpl; [constructor|].
  intros (Hp & Hle & _ & Hrest). constructor; [done|].
  eapply Forall_impl; [apply (IH _ Hrest)|]. simpl. intros; lia.
Qed.

Lemma ascending_strict p sp sps :
  ascending p (sp :: sps) -> Forall (fun sp' => s_start sp < s_start sp') sps.
Proof.
  simpl. intros (_ & _ & Hnext & Hrest).
  destruct sps as [|sp' sps]; [constructor|].
  constructor; [done|].
  simpl in Hrest. destruct Hrest as (_ & Hle' & Hn' & Hrest').
  pose proof (ascending_starts _ _ Hrest') as H.
  eapply Forall_impl; [exact H|]. simpl. intros; lia.
Qed.

Lemma ascending_app_inv p l1 sp l2 :
  ascending p (l1 ++ sp :: l2) -> ascending (s_stop sp) l2.
Proof.
  revert p. induction l1 as [|x l1 IH]; intros p.
  - simpl. tauto.
  - change ((x :: l1) ++ sp :: l2) with (x :: (l1 ++ sp :: l2)).
    simpl. intros (_ & _ & _ & H). by eapply IH.
Qed.

(** Splicing the spans from the last to the first gives the text read
    from left to right with every span replaced. *)
Lemma foldl_splice_reverse T p sps :
  ascending p sps -> within T sps ->
  foldl splice T (reverse sps) = take p T ++ spliceAll T p sps.
Proof.
  revert p. induction sps as [|sp sps IH]; intros p Hasc Hin.
  - simpl. by rewrite take_drop.
  - destruct Hasc as (Hp & Hle & _ & Hrest).
    inversion Hin as [|? ? Hstop Hin']; subst.
    rewrite reverse_cons, foldl_app. simpl.
    rewrite (IH _ Hrest Hin'). unfold splice at 1.
    assert (Hlen : length (take (s_stop sp) T) = s_stop sp) by (rewrite length_take; lia).
    rewrite take_app_le by lia.
    rewrite take_take, Nat.min_l by lia.
    rewrite drop_app_length' by done.
    rewrite (app_assoc (take p T)). f_equal.
    rewrite <- (take_drop p (take (s_start sp) T)) at 1.
    rewrite take_take, Nat.min_l by lia. f_equal.
    by rewrite take_drop_commute, Nat.add_comm, Nat.sub_add by lia.
Qed.

(** When a span's turn comes, the text before its end is still that
    of [T]: its offsets index the span they were recorded for. *)
Lemma foldl_splice_prefix T p sps :
  ascending p sps -> within T sps ->
  take p (foldl splice T (reverse sps)) = take p T.
Proof.
  intros Hasc Hin. rewrite (foldl_splice_reverse _ _ _ Hasc Hin).
  destruct (decide (p <= length T)).
  - rewrite take_app_le by (rewrite length_take; lia).
    by rewrite take_take, Nat.min_id.
  - rewrite (take_ge T p) by lia. rewrite take_app_ge by lia.
    destruct sps as [|sp sps].
    + simpl. rewrite drop_ge by lia. by rewrite take_nil, app_nil_r.
    + exfalso. destruct Hasc as (? & ? & _). inversion Hin; subst. lia.
Qed.

(** Replacements of the length of their span keep the length of the
    text. *)
Lemma spliceAll_same_length T p sps :
  ascending p sps -> within T sps -> p <= length T ->
  Forall (fun sp => length (s_new sp) = s_stop sp - s_start sp) sps ->
  length (spliceAll T p sps) = length T - p.
Proof.
  revert p. induction sps as [|sp sps IH]; intros p Hasc Hin Hp Hsame; simpl.
  - by rewrite length_drop.
  - destruct Hasc as (Hps & Hle & _ & Hrest).
    inversion Hin as [|? ? Hstop Hin']; subst.
    inversion Hsame as [|? ? Hnew Hsame']; subst.
    rewrite !length_app, length_take, length_drop, Hnew, (IH _ Hrest Hin') by done.
    lia.
Qed.

End Splicing.

Section Sorting.
Context {A : Type} (key : A -> nat).

Local Abbreviation by_key_desc := (descending key).

Lemma sort_insert_perm x l : sort_insert by_key_desc x l ≡ₚ x :: l.
Proof.
  induction l as [|y l IH]; simpl; [done|].
  destruct (_ <=? _)%Z; [done|]. rewrite IH. apply Permutation_swap.
Qed.

Lemma sort_perm l : sort by_key_desc l ≡ₚ l.
Proof.
  induction l as [|x l IH]; simpl; [done|]. by rewrite sort_insert_perm, IH.
Qed.

Lemma sort_insert_sorted x l :
  StronglySorted (fun a b => key b <= key a) l ->
  StronglySorted (fun a b => key b <= key a) (sort_insert by_key_desc x l).
Proof.
  induction 1 as [|y l Hl IH Hy]; simpl; [repeat constructor|].
  destruct (Z.leb_spec (by_key_desc x y) 0) as [H|H]; unfold descending in H.
  - constructor; [by constructor|]. constructor; [lia|].
    eapply Forall_impl; [exact Hy|]. simpl. intros; lia.
  - constructor; [done|].
    rewrite sort_insert_perm. constructor; [lia|done].
Qed.

Lemma sort_sorted l : StronglySorted (fun a b => key b <= key a) (sort by_key_desc l).
Proof. induction l; simpl; [constructor|by apply sort_insert_sorted]. Qed.

Lemma strictly_sorted_inj l x y :
  StronglySorted (fun a b => key a < key b) l ->
  x ∈ l -> y ∈ l -> key x = key y -> x = y.
Proof.
  induction 1 as [|z l _ IH Hz]; [by intros ?%elem_of_nil|].
  rewrite Forall_forall in Hz. rewrite !elem_of_cons.
  intros [->|Hx] [->|Hy] Hk; [done| | |by apply IH].
  - specialize (Hz _ Hy). lia.
  - specialize (Hz _ Hx). lia.
Qed.

Lemma reverse_sorted l :
  StronglySorted (fun a b => key a < key b) l ->
  StronglySorted (fun a b => key b <= key a) (reverse l).
Proof.
  induction 1 as [|z l _ IH Hz]; [constructor|].
  rewrite reverse_cons. apply StronglySorted_app_2; [|done|repeat constructor].
  intros x1 x2 H1 H2. apply list_elem_of_singleton in H2 as ->.
  rewrite elem_of_reverse in H1. rewrite Forall_forall in Hz. specialize (Hz _ H1). lia.
Qed.

(** Sorting by descending key gives the one descending arrangement
    of a list whose keys are all different. *)
Lemma sort_descending l l' :
  l ≡ₚ l' -> StronglySorted (fun a b => key a < key b) l' ->
  sort by_key_desc l = reverse l'.
Proof.
  intros Hp Hs.
  apply (StronglySorted_unique_strong (fun a b => key b <= key a)).
  - intros x1 x2 H1 H2 ? ?. apply (strictly_sorted_inj l'); [done| | |lia].
    + by rewrite <- Hp, <- sort_perm.
    + by rewrite elem_of_reverse in H2.
  - apply sort_sorted.
  - by apply reverse_sorted.
  - by rewrite sort_perm, reverse_Permutation.
Qed.

End Sorting.

Section Replace.

Lemma ascending_sorted {A} (span : A -> Span) p (l : list A) :
  ascending p (span <$> l) ->
  StronglySorted (fun a b => s_start (span a) < s_start (span b)) l.
Proof.
  revert p. induction l as [|x l IH]; intros p H; [constructor|].
  constructor.
  - simpl in H. destruct H as (_ & _ & _ & H). by eapply IH.
  - change (span <$> (x :: l)) with (span x :: (span <$> l)) in H.
    apply ascending_strict in H. by rewrite Forall_fmap in H.
Qed.

Lemma replaceStep001_splice o R X m :
  Part001.replaceStep o R X m = splice X (span001 o R m).
Proof.
  unfold Part001.replaceStep, splice. simpl.
  by rewrite substring_0, substring_from_nat.
Qed.

Lemma replaceStepTsx_splice o R X m :
  FindReplaceTsx.replaceStep o R X m = splice X (spanTsx o R m).
Proof.
  unfold FindReplaceTsx.replaceStep, splice. simpl.
  by rewrite slice_0, slice_from_nat.
Qed.

Lemma foldl_ext_map {A} (f : text -> A -> text) (g : A -> Span) T l :
  (forall X a, f X a = splice X (g a)) ->
  foldl f T l = foldl splice T (g <$> l).
Proof.
  intros H. revert T. induction l as [|a l IH]; intros T; simpl; [done|].
  by rewrite H, IH.
Qed.

Lemma sorted001 o R p ms ms' :
  ms ≡ₚ ms' -> ascending p (span001 o R <$> ms') ->
  sort (fun a b => (Z.of_nat (Part001.index b) - Z.of_nat (Part001.index a))%Z) ms
  = reverse ms'.
Proof.
  intros Hp H. apply (sort_descending Part001.index); [done|].
  exact (ascending_sorted (span001 o R) p ms' H).
Qed.

Lemma sortedTsx o R p ms ms' :
  ms ≡ₚ ms' -> ascending p (spanTsx o R <$> ms') ->
  sort (fun a b => (Z.of_nat (FindReplaceTsx.start b) - Z.of_nat (FindReplaceTsx.start a))%Z) ms
  = reverse ms'.
Proof.
  intros Hp H. apply (sort_descending FindReplaceTsx.start); [done|].
  exact (ascending_sorted (spanTsx o R) p ms' H).
Qed.

Lemma replacedText001_all o R T ms ms' :
  Part001.replaceFirst o = false -> ms ≡ₚ ms' ->
  ascending 0 (span001 o R <$> ms') -> within T (span001 o R <$> ms') ->
  Part001.replacedText o R T ms = spliceAll T 0 (span001 o R <$> ms').
Proof.
  intros Hf Hp Hasc Hin. unfold Part001.replacedText. rewrite Hf.
  rewrite (sorted001 o R 0 ms ms' Hp Hasc).
  rewrite (foldl_ext_map _ (span001 o R)) by apply replaceStep001_splice.
  rewrite fmap_reverse.
  by rewrite (foldl_splice_reverse T 0 _ Hasc Hin).
Qed.

Lemma replacedTextTsx_all o R T ms ms' :
  ms ≡ₚ ms' ->
  ascending 0 (spanTsx o R <$> ms') -> within T (spanTsx o R <$> ms') ->
  FindReplaceTsx.replacedText o R T ms = spliceAll T 0 (spanTsx o R <$> ms').
Proof.
  intros Hp Hasc Hin. unfold FindReplaceTsx.replacedText.
  rewrite (sortedTsx o R 0 ms ms' Hp Hasc).
  rewrite (foldl_ext_map _ (spanTsx o R)) by apply replaceStepTsx_splice.
  rewrite fmap_reverse.
  by rewrite (foldl_splice_reverse T 0 _ Hasc Hin).
Qed.

Lemma replacedText001_single o R T m :
  Part001.replacedText o R T [m] = splice T (span001 o R m).
Proof.
  unfold Part001.replacedText. destruct (Part001.replaceFirst o); simpl;
    apply replaceStep001_splice.
Qed.

Lemma replacedTextTsx_single o R T m :
  FindReplaceTsx.replacedText o R T [m] = splice T (spanTsx o R m).
Proof. unfold FindReplaceTsx.replacedText. simpl. apply replaceStepTsx_splice. Qed.

(** With "replace first only" the first match alone is replaced. *)
Lemma replacedText001_first o R T m ms :
  Part001.replaceFirst o = true ->
  Part001.replacedText o R T (m :: ms) = splice T (span001 o R m).
Proof.
  intros Hf. unfold Part001.replacedText. rewrite Hf. apply replaceStep001_splice.
Qed.

(** The text [performReplace] hands to [onTextChange]. *)
Lemma performReplace001_text now st :
  Part001.findText st <> [] -> Part001.matchesToReplace st <> [] ->
  Part001.st_text (Part001.performReplace now st) =
    Part001.replacedText (Part001.st_options st) (Part001.replaceText st)
      (Part001.st_text st) (Part001.matchesToReplace st).
Proof.
  intros Hf Hm. unfold Part001.performReplace.
  assert (Part001.matches st <> []).
  { intros E. apply Hm. unfold Part001.matchesToReplace. rewrite E.
    by destruct (Part001.isInteractiveMode st). }
  rewrite !bool_decide_eq_false_2 by done. done.
Qed.

Lemma performReplaceTsx_all_text now st st' :
  FindReplaceTsx.matches st <> [] ->
  FindReplaceTsx.performReplace now true st = Some st' ->
  FindReplaceTsx.st_text st' =
    FindReplaceTsx.replacedText (FindReplaceTsx.st_options st) (FindReplaceTsx.replaceText st)
      (FindReplaceTsx.st_text st) (FindReplaceTsx.matches st).
Proof.
  intros Hm. unfold FindReplaceTsx.performReplace.
  rewrite bool_decide_eq_false_2 by done. simpl. by intros [= <-].
Qed.

(** C1.  Let [ms] be the working set, in any order, and [ms'] the
    same matches in scan order, free of overlap and inside [T].  Both
    implementations (part 001 when not in "replace first only" mode,
    FindReplace.tsx always) apply the matches in descending start
    order; when a match's turn comes the text up to the end of the
    match is still that of [T], so its offsets index its span; and the
    result is [T] with every span replaced.  For a single match the
    result is [T[0:start] ++ R' ++ T[end:]], whatever the options. *)
Theorem replace_descending_order :
  (forall o R T ms ms',
     Part001.replaceFirst o = false -> ms ≡ₚ ms' ->
     ascending 0 (span001 o R <$> ms') -> within T (span001 o R <$> ms') ->
     sort (fun a b => (Z.of_nat (Part001.index b) - Z.of_nat (Part001.index a))%Z) ms
       = reverse ms' /\
     (forall pre m post, ms' = pre ++ m :: post ->
        let X := foldl (Part001.replaceStep o R) T (reverse post) in
        let e := Part001.index m + Part001.length m in
        take e X = take e T) /\
     Part001.replacedText o R T ms = spliceAll T 0 (span001 o R <$> ms')) /\
  (forall o R T ms ms',
     ms ≡ₚ ms' ->
     ascending 0 (spanTsx o R <$> ms') -> within T (spanTsx o R <$> ms') ->
     sort (fun a b => (Z.of_nat (FindReplaceTsx.start b) - Z.of_nat (FindReplaceTsx.start a))%Z) ms
       = reverse ms' /\
     (forall pre m post, ms' = pre ++ m :: post ->
        let X := foldl (FindReplaceTsx.replaceStep o R) T (reverse post) in
        take (FindReplaceTsx.end_ m) X = take (FindReplaceTsx.end_ m) T) /\
     FindReplaceTsx.replacedText o R T ms = spliceAll T 0 (spanTsx o R <$> ms')) /\
  (forall o R T m,
     Part001.replacedText o R T [m]
       = take (Part001.index m) T ++ Part001.replacementFor o R m
           ++ drop (Part001.index m + Part001.length m) T) /\
  (forall o R T m,
     FindReplaceTsx.replacedText o R T [m]
       = take (FindReplaceTsx.start m) T
           ++ FindReplaceTsx.replaceWithCasePreservation o (FindReplaceTsx.text m) R
           ++ drop (FindReplaceTsx.end_ m) T).
Proof.
  split; [|split; [|split]].
  - intros o R T ms ms' Hf Hp Hasc Hin. split; [by eapply sorted001|]. split.
    + intros pre m post -> X e. unfold X.
      rewrite (foldl_ext_map _ (span001 o R)) by apply replaceStep001_splice.
      rewrite fmap_reverse. rewrite fmap_app in Hasc, Hin. simpl in Hasc, Hin.
      apply foldl_splice_prefix.
      * exact (ascending_app_inv _ _ _ _ Hasc).
      * unfold within, before in *. rewrite Forall_app, Forall_cons in Hin. tauto.
    + by apply replacedText001_all.
  - intros o R T ms ms' Hp Hasc Hin. split; [by eapply sortedTsx|]. split.
    + intros pre m post -> X. unfold X.
      rewrite (foldl_ext_map _ (spanTsx o R)) by apply replaceStepTsx_splice.
      rewrite fmap_reverse. rewrite fmap_app in Hasc, Hin. simpl in Hasc, Hin.
      apply (foldl_splice_prefix T (s_stop (spanTsx o R m))).
      * exact (ascending_app_inv _ _ _ _ Hasc).
      * unfold within, before in *. rewrite Forall_app, Forall_cons in Hin. tauto.
    + by apply replacedTextTsx_all.
  - intros. apply replacedText001_single.
  - intros. apply replacedTextTsx_single.
Qed.

(** Every "X" of "aXaXa" replaced by "y" under smart case: "aYaYa",
    in both implementations, the second match being handed over
    first. *)
Lemma replace_descending_order_witness :
  Part001.replacedText Sample.smartCase (str "y") (str "aXaXa")
    [Sample.matchX 3; Sample.matchX 1] = str "aYaYa" /\
  FindReplaceTsx.replacedText Sample.keepCase (str "y") (str "aXaXa")
    [Sample.matchXTsx 3; Sample.matchXTsx 1] = str "aYaYa".
Proof.
  destruct replace_descending_order as (H1 & H2 & _).
  split.
  - destruct (H1 Sample.smartCase (str "y") (str "aXaXa")
                [Sample.matchX 3; Sample.matchX 1] [Sample.matchX 1; Sample.matchX 3])
      as (_ & _ & H).
    + reflexivity.
    + apply Permutation_swap.
    + simpl. lia.
    + repeat constructor.
    + exact H.
  - destruct (H2 Sample.keepCase (str "y") (str "aXaXa")
                [Sample.matchXTsx 3; Sample.matchXTsx 1]
                [Sample.matchXTsx 1; Sample.matchXTsx 3]) as (_ & _ & H).
    + apply Permutation_swap.
    + simpl. lia.
    + repeat constructor.
    + exact H.
Defined.

(** The scan and the replacement together: "X" sought in "aXaXa" and
    every match replaced by "Y". *)
Example replace_all_aXaXa :
  match Part001.scan (host := Fragment.host) 7 (str "X") (str "aXaXa") Sample.literal001 with
  | Returns ms => Part001.replacedText Sample.literal001 (str "Y") (str "aXaXa") ms
  | _ => []
  end = str "aYaYa" /\
  match FindReplaceTsx.scan (host := Fragment.host) 7 (str "X") (str "aXaXa")
          Sample.literalTsx with
  | Returns ms => FindReplaceTsx.replacedText Sample.literalTsx (str "Y") (str "aXaXa") ms
  | _ => []
  end = str "aYaYa".
Proof. split; vm_compute; reflexivity. Qed.

End Replace.

(** ** Case preservation *)

Section CasePreservation.

Lemma upper_char_fixed c : upper_char c = c <-> is_lower c = false.
Proof.
  unfold upper_char. destruct (is_lower c) eqn:E; [|done].
  split; [|done]. intros H. exfalso.
  revert E H. unfold is_lower, code.
  destruct c as [[] [] [] [] [] [] [] []]; vm_compute; congruence.
Qed.

Lemma lower_char_fixed c : lower_char c = c <-> is_upper c = false.
Proof.
  unfold lower_char. destruct (is_upper c) eqn:E; [|done].
  split; [|done]. intros H. exfalso.
  revert E H. unfold is_upper, code.
  destruct c as [[] [] [] [] [] [] [] []]; vm_compute; congruence.
Qed.

Lemma upper_not_lower c : is_upper c = true -> is_lower c = false.
Proof.
  unfold is_upper, is_lower. intros H.
  apply andb_true_iff in H as [_ H]. apply Nat.leb_le in H.
  apply andb_false_iff. left. apply Nat.leb_gt. lia.
Qed.

(** [s === s.toUpperCase()] says that [s] has no lower-case letter. *)
Lemma toUpperCase_fixed s : s = toUpperCase s <-> allUpper s.
Proof.
  unfold allUpper. induction s as [|c s IH].
  - split; [constructor|done].
  - change (toUpperCase (c :: s)) with (upper_char c :: toUpperCase s).
    rewrite Forall_cons, <- IH, <- upper_char_fixed. split.
    + intros [= H1 H2]. by split.
    + intros [H1 H2]. by f_equal.
Qed.

Lemma toLowerCase_fixed s : s = toLowerCase s <-> allLower s.
Proof.
  unfold allLower. induction s as [|c s IH].
  - split; [constructor|done].
  - change (toLowerCase (c :: s)) with (lower_char c :: toLowerCase s).
    rewrite Forall_cons, <- IH, <- lower_char_fixed. split.
    + intros [= H1 H2]. by split.
    + intros [H1 H2]. by f_equal.
Qed.

Lemma toLowerCase_length s : length (toLowerCase s) = length s.
Proof. apply length_map. Qed.

Lemma slice_from_1 (s : text) : slice_from s 1 = drop 1 s.
Proof. exact (slice_from_nat s 1). Qed.

Lemma capitalize_code r :
  toUpperCase (take 1 r) ++ toLowerCase (slice_from r 1) = capitalize r.
Proof. rewrite slice_from_1. by destruct r. Qed.

(** The four cases of the design hold of
    [replaceWithCasePreservation], each in the absence of the cases
    before it. *)
Lemma replaceWithCasePreservation_cases o original R :
  FindReplaceTsx.preserveCase o = true ->
  let result := FindReplaceTsx.replaceWithCasePreservation o original R in
  (allUpper original -> result = toUpperCase R) /\
  (~ allUpper original -> allLower original -> result = toLowerCase R) /\
  (~ allUpper original -> ~ allLower original -> capitalized original ->
     result = capitalize R) /\
  (~ allUpper original -> ~ allLower original -> ~ capitalized original -> result = R).
Proof.
  intros Ho result. unfold result, FindReplaceTsx.replaceWithCasePreservation.
  rewrite Ho. simpl.
  rewrite <- !toUpperCase_fixed, <- !toLowerCase_fixed.
  destruct (text_eqb original (toUpperCase original)) eqn:E1.
  { apply text_eqb_true in E1. tauto. }
  apply text_eqb_false in E1.
  destruct (text_eqb original (toLowerCase original)) eqn:E2.
  { apply text_eqb_true in E2. tauto. }
  apply text_eqb_false in E2.
  assert (Hcap : capitalized original <->
    take 1 original = toUpperCase (take 1 original) /\
    slice_from original 1 = toLowerCase (slice_from original 1)).
  { rewrite slice_from_1. destruct original as [|c rest]; [done|]. simpl.
    rewrite drop_0, <- toLowerCase_fixed. split.
    - intros [Hc Hr]. apply upper_not_lower, upper_char_fixed in Hc.
      split; [by rewrite Hc|done].
    - intros [[= Hc] Hr]. split; [|done].
      destruct (is_upper c) eqn:Eu; [done|]. exfalso. apply E2.
      change (toLowerCase (c :: rest)) with (lower_char c :: toLowerCase rest).
      apply lower_char_fixed in Eu. by rewrite Eu, <- Hr. }
  destruct (text_eqb (take 1 original) (toUpperCase (take 1 original))) eqn:E3;
  destruct (text_eqb (slice_from original 1) (toLowerCase (slice_from original 1))) eqn:E4;
    simpl; rewrite ?text_eqb_true, ?text_eqb_false in *;
    try rewrite capitalize_code; tauto.
Qed.

(** The examples of the design document, in both implementations. *)
Example preserveCase_examples :
  Part001.preserveCase Sample.smartCase (str "HELLO") (str "world") = str "WORLD" /\
  Part001.preserveCase Sample.smartCase (str "Hello") (str "world") = str "World" /\
  Part001.preserveCase Sample.smartCase (str "hello") (str "WORLD") = str "world" /\
  FindReplaceTsx.replaceWithCasePreservation Sample.keepCase (str "HELLO") (str "world")
    = str "WORLD" /\
  FindReplaceTsx.replaceWithCasePreservation Sample.keepCase (str "Hello") (str "world")
    = str "World" /\
  FindReplaceTsx.replaceWithCasePreservation Sample.keepCase (str "hello") (str "WORLD")
    = str "world".
Proof. repeat split; reflexivity. Qed.

(** C5.  [preserveCase] of part 001 looks at the first character
    only: "HeLLo" is neither upper case, nor lower case, nor
    capitalized, and yet the replacement "world" comes back
    capitalized, where [replaceWithCasePreservation] leaves it as it
    is. *)
Theorem preserveCase_mixed_original :
  ~ allUpper (str "HeLLo") /\ ~ allLower (str "HeLLo") /\ ~ capitalized (str "HeLLo") /\
  Part001.preserveCase Sample.smartCase (str "HeLLo") (str "world") = str "World" /\
  FindReplaceTsx.replaceWithCasePreservation Sample.keepCase (str "HeLLo") (str "world")
    = str "world".
Proof.
  split; [|split; [|split; [|split; reflexivity]]].
  - rewrite <- toUpperCase_fixed. vm_compute. congruence.
  - rewrite <- toLowerCase_fixed. vm_compute. congruence.
  - simpl. unfold allLower. rewrite <- (toLowerCase_fixed (str "eLLo")).
    vm_compute. intros [_ [=]].
Qed.

End CasePreservation.

(** ** The operation history *)

Section History.

Lemma pushHistory_take op prev : Part001.pushHistory op prev = op :: take 19 prev.
Proof. unfold Part001.pushHistory. f_equal. exact (slice_0 prev 19). Qed.

(** A single replacement keeps the history at 20 entries, the new one
    first and the older ones as they were. *)
Lemma pushHistory_bound op prev : length (Part001.pushHistory op prev) <= 20.
Proof. rewrite pushHistory_take. simpl. rewrite length_take. lia. Qed.

Lemma pushBatchHistory_take ops prev :
  length ops <= 20 ->
  Part001.pushBatchHistory ops prev = ops ++ take (20 - length ops) prev.
Proof.
  intros H. unfold Part001.pushBatchHistory.
  replace (20 - Z.of_nat (length ops))%Z with (Z.of_nat (20 - length ops)) by lia.
  by rewrite slice_0.
Qed.

(** So does a batch of at most 20 rules. *)
Lemma pushBatchHistory_bound ops prev :
  length ops <= 20 -> length (Part001.pushBatchHistory ops prev) <= 20.
Proof.
  intros H. rewrite pushBatchHistory_take by done.
  rewrite length_app, length_take. lia.
Qed.

(** [performReplace] leaves the history as it is or puts one
    operation before its first 19 entries, which it does not touch. *)
Lemma performReplace_history now st :
  Part001.history (Part001.performReplace now st) = Part001.history st \/
  exists op,
    Part001.history (Part001.performReplace now st) = op :: take 19 (Part001.history st).
Proof.
  unfold Part001.performReplace.
  destruct (_ || _); [by left|].
  destruct (bool_decide _); [by left|].
  right. eexists. simpl. apply pushHistory_take.
Qed.

(** FindReplace.tsx keeps 10 entries. *)
Lemma pushHistoryTsx_take e prev : FindReplaceTsx.pushHistory e prev = e :: take 9 prev.
Proof. unfold FindReplaceTsx.pushHistory. f_equal. exact (slice_0 prev 9). Qed.

(** C7.  A batch of 21 rules applied to an empty history leaves 21
    entries in it: [20 - operations.length] is negative, and nothing
    cuts the new operations down to 20. *)
Theorem batch_history_overflow :
  (fun st => length (Part001.history st)) <$>
    Part001.performBatchReplace (host := Fragment.host) (fun k => (k, 0)) Sample.state21
  = Some 21.
Proof. vm_compute. reflexivity. Qed.

(** In a batch the operations are recorded in the order of the
    rules, the first rule first. *)
Example batch_history_order :
  (fun st => Part001.find <$> Part001.history st) <$>
    Part001.performBatchReplace (host := Fragment.host) (fun k => (k, 0))
      (Part001.mkState (str "a") [] [] Part001.initialOptions [] (-1) []
         (join nl Sample.abLines) false ∅)
  = Some [str "a"; str "b"].
Proof. vm_compute. reflexivity. Qed.

End History.

(** ** Batches *)

Section Batch.
Context {host : RegExpHost}.

Lemma batchLoop_text stamp o lines T ops :
  fst <$> Part001.batchLoop stamp o lines T ops = batchText lines T.
Proof.
  revert T ops. induction lines as [|line lines IH]; intros T ops; simpl; [done|].
  destruct (Part001.parseRule line) as [[find replace]|]; [|apply IH].
  unfold Part001.batchPattern, flags_g.
  destruct (RegExp.new (escapeRegExp find) (mkFlags true false)); simpl; [apply IH|done].
Qed.

Lemma performBatchReplace_text stamp st :
  Part001.st_text <$> Part001.performBatchReplace stamp st =
    if bool_decide (trim (Part001.batchReplacements st) = []) then Some (Part001.st_text st)
    else batchText (Part001.batchLines (Part001.batchReplacements st)) (Part001.st_text st).
Proof.
  unfold Part001.performBatchReplace.
  destruct (bool_decide (trim (Part001.batchReplacements st) = [])); [done|].
  rewrite <- (batchLoop_text stamp (Part001.st_options st) _ _ []).
  destruct (Part001.batchLoop _ _ _ _ _) as [[result ops]|]; done.
Qed.

(** The text [performBatchReplace] of part 001 produces is the same
    under any two option records and any two readings of the clock. *)
Lemma performBatchReplace_options stamp1 stamp2 o1 o2 st :
  Part001.st_text <$> Part001.performBatchReplace stamp1 (with_options st o1) =
  Part001.st_text <$> Part001.performBatchReplace stamp2 (with_options st o2).
Proof. by rewrite !performBatchReplace_text. Qed.







End Batch.

(** The rules a -> b, b -> c applied to "a" give "c", with two
    replacements, not "b". *)
Example batch_ab_bc :
  FindReplaceTsx.batchResult (host := Fragment.host) FindReplaceTsx.initialOptions
    Sample.abRules (str "a") = Some (str "c", 2) /\
  fst <$> Part001.batchLoop (host := Fragment.host) (fun k => (k, 0))
    Part001.initialOptions Sample.abLines (str "a") [] = Some (str "c").
Proof. split; vm_compute; reflexivity. Qed.

(** A disabled rule and a rule without find text change nothing. *)
Example batch_skips :
  FindReplaceTsx.batchResult (host := Fragment.host) FindReplaceTsx.initialOptions
    [FindReplaceTsx.mkBatchReplacement (str "a") (str "b") false;
     FindReplaceTsx.mkBatchReplacement [] (str "c") true] (str "a") = Some (str "a", 0) /\
  fst <$> Part001.batchLoop (host := Fragment.host) (fun k => (k, 0))
    Part001.initialOptions [str " -> c"] (str "a") [] = Some (str "a").
Proof. split; vm_compute; reflexivity. Qed.

(** ** The reference engine *)

Section FragmentOk.
Import Fragment.

Lemma match_here_length ic r prev s n :
  match_here ic r prev s = Some n -> n <= length s.
Proof.
  revert prev s n. induction r as [|it r IH]; intros prev s n; simpl.
  - intros [= <-]. lia.
  - destruct it as [a|a|].
    + destruct s as [|x s]; [done|].
      destruct (atom_matches ic a x); [|done].
      destruct (match_here ic r (Some x) s) as [k|] eqn:E; [|done].
      intros [= <-]. apply IH in E. simpl. lia.
    + revert prev n. induction s as [|x s IHs]; intros prev n.
      * apply IH.
      * destruct (atom_matches ic a x); [|apply IH].
        match goal with |- context [match ?t with Some _ => _ | None => _ end] =>
          destruct t as [k|] eqn:E end.
        -- intros [= <-]. apply IHs in E. simpl. lia.
        -- apply IH.
    + destruct (xorb _ _); [apply IH|done].
Qed.

Lemma search_from_bounds ic r prev s k i n :
  search_from ic r prev s k = Some (i, n) -> k <= i /\ i + n <= k + length s.
Proof.
  revert prev k. induction s as [|x s IH]; intros prev k; simpl.
  - destruct (match_here ic r prev []) as [n'|] eqn:E; [|done].
    intros [= <- <-]. apply match_here_length in E. simpl in E. lia.
  - destruct (match_here ic r prev (x :: s)) as [n'|] eqn:E.
    + intros [= <- <-]. apply match_here_length in E. simpl in E. lia.
    + intros H. apply IH in H. lia.
Qed.

Lemma search_from_step ic r s a i n :
  a < i -> a <= length s ->
  search_from ic r (prev_at s a) (drop a s) a = Some (i, n) ->
  search_from ic r (prev_at s (S a)) (drop (S a) s) (S a) = Some (i, n).
Proof.
  intros Hai Ha.
  destruct (drop a s) as [|x s'] eqn:Ed.
  - simpl. destruct (match_here _ _ _ _); [|done]. intros [= <- <-]. lia.
  - cbn [search_from].
    destruct (match_here ic r (prev_at s a) (x :: s')); [intros [= <- <-]; lia|].
    change (prev_at s (S a)) with (s !! a).
    assert (s !! a = Some x) as ->.
    { rewrite <- (Nat.add_0_r a), <- lookup_drop, Ed. done. }
    assert (drop (S a) s = s') as ->; [|done].
    change (S a) with (1 + a). rewrite Nat.add_comm, <- drop_drop, Ed. done.
Qed.

Lemma search_from_leftmost ic r s a k i n :
  a <= k <= i -> a <= length s ->
  search_from ic r (prev_at s a) (drop a s) a = Some (i, n) ->
  search_from ic r (prev_at s k) (drop k s) k = Some (i, n).
Proof.
  intros [Hak Hki]. induction Hak as [|k Hak IH]; [done|].
  intros Ha H. 
  assert (Hb := search_from_bounds _ _ _ _ _ _ _ H).
  rewrite length_drop in Hb.
  apply search_from_step; [lia|lia|]. apply IH; [lia|done|done].
Qed.

(** The reference engine keeps the contract. *)
#[export] Instance fragment_ok : RegExpHostOk Fragment.host.
Proof.
  split.
  - intros p s from m. simpl. unfold search_fragment.
    destruct (Nat.ltb_spec (length s) from) as [|Hle]; [done|].
    destruct (search_from _ _ _ _ _) as [[i n]|] eqn:E; [|done].
    intros [= <-]. simpl. apply search_from_bounds in E.
    rewrite length_drop in E. lia.
  - intros p s from k m. simpl. unfold search_fragment.
    destruct (Nat.ltb_spec (length s) from) as [|Hle]; [done|].
    destruct (search_from _ _ _ _ from) as [[i n]|] eqn:E; [|done].
    intros [= <-]. simpl. intros Hk.
    assert (Hb := search_from_bounds _ _ _ _ _ _ _ E). rewrite length_drop in Hb.
    destruct (Nat.ltb_spec (length s) k) as [|_]; [lia|].
    by rewrite (search_from_leftmost _ _ s from k i n) by (done || lia).
Qed.

End FragmentOk.

(** *** Escaped find texts *)

Section FragmentLiteral.
Import Fragment.

Lemma escapeRegExp_head s tail c rest :
  (forall c rest, tail = c :: rest -> c <> "*"%char) ->
  escapeRegExp s ++ tail = c :: rest -> c <> "*"%char.
Proof.
  intros Ht. destruct s as [|x s]; [apply Ht|]. unfold escapeRegExp. simpl.
  destruct (is_meta x) eqn:E; simpl; intros [= <- _]; [done|].
  intros ->. by vm_compute in E.
Qed.

(** An escaped find text is read as the literal it escapes, and what
    follows it as it would be read alone. *)
Lemma parse_escaped_app s tail :
  (forall c rest, tail = c :: rest -> c <> "*"%char) ->
  parse (escapeRegExp s ++ tail) = (literal s ++.) <$> parse tail.
Proof.
  intros Ht. induction s as [|c s IH].
  - simpl. by destruct (parse tail).
  - change (escapeRegExp (c :: s))
      with ((if is_meta c then ["\"%char; c] else [c]) ++ escapeRegExp s) in *.
    rewrite <- app_assoc.
    assert (Hnext : parse (escapeRegExp s ++ tail) = (literal s ++.) <$> parse tail ->
      match escapeRegExp s ++ tail with
      | q :: rest'' =>
          if Ascii.eqb q "*" then cons (Star (Lit c)) <$> parse rest''
          else cons (One (Lit c)) <$> parse (escapeRegExp s ++ tail)
      | [] => Some [One (Lit c)]
      end = (literal (c :: s) ++.) <$> parse tail).
    { destruct (escapeRegExp s ++ tail) as [|q rest''] eqn:E.
      - apply app_eq_nil in E as [Es ->]. intros _.
        destruct s as [|x s]; [done|]. unfold escapeRegExp in Es. simpl in Es.
        by destruct (is_meta x).
      - destruct (Ascii.eqb_spec q "*") as [->|_].
        { by apply escapeRegExp_head in E. }
        intros ->. by destruct (parse tail). }
    destruct (is_meta c) eqn:E; cbn [app parse].
    + destruct (Ascii.eqb_spec c "b") as [->|_]; [by vm_compute in E|].
      rewrite E. by apply Hnext.
    + destruct (Ascii.eqb_spec c "\") as [->|_]; [by vm_compute in E|].
      rewrite E. simpl.
      destruct (Ascii.eqb_spec c ".") as [->|_]; [by vm_compute in E|].
      by apply Hnext.
Qed.

Lemma parse_escaped s : parse (escapeRegExp s) = Some (literal s).
Proof.
  rewrite <- (app_nil_r (escapeRegExp s)), parse_escaped_app by done.
  simpl. by rewrite app_nil_r.
Qed.

Lemma match_here_literal s prev t :
  match_here false (literal s) prev t = if starts_with s t then Some (length s) else None.
Proof.
  revert prev t. induction s as [|c s IH]; intros prev t; [done|].
  destruct t as [|x t]; [done|]. cbn [literal fmap list_fmap match_here starts_with atom_matches].
  rewrite (Ascii.eqb_sym c x). destruct (Ascii.eqb x c); [|done]. simpl.
  change (list_fmap _ _ (fun c => One (Lit c)) s) with (literal s).
  rewrite IH. by destruct (starts_with s t).
Qed.

Lemma search_from_literal s prev t k :
  search_from false (literal s) prev t k = (fun i => (i, length s)) <$> find_from s t k.
Proof.
  revert prev k. induction t as [|x t IH]; intros prev k; cbn [search_from find_from];
    rewrite match_here_literal.
  - by destruct (starts_with s []).
  - destruct (starts_with s (x :: t)); [done|apply IH].
Qed.

(** In the reference engine the expression of a batch rule matches
    the occurrences of the find text, letter case included, and
    nothing else. *)
Lemma batchPattern_literal find :
  exists r, Part001.batchPattern (host := Fragment.host) find = Some r /\
    forall T from, from <= length T ->
      search (RegExp.pattern r) T from =
        (fun i => mkMatchResult i (length find) []) <$> indexOf T find from.
Proof.
  unfold Part001.batchPattern, RegExp.new. simpl. unfold compile_fragment.
  rewrite parse_escaped. simpl. eexists. split; [done|]. simpl.
  intros T from Hf. unfold search_fragment, indexOf. simpl.
  destruct (Nat.ltb_spec (length T) from) as [|_]; [lia|].
  rewrite search_from_literal, Nat.min_l by done.
  by destruct (find_from find (drop from T) from).
Qed.

Lemma match_here_literal_app ic s r prev t n :
  match_here ic (literal s ++ r) prev t = Some n ->
  exists prev' t' k, match_here ic r prev' t' = Some k /\ n = length s + k.
Proof.
  revert prev t n. induction s as [|c s IH]; intros prev t n.
  - simpl. intros H. by exists prev, t, n.
  - change (literal (c :: s) ++ r) with (One (Lit c) :: (literal s ++ r)).
    cbn [match_here]. destruct t as [|x t]; [done|].
    destruct (atom_matches ic (Lit c) x); [|done].
    destruct (match_here ic (literal s ++ r) (Some x) t) as [n'|] eqn:E; [|done].
    intros [= <-]. apply IH in E as (prev' & t' & k & E & ->).
    exists prev', t', k. split; [done|]. simpl. lia.
Qed.

Lemma search_from_match ic r prev t k i n :
  search_from ic r prev t k = Some (i, n) ->
  exists prev' t', match_here ic r prev' t' = Some n.
Proof.
  revert prev k. induction t as [|x t IH]; intros prev k; cbn [search_from];
    destruct (match_here ic r prev _) as [n'|] eqn:E; try done.
  - intros [= <- <-]. eauto.
  - intros [= <- <-]. eauto.
  - apply IH.
Qed.

Lemma parse_whole_word s :
  parse (str "\b" ++ escapeRegExp s ++ str "\b") = Some (Boundary :: literal s ++ [Boundary]).
Proof.
  change (str "\b" ++ escapeRegExp s ++ str "\b")
    with ("\"%char :: "b"%char :: (escapeRegExp s ++ str "\b")).
  cbn [parse]. simpl Ascii.eqb. cbn iota.
  rewrite parse_escaped_app; [done|]. by intros c rest [= <- _].
Qed.

(** In the reference engine a find text sought as it stands matches
    as many characters as it has. *)
#[export] Instance fragment_literal_ok : LiteralHostOk Fragment.host.
Proof.
  split. intros s ww ic p T from m Hc Hs.
  change (compile_fragment
            (if ww then str "\b" ++ escapeRegExp s ++ str "\b" else escapeRegExp s) ic
          = Some p) in Hc.
  change (search_fragment p T from = Some m) in Hs.
  unfold compile_fragment in Hc. unfold search_fragment in Hs.
  destruct (length T <? from); [done|].
  destruct (search_from _ _ _ _ _) as [[i n]|] eqn:E; [|done].
  injection Hs as <-. simpl.
  apply search_from_match in E as (prev' & t' & E).
  destruct ww.
  - rewrite parse_whole_word in Hc. injection Hc as <-. simpl in E.
    destruct (xorb _ _); [|done].
    apply match_here_literal_app in E as (prev'' & t'' & k & E & ->).
    simpl in E. destruct (xorb _ _); [|done]. injection E as <-. lia.
  - rewrite parse_escaped in Hc. injection Hc as <-. simpl in E.
    rewrite <- (app_nil_r (literal s)) in E.
    apply match_here_literal_app in E as (prev'' & t'' & k & E & ->).
    simpl in E. injection E as <-. lia.
Qed.

End FragmentLiteral.

(** C10.  In part 001 the expression of a batch rule is the rule's
    find string with its metacharacters escaped, compiled with the
    global flag alone, whatever the engine; the text
    [performBatchReplace] produces is the same under any two option
    records; and the reference engine reads the escaped find string as
    the literal: the expression matches the occurrences of the find
    string, letter case included, and nothing else. *)
Theorem batch_noninterference :
  (forall (host : RegExpHost) find,
     Part001.batchPattern find = RegExp.new (escapeRegExp find) (mkFlags true false)) /\
  (forall (host : RegExpHost) stamp1 stamp2 o1 o2 st,
     Part001.st_text <$> Part001.performBatchReplace stamp1 (with_options st o1) =
     Part001.st_text <$> Part001.performBatchReplace stamp2 (with_options st o2)) /\
  (forall find,
     exists r, Part001.batchPattern (host := Fragment.host) find = Some r /\
       forall T from, from <= length T ->
         search (RegExp.pattern r) T from =
           (fun i => mkMatchResult i (length find) []) <$> indexOf T find from).
Proof.
  split; [reflexivity|]. split.
  - intros. apply performBatchReplace_options.
  - apply batchPattern_literal.
Qed.

(** The rule for "a.b" finds "a.b" in "aXb a.b" and passes over
    "aXb". *)
Lemma batch_noninterference_witness :
  exists r, Part001.batchPattern (host := Fragment.host) (str "a.b") = Some r /\
    search (RegExp.pattern r) (str "aXb a.b") 0 = Some (mkMatchResult 4 3 []).
Proof.
  destruct batch_noninterference as (_ & _ & H).
  destruct (H (str "a.b")) as (r & Hr & Hs).
  exists r. split; [exact Hr|].
  rewrite (Hs (str "aXb a.b") 0); [reflexivity|simpl; lia].
Defined.

(** ** Scanning *)

Section Chains.

Lemma ascending_increasing p sps : ascending p sps -> increasing p sps.
Proof.
  revert p. induction sps as [|sp sps IH]; intros p; [done|].
  intros (Hp & Hle & Hnext & Hrest). split; [done|].
  destruct sps as [|sp' sps]; [done|].
  apply IH in Hrest as [_ Hrest]. by split.
Qed.

Lemma increasing_weaken p q sps : q <= p -> increasing p sps -> increasing q sps.
Proof. destruct sps; simpl; [done|]. intros ? [? ?]. split; [lia|done]. Qed.

Lemma increasing_app p q l1 l2 :
  increasing p l1 -> increasing q l2 ->
  Forall (fun sp => s_start sp < q) l1 -> p <= q ->
  increasing p (l1 ++ l2).
Proof.
  revert p. induction l1 as [|sp l1 IH]; intros p H1 H2 Hb Hpq; simpl.
  - by eapply increasing_weaken.
  - destruct H1 as [Hp H1]. inversion Hb; subst. split; [done|].
    apply IH; [done|done|done|lia].
Qed.

Lemma ascending_app p q l1 l2 :
  ascending p l1 -> ascending q l2 ->
  Forall (fun sp => s_stop sp < q) l1 -> p <= q ->
  ascending p (l1 ++ l2).
Proof.
  revert p. induction l1 as [|sp l1 IH]; intros p H1 H2 Hb Hpq; simpl.
  - by eapply ascending_weaken.
  - destruct H1 as (Hp & Hle & Hnext & H1). inversion Hb as [|? ? Hsp Hb']; subst.
    repeat split; [done|done| |].
    + destruct l1 as [|sp' l1]; simpl; [|done].
      destruct l2 as [|sp' l2]; [done|]. destruct H2 as (? & _). lia.
    + apply IH; [done|done|done|lia].
Qed.

Lemma nonempty_starts q sps :
  nonempty sps -> before q sps -> Forall (fun sp => s_start sp < q) sps.
Proof.
  unfold nonempty, before. rewrite !Forall_forall. intros H1 H2 sp Hin.
  specialize (H1 sp Hin). specialize (H2 sp Hin). simpl in *. lia.
Qed.

Lemma before_weaken q q' sps : q <= q' -> before q sps -> before q' sps.
Proof. intros Hq H. eapply Forall_impl; [exact H|]. simpl. intros; lia. Qed.

(** Positions in a chain: a later span starts after an earlier one
    starts, and not before it ends. *)
Lemma ascending_lookup p sps i j a b :
  ascending p sps -> i < j -> sps !! i = Some a -> sps !! j = Some b ->
  s_start a < s_start b /\ s_stop a <= s_start b.
Proof.
  revert p i j. induction sps as [|sp sps IH]; intros p i j Hasc Hij Ha Hb; [done|].
  destruct j as [|j]; [lia|]. simpl in Hb.
  destruct i as [|i].
  - simpl in Ha. injection Ha as ->.
    pose proof (ascending_strict _ _ _ Hasc) as H1.
    destruct Hasc as (_ & _ & _ & Hrest). apply ascending_starts in Hrest.
    rewrite Forall_lookup in H1, Hrest. split; [by eapply H1|by eapply Hrest].
  - simpl in Ha. destruct Hasc as (_ & _ & _ & Hrest).
    eapply (IH _ i j); [done|lia|done|done].
Qed.

Lemma increasing_starts p sps :
  increasing p sps -> Forall (fun sp => p <= s_start sp) sps.
Proof.
  revert p. induction sps as [|sp sps IH]; intros p; simpl; [constructor|].
  intros (Hp & Hrest). constructor; [done|].
  eapply Forall_impl; [apply (IH _ Hrest)|]. simpl. intros; lia.
Qed.

Lemma increasing_lookup p sps i j a b :
  increasing p sps -> i < j -> sps !! i = Some a -> sps !! j = Some b ->
  s_start a < s_start b.
Proof.
  revert p i j. induction sps as [|sp sps IH]; intros p i j Hinc Hij Ha Hb; [done|].
  destruct j as [|j]; [lia|]. simpl in Hb.
  destruct Hinc as [_ Hrest]. destruct i as [|i].
  - simpl in Ha. injection Ha as ->. apply increasing_starts in Hrest.
    rewrite Forall_lookup in Hrest. specialize (Hrest _ _ Hb). simpl in Hrest. lia.
  - simpl in Ha. eapply (IH _ i j); [done|lia|done|done].
Qed.

Lemma split_char_total c s : total (split_char c s) = length s + 1.
Proof.
  unfold total. induction s as [|x s IH]; [done|].
  cbn [split_char]. destruct (Ascii.eqb x c).
  - cbn [sum_list_with]. rewrite IH. simpl. lia.
  - destruct (split_char c s) as [|l ls]; simpl in *; lia.
Qed.

Lemma split_char_lengths c s : Forall (fun l => length l <= length s) (split_char c s).
Proof.
  pose proof (split_char_total c s) as Ht. unfold total in Ht.
  revert Ht. generalize (length s). induction (split_char c s) as [|l ls IH]; intros n Ht.
  - constructor.
  - simpl in Ht. constructor; [lia|].
    destruct ls as [|l' ls]; [constructor|].
    eapply Forall_impl; [apply (IH (n - length l - 1))|]; simpl in *; [lia|intros; lia].
Qed.

Lemma starts_with_length p s : starts_with p s = true -> length p <= length s.
Proof.
  revert s. induction p as [|a p IH]; intros [|b s]; simpl; try done; [lia|].
  intros H. apply andb_true_iff in H as [_ H]. apply IH in H. lia.
Qed.

Lemma find_from_bounds p s k i :
  find_from p s k = Some i -> k <= i /\ i + length p <= k + length s.
Proof.
  revert k. induction s as [|x s IH]; intros k; simpl.
  - destruct (starts_with p []) eqn:E; [|done].
    intros [= <-]. apply starts_with_length in E. simpl in E. lia.
  - destruct (starts_with p (x :: s)) eqn:E.
    + intros [= <-]. apply starts_with_length in E. simpl in E. lia.
    + intros H. apply IH in H. lia.
Qed.

Lemma indexOf_bounds s p from i :
  p <> [] -> indexOf s p from = Some i -> from <= i /\ i + length p <= length s.
Proof.
  intros Hp. unfold indexOf. intros H. apply find_from_bounds in H.
  rewrite length_drop in H. destruct p; [done|]. simpl in *. lia.
Qed.

End Chains.

(** *** What [exec] does to a global expression *)

Section Exec.
Context {host : RegExpHost} {ok : RegExpHostOk host}.

Lemma exec_global r s m r' :
  global (RegExp.flags r) = true -> RegExp.exec r s = (Some m, r') ->
  RegExp.lastIndex r <= m_index m /\ m_index m + m_length m <= length s /\
  r' = RegExp.set_lastIndex r (m_index m + m_length m).
Proof.
  intros Hg. unfold RegExp.exec. rewrite Hg.
  destruct (length s <? RegExp.lastIndex r); [done|].
  destruct (search (RegExp.pattern r) s (RegExp.lastIndex r)) as [m'|] eqn:E; [|done].
  intros [= <- <-]. apply search_bounds in E. tauto.
Qed.

Lemma exec_global_flags r s m r' :
  global (RegExp.flags r) = true -> RegExp.exec r s = (m, r') -> global (RegExp.flags r') = true.
Proof.
  intros Hg. unfold RegExp.exec. rewrite Hg.
  destruct (length s <? RegExp.lastIndex r); [by intros [= <- <-]|].
  destruct (search _ _ _); by intros [= <- <-].
Qed.

(** An empty match found from its own position is found again: the
    expression is back in the state it was in. *)
Lemma exec_stuck r s m r' :
  global (RegExp.flags r) = true -> RegExp.exec r s = (Some m, r') -> m_length m = 0 ->
  RegExp.exec r' s = (Some m, r').
Proof.
  intros Hg He Hz. destruct (exec_global r s m r' Hg He) as (Hli & Hlen & ->).
  revert He. unfold RegExp.exec. simpl. rewrite Hg.
  destruct (Nat.ltb_spec (length s) (RegExp.lastIndex r)) as [|_]; [done|].
  destruct (search (RegExp.pattern r) s (RegExp.lastIndex r)) as [m'|] eqn:E; [|done].
  intros [= ->]. 
  destruct (Nat.ltb_spec (length s) (m_index m + m_length m)) as [|_]; [lia|].
  rewrite (search_leftmost _ _ _ (m_index m + m_length m) m E) by lia.
  done.
Qed.

(** [length s + 2] rounds are enough for the loop of [match] and
    [replace]: more fuel gives the same matches. *)
Lemma global_matches_fuel fuel k r s :
  global (RegExp.flags r) = true ->
  length s + 1 <= fuel + RegExp.lastIndex r ->
  RegExp.global_matches_loop (S fuel + k) r s = RegExp.global_matches_loop (S fuel) r s.
Proof.
  revert r. induction fuel as [|fuel IH]; intros r Hg Hf;
    cbn [RegExp.global_matches_loop Nat.add];
    (destruct (RegExp.exec r s) as [[m|] r'] eqn:E; [|done]);
    destruct (exec_global r s m r' Hg E) as (Hli & Hlen & ->);
    [lia|].
  f_equal. apply (IH _).
  - by destruct (m_length m =? 0).
  - destruct (Nat.eqb_spec (m_length m) 0); simpl; lia.
Qed.

Lemma new_global src f r :
  RegExp.new src f = Some r -> RegExp.flags r = f /\ RegExp.lastIndex r = 0.
Proof.
  unfold RegExp.new. destruct (compile src (ignoreCase f)); [|done].
  by intros [= <-].
Qed.

End Exec.

(** *** The scan of part 001 *)

Section Scan001.
Context {host : RegExpHost} {ok : RegExpHostOk host}.

(** One round of the loop: the scan is over, or the match is passed
    over and the expression left where [exec] put it, or the match is
    recorded and an empty match stepped over. *)
Lemma scanLoop_round fuel o T r acc ms :
  Part001.scanLoop (S fuel) o T r acc = Returns ms ->
  (exists r', RegExp.exec r T = (None, r') /\ ms = acc) \/
  (exists m r', RegExp.exec r T = (Some m, r') /\
     (Part001.scanLoop fuel o T r' acc = Returns ms \/
      Part001.scanLoop fuel o T (stepped m r') (acc ++ [found001 T m]) = Returns ms)).
Proof.
  cbn [Part001.scanLoop].
  destruct (RegExp.exec r T) as [[m|] r'] eqn:E.
  2:{ intros [= <-]. left. by exists r'. }
  intros H. right. exists m, r'. split; [done|].
  destruct (Part001.outsideRange o _); [by left|].
  destruct (Part001.contextFilter o) as [[|c cf]|].
  - by right.
  - destruct (RegExp.new (c :: cf) flags_i) as [cp|]; [|done].
    destruct (RegExp.test cp _).1; [by right|by left].
  - by right.
Qed.

Lemma scanLoop_ascending o' R fuel o T r acc ms :
  global (RegExp.flags r) = true ->
  Part001.scanLoop fuel o T r acc = Returns ms ->
  exists new, ms = acc ++ new /\
    ascending (RegExp.lastIndex r) (span001 o' R <$> new) /\
    within T (span001 o' R <$> new).
Proof.
  revert r acc. induction fuel as [|fuel IH]; intros r acc Hg H; [done|].
  apply scanLoop_round in H as [(r' & E & ->)|(m & r' & E & H)].
  { exists []. rewrite app_nil_r. repeat split. constructor. }
  destruct (exec_global r T m r' Hg E) as (Hli & Hlen & ->).
  destruct H as [H|H].
  - apply IH in H as (new & -> & Hasc & Hin); [|done].
    exists new. split; [done|]. split; [|done].
    eapply ascending_weaken; [|exact Hasc]. simpl. lia.
  - apply IH in H as (new & -> & Hasc & Hin).
    2:{ unfold stepped. by destruct (m_length m =? 0). }
    exists (found001 T m :: new). split; [by rewrite <- app_assoc|].
    assert (Hstep : m_index m + m_length m <= RegExp.lastIndex
              (stepped m (RegExp.set_lastIndex r (m_index m + m_length m))) /\
            m_index m < RegExp.lastIndex
              (stepped m (RegExp.set_lastIndex r (m_index m + m_length m)))).
    { unfold stepped. destruct (Nat.eqb_spec (m_length m) 0); simpl; lia. }
    split.
    + rewrite fmap_cons. cbn [ascending]. simpl. repeat split; [lia|lia| |].
      * pose proof (ascending_starts _ _ Hasc) as Hs.
        destruct new as [|m' new]; [done|]. rewrite fmap_cons in Hs.
        inversion Hs; subst. simpl in *. lia.
      * eapply ascending_weaken; [|exact Hasc]. lia.
    + rewrite fmap_cons. constructor; [simpl; lia|done].
Qed.

(** Without a line range and a context filter every round ends in the
    step over an empty match, and the scan comes to an end. *)
Lemma scanLoop_unfiltered fuel o T r acc :
  Part001.lineRange o = None -> Part001.contextFilter o = None ->
  Part001.scanLoop (S fuel) o T r acc =
    match RegExp.exec r T with
    | (None, _) => Returns acc
    | (Some m, r') => Part001.scanLoop fuel o T (stepped m r') (acc ++ [found001 T m])
    end.
Proof.
  intros Hr Hc. cbn [Part001.scanLoop].
  destruct (RegExp.exec r T) as [[m|] r']; [|done].
  unfold Part001.outsideRange. by rewrite Hr, Hc.
Qed.

Lemma scanLoop_terminates fuel o T r acc :
  global (RegExp.flags r) = true ->
  Part001.lineRange o = None -> Part001.contextFilter o = None ->
  length T + 1 <= fuel + RegExp.lastIndex r ->
  exists ms, Part001.scanLoop (S fuel) o T r acc = Returns ms.
Proof.
  intros Hg Hr Hc. revert r acc Hg. induction fuel as [|fuel IH]; intros r acc Hg Hf;
    rewrite scanLoop_unfiltered by done;
    (destruct (RegExp.exec r T) as [[m|] r'] eqn:E; [|by eexists]);
    destruct (exec_global r T m r' Hg E) as (Hli & Hlen & ->);
    [lia|].
  apply IH.
  - unfold stepped. by destruct (m_length m =? 0).
  - unfold stepped. destruct (Nat.eqb_spec (m_length m) 0); simpl; lia.
Qed.

Lemma buildPattern_global P o r :
  Part001.buildPattern P o = Some r ->
  global (RegExp.flags r) = true /\ RegExp.lastIndex r = 0.
Proof.
  unfold Part001.buildPattern. intros H.
  assert (exists src, RegExp.new src (if Part001.caseSensitive o then flags_g else flags_gi)
                      = Some r) as (src & Hn).
  { destruct (Part001.useRegex o); eauto. }
  apply new_global in Hn as [-> ->]. by destruct (Part001.caseSensitive o).
Qed.

(** The matches of a scan by part 001. *)
Lemma scan001_ascending o' R fuel P T o ms :
  Part001.scan fuel P T o = Returns ms ->
  ascending 0 (span001 o' R <$> ms) /\ within T (span001 o' R <$> ms).
Proof.
  unfold Part001.scan. destruct (Part001.buildPattern P o) as [r|] eqn:E; [|done].
  apply buildPattern_global in E as [Hg Hl]. intros H.
  apply (scanLoop_ascending o' R) in H as (new & -> & Hasc & Hin); [|done].
  rewrite Hl in Hasc. done.
Qed.

Lemma scan001_terminates P T o :
  Part001.lineRange o = None -> Part001.contextFilter o = None ->
  Part001.scan (length T + 2) P T o <> Diverges.
Proof.
  intros Hr Hc. unfold Part001.scan.
  destruct (Part001.buildPattern P o) as [r|] eqn:E; [|done].
  apply buildPattern_global in E as [Hg Hl].
  replace (length T + 2) with (S (length T + 1)) by lia.
  destruct (scanLoop_terminates (length T + 1) o T r [] Hg Hr Hc) as (ms & ->); [lia|done].
Qed.

End Scan001.

(** *** Literal find texts in part 001 *)

Section Literal001.
Context {host : RegExpHost} {ok : RegExpHostOk host} {lit : LiteralHostOk host}.

Lemma exec_search r s m r' :
  RegExp.exec r s = (Some m, r') ->
  RegExp.pattern r' = RegExp.pattern r /\
  exists from, search (RegExp.pattern r) s from = Some m.
Proof.
  unfold RegExp.exec.
  destruct (length s <? _); [done|].
  destruct (search (RegExp.pattern r) s _) as [m'|] eqn:E; [|done].
  intros [= <- <-]. split; [by destruct (global (RegExp.flags r))|eauto].
Qed.

Lemma stepped_pattern m r : RegExp.pattern (stepped m r) = RegExp.pattern r.
Proof. unfold stepped. by destruct (m_length m =? 0). Qed.

(** Every match the loop records is a match the engine reported. *)
Lemma scanLoop_found fuel o T r acc ms :
  Part001.scanLoop fuel o T r acc = Returns ms ->
  exists new, ms = acc ++ new /\
    Forall (fun a => exists from m,
              search (RegExp.pattern r) T from = Some m /\ a = found001 T m) new.
Proof.
  revert r acc. induction fuel as [|fuel IH]; intros r acc H; [done|].
  apply scanLoop_round in H as [(r' & E & ->)|(m & r' & E & H)].
  { exists []. by rewrite app_nil_r. }
  apply exec_search in E as (Hp & from & Hs).
  destruct H as [H|H].
  - apply IH in H as (new & -> & Hall). rewrite Hp in Hall. by exists new.
  - apply IH in H as (new & -> & Hall). rewrite stepped_pattern, Hp in Hall.
    exists (found001 T m :: new). rewrite <- app_assoc. split; [done|].
    constructor; [eauto|done].
Qed.

(** Part 001, literal find text: no match is empty. *)
Lemma scan001_literal_nonempty fuel P T o ms :
  Part001.useRegex o = false -> P <> [] ->
  Part001.scan fuel P T o = Returns ms ->
  Forall (fun a => 0 < Part001.length a) ms.
Proof.
  intros Hre Hp. unfold Part001.scan, Part001.buildPattern. rewrite Hre.
  unfold RegExp.new.
  destruct (compile _ _) as [p|] eqn:Ec; [|done]. simpl.
  intros H. apply scanLoop_found in H as (new & -> & Hall). simpl in *.
  eapply Forall_impl; [exact Hall|]. simpl.
  intros a (from & m & Hs & ->). simpl.
  rewrite (literal_length P (Part001.wholeWord o)
             (ignoreCase (if Part001.caseSensitive o then flags_g else flags_gi))
             p T from m Ec Hs).
  destruct P; [done|simpl; lia].
Qed.

End Literal001.

(** *** The scan of FindReplace.tsx *)

Section ScanTsx.
Context {host : RegExpHost} {ok : RegExpHostOk host}.

Lemma regexLoop_round fuel o line li g r acc ms :
  FindReplaceTsx.regexLoop (S fuel) o line li g r acc = Returns ms ->
  (exists r', RegExp.exec r line = (None, r') /\ ms = acc) \/
  (exists m r', RegExp.exec r line = (Some m, r') /\
     (FindReplaceTsx.regexLoop fuel o line li g r' acc = Returns ms \/
      FindReplaceTsx.regexLoop fuel o line li g r'
        (acc ++ [FindReplaceTsx.mkFound line li g (m_index m) (m_length m)
                   (RegExp.matched line m)]) = Returns ms)).
Proof.
  cbn [FindReplaceTsx.regexLoop].
  destruct (RegExp.exec r line) as [[m|] r'] eqn:E.
  2:{ intros [= <-]. left. by exists r'. }
  intros H. right. exists m, r'. split; [done|].
  destruct (_ && _); [by left|by right].
Qed.

(** An expression that [exec] leaves as it found it keeps the loop
    going for ever. *)
Lemma regexLoop_stuck fuel o line li g r m acc :
  RegExp.exec r line = (Some m, r) ->
  FindReplaceTsx.regexLoop fuel o line li g r acc = Diverges.
Proof.
  intros E. revert acc. induction fuel as [|fuel IH]; intros acc; [done|].
  cbn [FindReplaceTsx.regexLoop]. rewrite E.
  destruct (_ && _); apply IH.
Qed.

Lemma regexLoop_ascending o' R fuel o line li g r acc ms :
  global (RegExp.flags r) = true ->
  FindReplaceTsx.regexLoop fuel o line li g r acc = Returns ms ->
  exists new, ms = acc ++ new /\
    ascending (g + RegExp.lastIndex r) (spanTsx o' R <$> new) /\
    nonempty (spanTsx o' R <$> new) /\
    before (g + length line) (spanTsx o' R <$> new).
Proof.
  revert r acc. induction fuel as [|fuel IH]; intros r acc Hg H; [done|].
  apply regexLoop_round in H as [(r' & E & ->)|(m & r' & E & H)].
  { exists []. rewrite app_nil_r. repeat split; constructor. }
  destruct (Nat.eq_dec (m_length m) 0) as [Hz|Hz].
  { pose proof (exec_stuck r line m r' Hg E Hz) as Hs.
    destruct H as [H|H]; by rewrite (regexLoop_stuck _ _ _ _ _ _ m _ Hs) in H. }
  destruct (exec_global r line m r' Hg E) as (Hli & Hlen & ->).
  destruct H as [H|H].
  - apply IH in H as (new & -> & Hasc & Hne & Hin); [|done].
    exists new. split; [done|]. split; [|done].
    eapply ascending_weaken; [|exact Hasc]. simpl. lia.
  - apply IH in H as (new & -> & Hasc & Hne & Hin); [|done].
    eexists (_ :: new). split; [by rewrite <- app_assoc|].
    simpl in Hasc. split; [|split].
    + rewrite fmap_cons. cbn [ascending]. simpl. repeat split; [lia|lia| |].
      * pose proof (ascending_starts _ _ Hasc) as Hs.
        destruct new as [|m' new]; [done|]. rewrite fmap_cons in Hs.
        inversion Hs; subst. simpl in *. lia.
      * eapply ascending_weaken; [|exact Hasc]. lia.
    + rewrite fmap_cons. constructor; [simpl; lia|done].
    + rewrite fmap_cons. constructor; [simpl; lia|done].
Qed.


Lemma literalLoop_round fuel o line sT sP li g idx acc ms :
  FindReplaceTsx.literalLoop (S fuel) o line sT sP li g idx acc = Returns ms ->
  (indexOf sT sP idx = None /\ ms = acc) \/
  (exists i, indexOf sT sP idx = Some i /\
     (FindReplaceTsx.literalLoop fuel o line sT sP li g (i + 1) acc = Returns ms \/
      FindReplaceTsx.literalLoop fuel o line sT sP li g (i + 1)
        (acc ++ [FindReplaceTsx.mkFound line li g i (length sP)
                   (slice line (Z.of_nat i) (Z.of_nat (i + length sP)))]) = Returns ms)).
Proof.
  cbn [FindReplaceTsx.literalLoop].
  destruct (indexOf sT sP idx) as [i|] eqn:E.
  2:{ intros [= <-]. by left. }
  intros H. right. exists i. split; [done|].
  destruct (_ && _); [by left|by right].
Qed.

Lemma literalLoop_increasing o' R fuel o line sT sP li g idx acc ms :
  sP <> [] -> length sT = length line ->
  FindReplaceTsx.literalLoop fuel o line sT sP li g idx acc = Returns ms ->
  exists new, ms = acc ++ new /\
    increasing (g + idx) (spanTsx o' R <$> new) /\
    nonempty (spanTsx o' R <$> new) /\
    before (g + length line) (spanTsx o' R <$> new).
Proof.
  intros Hp Hlen. revert idx acc.
  induction fuel as [|fuel IH]; intros idx acc H; [done|].
  apply literalLoop_round in H as [(E & ->)|(i & E & H)].
  { exists []. rewrite app_nil_r. repeat split; constructor. }
  apply indexOf_bounds in E as [Hi Hb]; [|done].
  assert (0 < length sP) by (destruct sP; [done|simpl; lia]).
  destruct H as [H|H].
  - apply IH in H as (new & -> & Hinc & Hne & Hin).
    exists new. split; [done|]. split; [|done].
    eapply increasing_weaken; [|exact Hinc]. lia.
  - apply IH in H as (new & -> & Hinc & Hne & Hin).
    eexists (_ :: new). split; [by rewrite <- app_assoc|].
    split; [|split].
    + rewrite fmap_cons. cbn [increasing]. simpl. split; [lia|].
      eapply increasing_weaken; [|exact Hinc]. lia.
    + rewrite fmap_cons. constructor; [simpl; lia|done].
    + rewrite fmap_cons. constructor; [simpl; lia|done].
Qed.

Lemma literalLoop_unfold fuel o line sT sP li g idx acc :
  FindReplaceTsx.literalLoop (S fuel) o line sT sP li g idx acc =
    match indexOf sT sP idx with
    | None => Returns acc
    | Some i =>
        FindReplaceTsx.literalLoop fuel o line sT sP li g (i + 1)
          (if FindReplaceTsx.wholeWord o && FindReplaceTsx.touchesWord line i (length sP)
           then acc
           else acc ++ [FindReplaceTsx.mkFound line li g i (length sP)
                          (slice line (Z.of_nat i) (Z.of_nat (i + length sP)))])
    end.
Proof.
  cbn [FindReplaceTsx.literalLoop].
  destruct (indexOf sT sP idx) as [i|]; [|done]. by destruct (_ && _).
Qed.

(** The literal loop moves on by one position a round and comes to an
    end. *)
Lemma literalLoop_terminates fuel o line sT sP li g idx acc :
  sP <> [] -> length sT + 1 <= fuel + idx ->
  exists ms, FindReplaceTsx.literalLoop (S fuel) o line sT sP li g idx acc = Returns ms.
Proof.
  intros Hp. revert idx acc. induction fuel as [|fuel IH]; intros idx acc Hf;
    rewrite literalLoop_unfold;
    (destruct (indexOf sT sP idx) as [i|] eqn:E; [|by eexists]);
    (apply indexOf_bounds in E; [|done]);
    (assert (0 < length sP) by (destruct sP; [done|simpl; lia])).
  - lia.
  - apply IH. lia.
Qed.

Lemma toLowerCase_nonempty s : s <> [] -> toLowerCase s <> [].
Proof. by destruct s. Qed.

(** The matches one line adds. *)
Lemma scanLine_invariant o' R fuel o P line li g acc ms :
  P <> [] ->
  FindReplaceTsx.scanLine fuel o P line li g acc = Returns ms ->
  exists new, ms = acc ++ new /\
    increasing g (spanTsx o' R <$> new) /\
    nonempty (spanTsx o' R <$> new) /\
    before (g + length line) (spanTsx o' R <$> new) /\
    (FindReplaceTsx.useRegex o = true -> ascending g (spanTsx o' R <$> new)).
Proof.
  intros Hp. unfold FindReplaceTsx.scanLine.
  destruct (FindReplaceTsx.outsideRange o li).
  { intros [= <-]. exists []. rewrite app_nil_r. repeat split; constructor. }
  destruct (FindReplaceTsx.useRegex o).
  - destruct (RegExp.new _ _) as [regex|] eqn:En.
    2:{ intros [= <-]. exists []. rewrite app_nil_r. repeat split; constructor. }
    apply new_global in En as [Hf Hl]. intros H.
    apply (regexLoop_ascending o' R) in H as (new & -> & Hasc & Hne & Hb).
    2:{ rewrite Hf. by destruct (FindReplaceTsx.caseSensitive o). }
    rewrite Hl, Nat.add_0_r in Hasc.
    exists new. repeat split; try done. by apply ascending_increasing.
  - intros H. apply (literalLoop_increasing o' R) in H as (new & -> & Hinc & Hne & Hb).
    + rewrite Nat.add_0_r in Hinc. exists new. by repeat split.
    + destruct (FindReplaceTsx.caseSensitive o); [done|by apply toLowerCase_nonempty].
    + destruct (FindReplaceTsx.caseSensitive o); [done|apply toLowerCase_length].
Qed.

Lemma scanLines_invariant o' R fuel o P lines li g acc ms :
  P <> [] ->
  FindReplaceTsx.scanLines fuel o P lines li g acc = Returns ms ->
  exists new, ms = acc ++ new /\
    increasing g (spanTsx o' R <$> new) /\
    nonempty (spanTsx o' R <$> new) /\
    before (g + total lines - 1) (spanTsx o' R <$> new) /\
    (FindReplaceTsx.useRegex o = true -> ascending g (spanTsx o' R <$> new)).
Proof.
  intros Hp. revert li g acc. induction lines as [|line lines IH]; intros li g acc.
  { intros [= <-]. exists []. rewrite app_nil_r. repeat split; constructor. }
  cbn [FindReplaceTsx.scanLines].
  destruct (FindReplaceTsx.scanLine fuel o P line li g acc) as [ms1| |] eqn:E1; [|done..].
  apply (scanLine_invariant o' R) in E1 as (new1 & -> & Hinc1 & Hne1 & Hb1 & Hasc1); [|done].
  intros H. apply IH in H as (new2 & -> & Hinc2 & Hne2 & Hb2 & Hasc2).
  exists (new1 ++ new2). rewrite app_assoc, fmap_app. split; [done|].
  assert (Ht : total (line :: lines) = length line + 1 + total lines) by done.
  assert (Hs1 := nonempty_starts _ _ Hne1 Hb1).
  split; [|split; [|split]].
  - eapply increasing_app; [done|done| |lia].
    eapply Forall_impl; [exact Hs1|]. simpl. intros; lia.
  - by apply Forall_app.
  - apply Forall_app. split.
    + eapply before_weaken; [|exact Hb1]. lia.
    + destruct new2 as [|m2 new2]; [constructor|].
      eapply before_weaken; [|exact Hb2]. lia.
  - intros Hre. eapply ascending_app; [by apply Hasc1|by apply Hasc2| |lia].
    eapply Forall_impl; [exact Hb1|]. simpl. intros; lia.
Qed.

Lemma scanTsx_invariant o' R fuel P T o ms :
  P <> [] ->
  FindReplaceTsx.scan fuel P T o = Returns ms ->
  increasing 0 (spanTsx o' R <$> ms) /\
  nonempty (spanTsx o' R <$> ms) /\
  within T (spanTsx o' R <$> ms) /\
  (FindReplaceTsx.useRegex o = true -> ascending 0 (spanTsx o' R <$> ms)).
Proof.
  intros Hp H. unfold FindReplaceTsx.scan in H.
  apply (scanLines_invariant o' R) in H as (new & -> & Hinc & Hne & Hb & Hasc); [|done].
  rewrite split_char_total in Hb. simpl in *.
  repeat split; try done.
  eapply before_weaken; [|exact Hb]. lia.
Qed.

Lemma scanLines_literal_terminates fuel o P lines li g acc :
  P <> [] -> FindReplaceTsx.useRegex o = false ->
  Forall (fun l => length l + 2 <= fuel) lines ->
  exists ms, FindReplaceTsx.scanLines fuel o P lines li g acc = Returns ms.
Proof.
  intros Hp Hre Hall. revert li g acc.
  induction Hall as [|line lines Hl _ IH]; intros li g acc; [by eexists|].
  cbn [FindReplaceTsx.scanLines].
  assert (exists ms1, FindReplaceTsx.scanLine fuel o P line li g acc = Returns ms1)
    as (ms1 & ->); [|apply IH].
  unfold FindReplaceTsx.scanLine. rewrite Hre.
  destruct (FindReplaceTsx.outsideRange o li); [by eexists|].
  destruct fuel as [|fuel]; [lia|].
  apply literalLoop_terminates.
  - destruct (FindReplaceTsx.caseSensitive o); [done|by apply toLowerCase_nonempty].
  - destruct (FindReplaceTsx.caseSensitive o); rewrite ?toLowerCase_length; lia.
Qed.

Lemma scanTsx_literal_terminates P T o :
  P <> [] -> FindReplaceTsx.useRegex o = false ->
  exists ms, FindReplaceTsx.scan (length T + 2) P T o = Returns ms.
Proof.
  intros Hp Hre. apply scanLines_literal_terminates; [done|done|].
  eapply Forall_impl; [apply split_char_lengths|]. simpl. intros; lia.
Qed.

End ScanTsx.

(** *** Line ranges and empty matches *)

Section LineRange.
Context {host : RegExpHost} {ok : RegExpHostOk host}.

(** One round of the loop of part 001. *)
Lemma scanLoop_unfold fuel o T r acc :
  Part001.scanLoop (S fuel) o T r acc =
    match RegExp.exec r T with
    | (None, _) => Returns acc
    | (Some m, r') =>
        if Part001.outsideRange o (lineNumberOf T m) then Part001.scanLoop fuel o T r' acc
        else match passesContext o T m with
             | None => Throws
             | Some false => Part001.scanLoop fuel o T r' acc
             | Some true =>
                 Part001.scanLoop fuel o T (stepped m r') (acc ++ [found001 T m])
             end
    end.
Proof.
  cbn [Part001.scanLoop]. unfold passesContext, lineNumberOf.
  destruct (RegExp.exec r T) as [[m|] r']; [|done].
  destruct (Part001.outsideRange o _); [done|].
  destruct (Part001.contextFilter o) as [[|c cf]|]; [done| |done].
  simpl. destruct (RegExp.new (c :: cf) flags_i) as [cp|]; [|done]. simpl.
  by destruct (RegExp.test cp _).1.
Qed.

(** A match that is passed over, found by an expression that [exec]
    leaves as it found it, keeps the loop going for ever. *)
Lemma scanLoop_stuck fuel o T r m acc :
  RegExp.exec r T = (Some m, r) ->
  Part001.outsideRange o (lineNumberOf T m) = true \/ passesContext o T m = Some false ->
  Part001.scanLoop fuel o T r acc = Diverges.
Proof.
  intros E Hskip. revert acc. induction fuel as [|fuel IH]; intros acc; [done|].
  rewrite scanLoop_unfold, E.
  destruct Hskip as [->| ->]; [apply IH|].
  destruct (Part001.outsideRange o _); apply IH.
Qed.

(** An empty match outside the line range: the step over it is never
    reached. *)
Lemma scanLoop_filtered_empty_match fuel o T r m r' acc :
  global (RegExp.flags r) = true ->
  RegExp.exec r T = (Some m, r') -> m_length m = 0 ->
  Part001.outsideRange o (lineNumberOf T m) = true ->
  Part001.scanLoop fuel o T r acc = Diverges.
Proof.
  intros Hg E Hz Hout. destruct fuel as [|fuel]; [done|].
  rewrite scanLoop_unfold, E, Hout.
  eapply scanLoop_stuck; [exact (exec_stuck r T m r' Hg E Hz)|by left].
Qed.

(** In FindReplace.tsx nothing steps over an empty match. *)
Lemma regexLoop_empty_match fuel o line li g r m r' acc :
  global (RegExp.flags r) = true ->
  RegExp.exec r line = (Some m, r') -> m_length m = 0 ->
  FindReplaceTsx.regexLoop fuel o line li g r acc = Diverges.
Proof.
  intros Hg E Hz. destruct fuel as [|fuel]; [done|].
  cbn [FindReplaceTsx.regexLoop]. rewrite E.
  pose proof (exec_stuck r line m r' Hg E Hz) as Hs.
  destruct (_ && _); by eapply regexLoop_stuck.
Qed.

Lemma outsideRange_inRange o rng n :
  Part001.lineRange o = Some rng -> Part001.outsideRange o n = negb (inRange rng n).
Proof.
  intros Hr. unfold Part001.outsideRange, inRange. rewrite Hr.
  destruct (Z.ltb_spec (Z.of_nat n) (Part001.range_start rng)),
           (Z.gtb_spec (Z.of_nat n) (Part001.range_end rng)),
           (Z.leb_spec (Part001.range_start rng) (Z.of_nat n)),
           (Z.leb_spec (Z.of_nat n) (Part001.range_end rng)); simpl; lia.
Qed.

Lemma stepped_nonempty m r : m_length m <> 0 -> stepped m r = r.
Proof. unfold stepped. by destruct (Nat.eqb_spec (m_length m) 0). Qed.

Lemma stepped_global m r : global (RegExp.flags (stepped m r)) = global (RegExp.flags r).
Proof. unfold stepped. by destruct (m_length m =? 0). Qed.

(** The loop under a line range goes through the rounds of the loop
    without it when no match recorded without the range is empty, and
    keeps the matches whose line number is in the range. *)
Lemma scanLoop_lineRange fuel o rng T r acc acc' ms' :
  Part001.lineRange o = Some rng ->
  Part001.scanLoop fuel (without_range o) T r acc' = Returns ms' ->
  exists new', ms' = acc' ++ new' /\
    (Forall (fun a => 0 < Part001.length a) new' ->
     Part001.scanLoop fuel o T r acc
     = Returns (acc ++ List.filter (fun a => inRange rng (Part001.lineNumber a)) new')).
Proof.
  intros Hr. revert r acc acc'.
  induction fuel as [|fuel IH]; intros r acc acc' H'; [done|].
  rewrite scanLoop_unfold in H'. rewrite scanLoop_unfold.
  destruct (RegExp.exec r T) as [[m|] r1] eqn:E.
  2:{ injection H' as <-. exists []. by rewrite !app_nil_r. }
  change (Part001.outsideRange (without_range o) (lineNumberOf T m)) with false in H'.
  change (passesContext (without_range o) T m) with (passesContext o T m) in H'.
  rewrite (outsideRange_inRange o rng) by done.
  destruct (passesContext o T m) as [[|]|]; [| |done].
  - destruct (IH _ (acc ++ [found001 T m]) _ H') as (new' & -> & Hin).
    destruct (IH _ acc _ H') as (new2 & Heq & Hout).
    apply app_inv_head in Heq as <-.
    exists (found001 T m :: new'). rewrite <- app_assoc. split; [done|].
    intros Hne. inversion Hne as [|? ? Hm Hne']; subst. simpl in Hm.
    cbn [List.filter].
    change (Part001.lineNumber (found001 T m)) with (lineNumberOf T m).
    destruct (inRange rng (lineNumberOf T m)); simpl.
    + rewrite Hin by done. by rewrite <- app_assoc.
    + rewrite <- (stepped_nonempty m r1) by lia. by apply Hout.
  - destruct (IH _ acc _ H') as (new' & -> & Hin).
    exists new'. split; [done|]. intros Hne.
    destruct (inRange rng (lineNumberOf T m)); simpl; by apply Hin.
Qed.

(** Part 001: when the scan without the line range returns and none
    of its matches is empty, the scan under the range returns those of
    them whose 1-indexed line number is in the range, each as it was
    recorded. *)
Lemma scan001_lineRange fuel P T o rng ms' :
  Part001.lineRange o = Some rng ->
  Part001.scan fuel P T (without_range o) = Returns ms' ->
  Forall (fun a => 0 < Part001.length a) ms' ->
  Part001.scan fuel P T o
  = Returns (List.filter (fun a => inRange rng (Part001.lineNumber a)) ms').
Proof.
  intros Hr. unfold Part001.scan.
  change (Part001.buildPattern P (without_range o)) with (Part001.buildPattern P o).
  destruct (Part001.buildPattern P o) as [r|]; [|done]. intros H' Hne.
  destruct (scanLoop_lineRange fuel o rng T r [] [] ms' Hr H') as (new' & -> & Hin).
  by apply Hin.
Qed.

End LineRange.

(** The same empty match, passed over for its line: the scan of part
    001 does not come back either. *)
Example scan001_filtered_diverges fuel :
  Part001.scan (host := Fragment.host) fuel (str "x*") Sample.abab
    (Sample.regex001_lines 2 2) = Diverges.
Proof.
  unfold Part001.scan.
  destruct (Part001.buildPattern (str "x*") (Sample.regex001_lines 2 2)) as [r|] eqn:E;
    [|by vm_compute in E].
  vm_compute in E. injection E as <-.
  eapply scanLoop_filtered_empty_match; [reflexivity|vm_compute; reflexivity|done|].
  vm_compute. reflexivity.
Qed.

(** C8.  The line range of part 001 on an expression that matches
    the empty text: "x*" finds six empty matches in two lines "ab",
    three of them on line 2, and under the range 2 to 2 the scan does
    not come back, whatever the fuel: the match of line 1 is passed
    over by a [continue] that also skips the step over an empty
    match. *)
Theorem lineRange_empty_match :
  (exists ms',
     Part001.scan (host := Fragment.host) 8 (str "x*") Sample.abab
       (without_range (Sample.regex001_lines 2 2)) = Returns ms' /\
     length (List.filter
               (fun a => inRange (Part001.mkLineRange 2 2) (Part001.lineNumber a)) ms') = 3) /\
  (forall fuel,
     Part001.scan (host := Fragment.host) fuel (str "x*") Sample.abab
       (Sample.regex001_lines 2 2) = Diverges).
Proof.
  split; [|exact scan001_filtered_diverges].
  eexists. split; [vm_compute; reflexivity|reflexivity].
Qed.

(** The test of FindReplace.tsx on the line range, which nothing in
    the component sets: run on the range 1 to 1 it compares the
    0-indexed [lineIndex] with the bounds and keeps the match it
    records as that of line 2, where part 001 keeps the match of
    line 1. *)
Example lineRange_index_tsx :
  FindReplaceTsx.scan (host := Fragment.host) 4 (str "ab") Sample.abab
    (Sample.literalTsx_lines 1 1)
  = Returns [FindReplaceTsx.mkMatch 3 5 (str "ab") 2 (str "ab")] /\
  Part001.scan (host := Fragment.host) 4 (str "ab") Sample.abab
    (Sample.literal001_lines 1 1)
  = Returns [Part001.mkMatch 0 2 (str "ab") 1 Sample.abab].
Proof. split; vm_compute; reflexivity. Qed.

(** *** Order of the matches *)

Section ScanOrder.
Context {host : RegExpHost} {ok : RegExpHostOk host} {lit : LiteralHostOk host}.

(** C2, amended.  Whenever a scan returns, its matches are sorted
    strictly ascending by start offset.  In part 001 they do not
    overlap and satisfy [0 <= start <= end <= length T], with
    [start < end] for a literal find text; the scan returns when
    neither a line range nor a context filter is set.  In
    FindReplace.tsx, in a search by regular expression, in a
    case-sensitive search and on ASCII text, they satisfy
    [0 <= start < end <= length T], and do not overlap when the find
    text is a regular expression; the scan of a literal find text
    returns. *)
Theorem scan_matches_ordered :
  (forall fuel P T o ms,
     Part001.scan fuel P T o = Returns ms ->
     (forall i j a b, i < j -> ms !! i = Some a -> ms !! j = Some b ->
        Part001.index a < Part001.index b /\
        Part001.index a + Part001.length a <= Part001.index b) /\
     (forall a, a ∈ ms -> Part001.index a + Part001.length a <= length T) /\
     (Part001.useRegex o = false -> P <> [] ->
      forall a, a ∈ ms -> Part001.index a < Part001.index a + Part001.length a)) /\
  (forall P T o,
     Part001.lineRange o = None -> Part001.contextFilter o = None ->
     Part001.scan (length T + 2) P T o <> Diverges) /\
  (forall fuel P T o ms,
     P <> [] ->
     FindReplaceTsx.useRegex o = true \/ caseFaithful o P T ->
     FindReplaceTsx.scan fuel P T o = Returns ms ->
     (forall i j a b, i < j -> ms !! i = Some a -> ms !! j = Some b ->
        FindReplaceTsx.start a < FindReplaceTsx.start b /\
        (FindReplaceTsx.useRegex o = true ->
         FindReplaceTsx.end_ a <= FindReplaceTsx.start b)) /\
     (forall a, a ∈ ms ->
        FindReplaceTsx.start a < FindReplaceTsx.end_ a <= length T)) /\
  (forall P T o,
     P <> [] -> FindReplaceTsx.useRegex o = false ->
     exists ms, FindReplaceTsx.scan (length T + 2) P T o = Returns ms).
Proof.
  split; [|split; [|split]].
  - intros fuel P T o ms H.
    pose proof (fun Hre Hp => scan001_literal_nonempty fuel P T o ms Hre Hp H) as Hlit.
    apply (scan001_ascending Part001.initialOptions []) in H as [Hasc Hin].
    split; [|split].
    + intros i j a b Hij Ha Hb.
      apply (ascending_lookup 0 _ i j (span001 Part001.initialOptions [] a)
               (span001 Part001.initialOptions [] b)) in Hasc; [done|done|..];
        by rewrite list_lookup_fmap, ?Ha, ?Hb.
    + intros a Ha. unfold within, before in Hin. rewrite Forall_fmap, Forall_forall in Hin.
      exact (Hin a Ha).
    + intros Hre Hp a Ha. specialize (Hlit Hre Hp).
      rewrite Forall_forall in Hlit. specialize (Hlit a Ha). lia.
  - intros. by apply scan001_terminates.
  - intros fuel P T o ms Hp _ H.
    apply (scanTsx_invariant FindReplaceTsx.initialOptions []) in H
      as (Hinc & Hne & Hin & Hasc); [|done]. split.
    + intros i j a b Hij Ha Hb. split.
      * apply (increasing_lookup 0 _ i j (spanTsx FindReplaceTsx.initialOptions [] a)
                 (spanTsx FindReplaceTsx.initialOptions [] b)) in Hinc; [done|done|..];
          by rewrite list_lookup_fmap, ?Ha, ?Hb.
      * intros Hre. specialize (Hasc Hre).
        apply (ascending_lookup 0 _ i j (spanTsx FindReplaceTsx.initialOptions [] a)
                 (spanTsx FindReplaceTsx.initialOptions [] b)) in Hasc; [tauto|done|..];
          by rewrite list_lookup_fmap, ?Ha, ?Hb.
    + intros a Ha. unfold within, before, nonempty in *.
      rewrite Forall_fmap, Forall_forall in Hin, Hne.
      specialize (Hin a Ha). specialize (Hne a Ha). simpl in *. lia.
  - intros. by apply scanTsx_literal_terminates.
Qed.

End ScanOrder.

(** The two "X" of "aXaXa", found by part 001 with the reference
    engine, and the two "x" FindReplace.tsx finds in it when the case
    is ignored. *)
Lemma scan_matches_ordered_witness :
  (exists a b,
     Part001.scan (host := Fragment.host) 7 (str "X") (str "aXaXa") Sample.literal001
       = Returns [a; b] /\
     Part001.index a < Part001.index b /\
     Part001.index a + Part001.length a <= Part001.index b) /\
  (exists a b,
     FindReplaceTsx.scan (host := Fragment.host) 7 (str "x") (str "aXaXa")
       FindReplaceTsx.initialOptions = Returns [a; b] /\
     FindReplaceTsx.start a < FindReplaceTsx.start b).
Proof.
  destruct (scan_matches_ordered (host := Fragment.host)) as (H1 & _ & H3 & _). split.
  - eexists _, _. split; [vm_compute; reflexivity|].
    eapply (H1 7 (str "X") (str "aXaXa") Sample.literal001 _) with (i := 0) (j := 1).
    + vm_compute. reflexivity.
    + lia.
    + reflexivity.
    + reflexivity.
  - eexists _, _. split; [vm_compute; reflexivity|].
    eapply (H3 7 (str "x") (str "aXaXa") FindReplaceTsx.initialOptions _)
      with (i := 0) (j := 1).
    + discriminate.
    + right. right. split; repeat constructor.
    + vm_compute. reflexivity.
    + lia.
    + reflexivity.
    + reflexivity.
Defined.

(** Part 001 records the empty matches of "x*" in "abc", for which
    [start = end]; the literal scan of FindReplace.tsx moves on by one
    position after a match and finds "aa" twice in "aaa", at 0 and at
    1. *)
Lemma scan_matches_counterexample :
  (exists a ms,
     Part001.scan (host := Fragment.host) 6 (str "x*") (str "abc") Sample.regex001
       = Returns (a :: ms) /\
     ~ (Part001.index a < Part001.index a + Part001.length a)) /\
  (exists a b,
     FindReplaceTsx.scan (host := Fragment.host) 5 (str "aa") (str "aaa") Sample.literalTsx
       = Returns [a; b] /\
     ~ (FindReplaceTsx.end_ a <= FindReplaceTsx.start b)).
Proof.
  split.
  - eexists _, _. split; [vm_compute; reflexivity|]. simpl. lia.
  - eexists _, _. split; [vm_compute; reflexivity|]. simpl. lia.
Qed.

(** *** Termination *)

(** C3.  The regex branch of FindReplace.tsx has no step over an
    empty match: with the expression "x*" and the text "abc" its loop
    is still running whatever fuel it is given. *)
Theorem regex_scan_diverges fuel :
  FindReplaceTsx.scan (host := Fragment.host) fuel (str "x*") (str "abc") Sample.regexTsx
  = Diverges.
Proof.
  unfold FindReplaceTsx.scan.
  change (split_char nl (str "abc")) with [str "abc"].
  cbn [FindReplaceTsx.scanLines].
  assert (FindReplaceTsx.scanLine fuel Sample.regexTsx (str "x*") (str "abc") 0 0 []
          = Diverges) as ->; [|done].
  unfold FindReplaceTsx.scanLine.
  change (FindReplaceTsx.outsideRange Sample.regexTsx 0) with false.
  cbn [FindReplaceTsx.useRegex FindReplaceTsx.caseSensitive Sample.regexTsx].
  destruct (RegExp.new (str "x*") flags_g) as [regex|] eqn:E; [|by vm_compute in E].
  vm_compute in E. injection E as <-.
  eapply regexLoop_stuck. vm_compute. reflexivity.
Qed.

(** * The rest of the code *)

(** ** The page of js/app.js *)

Section PageProofs.
Import ColumnSelector.

Lemma rows_elem_of a b r : r ∈ rows a b <-> (a <= r <= b)%Z.
Proof.
  unfold rows. rewrite list_elem_of_fmap. split.
  - intros (k & -> & Hk). apply elem_of_seq in Hk. lia.
  - intros H. exists (Z.to_nat (r - a)). split; [lia|]. apply elem_of_seq. lia.
Qed.

Lemma rows_nonneg a b : (0 <= a)%Z -> Forall (fun r => (0 <= r)%Z) (rows a b).
Proof. intros Ha. apply Forall_forall. intros r Hr. apply rows_elem_of in Hr. lia. Qed.

(** The column loop sets the spans of the columns it visits. *)
Lemma highlightSpans_spec cs spans :
  Forall (fun c => (0 <= c)%Z) cs ->
  exists spans', App.for_each App.highlightSpan spans cs = Some spans' /\
    length spans' = length spans /\
    forall c, spans' !! c = (fun sel => sel || bool_decide (Z.of_nat c ∈ cs)) <$> spans !! c.
Proof.
  intros Hcs. revert spans. induction Hcs as [|c0 cs Hc0 _ IH]; intros spans.
  - exists spans. split; [done|]. split; [done|]. intros c.
    destruct (spans !! c) as [sel|]; cbn [fmap option_fmap option_map]; [|done].
    rewrite bool_decide_eq_false_2 by apply not_elem_of_nil. by rewrite orb_false_r.
  - cbn [App.for_each].
    destruct (Z.ltb_spec c0 (Z.of_nat (length spans))) as [Hlt|Hge].
    + assert (App.highlightSpan spans c0 = Some (<[Z.to_nat c0 := true]> spans)) as ->.
      { unfold App.highlightSpan.
        destruct (Z.ltb_spec c0 (Z.of_nat (length spans))); [|lia].
        by destruct (Z.ltb_spec c0 0); [lia|]. }
      cbn [mbind option_bind].
      destruct (IH (<[Z.to_nat c0 := true]> spans)) as (spans' & -> & Hlen & Hlook).
      exists spans'. split; [done|]. rewrite length_insert in Hlen. split; [done|].
      intros c. rewrite Hlook.
      destruct (decide (c = Z.to_nat c0)) as [->|Hne].
      * rewrite list_lookup_insert_eq by lia.
        destruct (spans !! Z.to_nat c0) as [sel|] eqn:E.
        2:{ apply lookup_ge_None in E. lia. }
        cbn [fmap option_fmap option_map]. f_equal.
        rewrite (bool_decide_eq_true_2 (_ ∈ c0 :: cs)).
        -- by rewrite orb_true_r.
        -- rewrite Z2Nat.id by lia. left.
      * rewrite list_lookup_insert_ne by done.
        destruct (spans !! c) as [sel|]; cbn [fmap option_fmap option_map]; [|done].
        f_equal. f_equal.
        apply bool_decide_ext. rewrite elem_of_cons. split; [tauto|].
        intros [Heq|?]; [lia|done].
    + assert (App.highlightSpan spans c0 = Some spans) as ->.
      { unfold App.highlightSpan.
        by destruct (Z.ltb_spec c0 (Z.of_nat (length spans))); [lia|]. }
      cbn [mbind option_bind].
      destruct (IH spans) as (spans' & -> & Hlen & Hlook).
      exists spans'. split; [done|]. split; [done|].
      intros c. rewrite Hlook.
      destruct (spans !! c) as [sel|] eqn:E; cbn [fmap option_fmap option_map]; [|done].
      f_equal. f_equal.
      apply bool_decide_ext. rewrite elem_of_cons. split; [tauto|].
      intros [Heq|?]; [|done]. apply lookup_lt_Some in E. lia.
Qed.

(** On a row without selection the column loop leaves the band of
    the columns [a] to [b]. *)
Lemma highlightSpans_band a b n :
  (0 <= a)%Z ->
  App.for_each App.highlightSpan (replicate n false) (rows a b) = Some (band a b n).
Proof.
  intros Ha.
  destruct (highlightSpans_spec (rows a b) (replicate n false) (rows_nonneg a b Ha))
    as (spans' & -> & Hlen & Hlook).
  f_equal. apply list_eq. intros c. rewrite Hlook. unfold band.
  rewrite list_lookup_fmap.
  destruct (decide (c < n)) as [Hc|Hc].
  - rewrite lookup_replicate_2, lookup_seq_lt by done. simpl. f_equal.
    apply bool_decide_ext, rows_elem_of.
  - rewrite (proj1 (lookup_replicate_None n false c)), lookup_seq_ge by lia. done.
Qed.

Lemma band_length a b n : length (band a b n) = n.
Proof. unfold band. by rewrite length_fmap, length_seq. Qed.

Lemma band_lookup a b n c :
  band a b n !! c = if decide (c < n) then Some (bool_decide (a <= Z.of_nat c <= b)%Z) else None.
Proof.
  unfold band. rewrite list_lookup_fmap. destruct (decide (c < n)).
  - by rewrite lookup_seq_lt.
  - by rewrite lookup_seq_ge by lia.
Qed.

(** Highlighting the same columns again changes nothing. *)
Lemma highlightSpans_band_again a b n :
  (0 <= a)%Z ->
  App.for_each App.highlightSpan (band a b n) (rows a b) = Some (band a b n).
Proof.
  intros Ha.
  destruct (highlightSpans_spec (rows a b) (band a b n) (rows_nonneg a b Ha))
    as (spans' & -> & Hlen & Hlook).
  f_equal. apply list_eq. intros c. rewrite Hlook, band_lookup.
  destruct (decide (c < n)); [|done]. cbn [fmap option_fmap option_map]. f_equal.
  rewrite (bool_decide_ext (Z.of_nat c ∈ rows a b) (a <= Z.of_nat c <= b)%Z)
    by apply rows_elem_of.
  by destruct (bool_decide _).
Qed.

(** The overlay of rows of [ns] spans in which the rows of [rs] carry
    the band. *)
Local Abbreviation banded a b rs ns :=
  (imap (fun r n => if bool_decide (Z.of_nat r ∈ rs) then band a b n
                    else replicate n false) ns).

Lemma highlightRows_spec a b ns rs seen :
  (0 <= a)%Z -> Forall (fun r => (0 <= r)%Z) rs ->
  App.for_each (App.highlightRow a b) (banded a b seen ns) rs
  = Some (banded a b (rs ++ seen) ns).
Proof.
  intros Ha Hrs. revert seen. induction Hrs as [|r0 rs Hr0 _ IH]; intros seen; [done|].
  cbn [App.for_each].
  assert (App.highlightRow a b (banded a b seen ns) r0 = Some (banded a b (r0 :: seen) ns))
    as ->.
  { unfold App.highlightRow. rewrite length_imap.
    destruct (Z.geb_spec r0 (Z.of_nat (length ns))) as [Hge|Hlt].
    - f_equal. apply imap_ext. intros r n Hr. apply lookup_lt_Some in Hr.
      rewrite (bool_decide_ext (Z.of_nat r ∈ seen) (Z.of_nat r ∈ r0 :: seen)); [done|].
      rewrite elem_of_cons. split; [tauto|].
      intros [Heq|?]; [lia|done].
    - destruct (Z.ltb_spec r0 0) as [?|_]; [lia|].
      rewrite list_lookup_imap.
      destruct (ns !! Z.to_nat r0) as [n|] eqn:En.
      2:{ apply lookup_ge_None in En. lia. }
      cbn [fmap option_fmap option_map mbind option_bind].
      assert (App.for_each App.highlightSpan
                (if bool_decide (Z.of_nat (Z.to_nat r0) ∈ seen) then band a b n
                 else replicate n false) (rows a b) = Some (band a b n)) as ->.
      { destruct (bool_decide _);
          [by apply highlightSpans_band_again|by apply highlightSpans_band]. }
      cbn [mbind option_bind]. f_equal. apply list_eq. intros r.
      rewrite list_lookup_imap.
      destruct (decide (r = Z.to_nat r0)) as [->|Hne].
      + rewrite list_lookup_insert_eq by (rewrite length_imap; lia).
        rewrite En. cbn [fmap option_fmap option_map].
        rewrite bool_decide_eq_true_2; [done|]. rewrite Z2Nat.id by lia. left.
      + rewrite list_lookup_insert_ne by done. rewrite list_lookup_imap.
        destruct (ns !! r) as [m|]; cbn [fmap option_fmap option_map]; [|done].
        rewrite (bool_decide_ext (Z.of_nat r ∈ seen) (Z.of_nat r ∈ r0 :: seen)); [done|].
        rewrite elem_of_cons. split; [tauto|].
        intros [Heq|?]; [lia|done]. }
  cbn [mbind option_bind]. rewrite IH. f_equal. apply imap_ext. intros r n _.
  rewrite (bool_decide_ext (Z.of_nat r ∈ rs ++ r0 :: seen) (Z.of_nat r ∈ (r0 :: rs) ++ seen));
    [done|].
  rewrite ?elem_of_app, ?elem_of_cons, ?elem_of_app. tauto.
Qed.

Lemma blank_banded a b value :
  blank value = banded a b [] ((fun line : text => Nat.max 1 (length line)) <$> split_char nl value).
Proof.
  unfold blank. rewrite imap_fmap. rewrite <- (imap_const _ (split_char nl value)).
  apply imap_ext. by intros r line _.
Qed.

Lemma shown_banded s value :
  shown s value
  = banded (minCol s) (maxCol s) (rows (minRow s) (maxRow s) ++ [])
      ((fun line : text => Nat.max 1 (length line)) <$> split_char nl value).
Proof.
  unfold shown. rewrite imap_fmap. apply imap_ext. intros r line _. simpl.
  rewrite app_nil_r.
  by rewrite (bool_decide_ext _ _ (rows_elem_of (minRow s) (maxRow s) (Z.of_nat r))).
Qed.

(** [highlightColumns] on an overlay with nothing selected. *)
Lemma highlightColumns_blank value s :
  (0 <= minRow s)%Z -> (0 <= minCol s)%Z ->
  App.highlightColumns (App.mkPage value s (blank value))
  = Some (App.mkPage value s (shown s value)).
Proof.
  intros Hr Hc. unfold App.highlightColumns. simpl.
  fold (minRow s) (maxRow s) (minCol s) (maxCol s).
  rewrite (blank_banded (minCol s) (maxCol s)), highlightRows_spec
    by (done || by apply rows_nonneg).
  by rewrite <- shown_banded.
Qed.

Lemma mirrors_blank value : mirrors (blank value) value.
Proof.
  unfold mirrors, blank. rewrite <- list_fmap_compose. apply list_fmap_ext.
  intros i line _. simpl. by rewrite length_replicate.
Qed.

Lemma mirrors_shown s value : mirrors (shown s value) value.
Proof.
  unfold mirrors, shown. rewrite fmap_imap. rewrite <- (imap_const _ (split_char nl value)).
  apply imap_ext. intros r line _. simpl.
  destruct (bool_decide _); [apply band_length|apply length_replicate].
Qed.

Lemma fmap_false {A} (l : list A) : (fun _ => false) <$> l = replicate (length l) false.
Proof. induction l as [|x l IH]; [done|]. rewrite fmap_cons. simpl. by f_equal. Qed.

Lemma clearSelection_blank p :
  mirrors (App.overlay p) (App.value p) ->
  App.clearSelection p = App.mkPage (App.value p) (App.selectionState p) (blank (App.value p)).
Proof.
  unfold mirrors, App.clearSelection, blank. intros H. f_equal.
  apply list_eq. intros r. rewrite !list_lookup_fmap.
  apply (f_equal (fun l => l !! r)) in H. rewrite !list_lookup_fmap in H.
  destruct (App.overlay p !! r) as [spans|], (split_char nl (App.value p) !! r) as [line|];
    simpl in *; try done.
  injection H as <-. f_equal. apply fmap_false.
Qed.

Lemma updateOverlay_blank p :
  App.updateOverlay p = App.mkPage (App.value p) (App.selectionState p) (blank (App.value p)).
Proof.
  unfold App.updateOverlay, blank. f_equal. apply list_fmap_ext. intros i line _.
  destruct line as [|x line]; [done|]. rewrite bool_decide_eq_false_2 by done.
  by rewrite fmap_false.
Qed.

Lemma hasSelection_blank value s : App.hasSelection (App.mkPage value s (blank value)) = false.
Proof.
  unfold App.hasSelection, blank. simpl.
  induction (split_char nl value) as [|line lines IH]; [done|].
  rewrite fmap_cons. cbn [existsb]. rewrite IH, orb_false_r.
  generalize (Nat.max 1 (length line)). intros n. by induction n.
Qed.

Lemma gridPosition_on_grid m T ev pos :
  gridPosition m T ev = Some pos -> (0 <= row pos)%Z /\ (0 <= col pos)%Z.
Proof.
  unfold gridPosition. destruct (_ && _); [done|]. intros [= <-]. simpl. lia.
Qed.

(** Every cell of a line of the text is the position of some
    pointer. *)
Lemma gridPosition_onto (T : text) (r c : nat) :
  r < length (split_char nl T) ->
  exists m ev,
    measured m /\
    gridPosition m T ev = Some (mkPosition (Z.of_nat r) (Z.of_nat c)).
Proof.
  intros Hr.
  exists (mkMetrics 1 1 0 0 0 0 0 0),
         (mkMouseEvent (inject_Z (Z.of_nat c)) (inject_Z (Z.of_nat r)) false false).
  split; [done|]. unfold gridPosition.
  cbn [clientX clientY rectLeft rectTop paddingLeft paddingTop scrollLeft scrollTop
       charWidth lineHeight].
  assert (Hq : forall z : Z, Qfloor ((inject_Z z - 0 - 0 + 0) / 1) = z).
  { intros z. rewrite <- (Qfloor_Z z) at 2. apply Qfloor_comp. field. }
  rewrite !Hq.
  destruct (Z.geb_spec (Z.max 0 (Z.of_nat r)) (Z.of_nat (length (split_char nl T))));
    [lia|]. simpl. f_equal. f_equal; lia.
Qed.

Lemma onGrid_bounds s : onGrid s -> (0 <= minRow s)%Z /\ (0 <= minCol s)%Z.
Proof. unfold onGrid, minRow, minCol. lia. Qed.

Lemma selectedAt_shown value s r c :
  selectedAt (App.mkPage value s (shown s value)) r c <->
  (minRow s <= Z.of_nat r <= maxRow s)%Z /\ (minCol s <= Z.of_nat c <= maxCol s)%Z /\
  exists line, split_char nl value !! r = Some line /\ c < Nat.max 1 (length line).
Proof.
  unfold selectedAt, shown. simpl. split.
  - intros (spans & Hr & Hc). apply list_lookup_imap_Some in Hr as (line & Hl & ->).
    destruct (bool_decide_reflect (minRow s <= Z.of_nat r <= maxRow s)%Z) as [Hin|Hout].
    + rewrite band_lookup in Hc. destruct (decide (c < _)) as [Hlt|]; [|done].
      injection Hc as Hc. apply bool_decide_eq_true in Hc. eauto.
    + apply lookup_replicate in Hc as [? _]. done.
  - intros (Hr & Hc & line & Hl & Hlt). eexists. split.
    + apply list_lookup_imap_Some. eauto.
    + simpl. rewrite bool_decide_eq_true_2 by done. rewrite band_lookup.
      destruct (decide (c < _)); [|done]. by rewrite bool_decide_eq_true_2.
Qed.

(** X1.  On a page whose selection is on the grid and whose overlay
    mirrors the text, clearing the selection and highlighting again
    comes back, leaves text and selection as they are, and selects
    exactly the spans of the rectangle of the selection that the
    overlay has: those of the rows [minRow] to [maxRow] and the
    columns [minCol] to [maxCol], the single span of an empty line
    counting as column 0. *)
Theorem highlight_rectangle (p : App.Page) :
  onGrid (App.selectionState p) -> mirrors (App.overlay p) (App.value p) ->
  exists p',
    App.highlightColumns (App.clearSelection p) = Some p' /\
    App.value p' = App.value p /\
    App.selectionState p' = App.selectionState p /\
    forall r c : nat,
      selectedAt p' r c <->
      (minRow (App.selectionState p) <= Z.of_nat r <= maxRow (App.selectionState p))%Z /\
      (minCol (App.selectionState p) <= Z.of_nat c <= maxCol (App.selectionState p))%Z /\
      exists line, split_char nl (App.value p) !! r = Some line /\
                   c < Nat.max 1 (length line).
Proof.
  intros Hg Hm. apply onGrid_bounds in Hg as [Hr Hc].
  rewrite clearSelection_blank, highlightColumns_blank by done.
  eexists. split; [done|]. split; [done|]. split; [done|].
  intros r c. apply selectedAt_shown.
Qed.

(** A drag from row 0, column 1 to row 3, column 2 over two lines of
    four characters. *)
Lemma highlight_rectangle_witness :
  exists p',
    App.highlightColumns
      (App.clearSelection (App.mkPage Sample.twoLines Sample.drag (blank Sample.twoLines)))
    = Some p' /\
    (selectedAt p' 1 2 <->
     (0 <= 1 <= 3)%Z /\ (1 <= 2 <= 2)%Z /\
     exists line, split_char nl Sample.twoLines !! 1%nat = Some line /\
                  2 < Nat.max 1 (length line)).
Proof.
  destruct (highlight_rectangle
              (App.mkPage Sample.twoLines Sample.drag (blank Sample.twoLines)))
    as (p' & H & _ & _ & Hcells).
  - unfold onGrid. simpl. lia.
  - reflexivity.
  - exists p'. split; [exact H|]. exact (Hcells 1 2).
Defined.

Lemma shown_sameCorners s s' value : sameCorners s s' -> shown s' value = shown s value.
Proof.
  intros (Hx & Hy & Hx' & Hy'). unfold shown, minRow, maxRow, minCol, maxCol.
  by rewrite Hx, Hy, Hx', Hy'.
Qed.

Lemma onGrid_sameCorners s s' : sameCorners s s' -> onGrid s -> onGrid s'.
Proof. intros (Hx & Hy & Hx' & Hy'). unfold onGrid. by rewrite Hx, Hy, Hx', Hy'. Qed.

(** The end of the selection moved to a cell, the selection cleared
    and highlighted again. *)
Lemma drag_to p pos :
  tidy p -> (0 <= row pos)%Z -> (0 <= col pos)%Z ->
  let s := App.endAt (App.selectionState p) pos in
  App.highlightColumns (App.clearSelection (App.set_selection p s))
  = Some (App.mkPage (App.value p) s (shown s (App.value p))) /\ onGrid s.
Proof.
  intros [(Hx & Hy & _ & _) Hm] Hr Hc s.
  assert (Hg : onGrid s) by (unfold onGrid, s; simpl; lia).
  split; [|done]. apply onGrid_bounds in Hg as [? ?].
  rewrite clearSelection_blank by done. simpl. by apply highlightColumns_blank.
Qed.

(** What a listener leaves of a tidy page: it comes back; the
    selection stays on the grid; and the overlay shows nothing, or the
    rectangle of the selection, or what it showed before, in which case
    text and corners are as before unless the event is a [mousedown]
    with a modifier key. *)
Lemma dispatch_cases p e :
  tidy p ->
  exists p', App.dispatch p e = Some p' /\
    onGrid (App.selectionState p') /\
    (App.overlay p' = blank (App.value p') \/
     App.overlay p' = shown (App.selectionState p') (App.value p') \/
     (App.overlay p' = App.overlay p /\ App.value p' = App.value p /\
      (sameCorners (App.selectionState p) (App.selectionState p') \/ ~ plain e))).
Proof.
  intros Ht. pose proof Ht as [Hg Hm].
  assert (Hsame : sameCorners (App.selectionState p) (App.selectionState p)) by done.
  destruct e as [newValue| |m ev|m ev|m ev| | |]; cbn [App.dispatch].
  - eexists. split; [done|]. unfold App.handleInput.
    rewrite updateOverlay_blank, clearSelection_blank by apply mirrors_blank.
    simpl. split; [done|]. by left.
  - eexists. split; [done|]. unfold App.handleClick.
    destruct (justFinishedDragging _).
    + simpl. split; [done|]. right. right. repeat split. by left.
    + destruct (App.hasSelection p).
      * rewrite clearSelection_blank by done. simpl. split; [done|]. by left.
      * split; [done|]. right. right. repeat split. by left.
  - eexists. split; [done|]. unfold App.handleMouseDown. cbn [negb].
    destruct (ColumnSelector.gridPosition m (App.value p) ev) as [pos|] eqn:E.
    2:{ split; [done|]. right. right. repeat split. by left. }
    apply gridPosition_on_grid in E as [Hr Hc].
    assert (onGrid (App.startAt (App.selectionState p) pos))
      by (unfold onGrid; simpl; lia).
    destruct (ctrlKey ev) eqn:Ec; [|destruct (metaKey ev) eqn:Em]; cbn [negb andb].
    + split; [done|]. right. right. repeat split. right.
      unfold plain. rewrite Ec. intros (_ & ? & _). done.
    + split; [done|]. right. right. repeat split. right.
      unfold plain. rewrite Em. intros (_ & _ & ?). done.
    + rewrite clearSelection_blank by done. simpl. split; [done|]. by left.
  - unfold App.handleMouseMove. destruct (active _); cbn [negb].
    2:{ eexists. split; [done|]. split; [done|]. right. right. repeat split. by left. }
    destruct (ColumnSelector.gridPosition m (App.value p) ev) as [pos|] eqn:E.
    2:{ eexists. split; [done|]. split; [done|]. right. right. repeat split. by left. }
    apply gridPosition_on_grid in E as [Hr Hc].
    destruct (drag_to p pos Ht Hr Hc) as [-> Hg']. eexists. split; [done|].
    simpl. split; [done|]. right. by left.
  - unfold App.handleMouseUp. destruct (active _) eqn:Ea; cbn [negb].
    2:{ cbn [fmap option_fmap option_map]. unfold App.handleWindowMouseUp. rewrite Ea.
        eexists. split; [done|]. split; [done|]. right. right. repeat split. by left. }
    destruct (ColumnSelector.gridPosition m (App.value p) ev) as [pos|] eqn:E.
    + apply gridPosition_on_grid in E as [Hr Hc].
      destruct (drag_to p pos Ht Hr Hc) as [-> Hg']. eexists. split; [done|].
      simpl. split; [done|]. right. left.
      by apply shown_sameCorners.
    + eexists. split; [done|]. simpl. split; [done|]. right. right. repeat split. by left.
  - eexists. split; [done|]. unfold App.handleWindowMouseUp.
    destruct (active _); (split; [done|]); right; right; repeat split; by left.
  - eexists. split; [done|]. unfold App.handleClear.
    rewrite updateOverlay_blank. simpl. split; [done|]. by left.
  - eexists. split; [done|]. unfold App.loadDemoText.
    rewrite updateOverlay_blank. simpl. split; [done|]. by left.
Qed.


Lemma faithful_tidy p : faithful p -> tidy p.
Proof.
  intros [Hg [H|H]]; (split; [done|]); rewrite H;
    [apply mirrors_blank|apply mirrors_shown].
Qed.

Lemma dispatch_faithful p e p' :
  faithful p -> plain e -> App.dispatch p e = Some p' -> faithful p'.
Proof.
  intros Hf Hp H. destruct (dispatch_cases p e (faithful_tidy p Hf)) as (q & Hq & Hg & Hov).
  assert (q = p') as -> by congruence.
  split; [done|]. destruct Hov as [?|[?|(Ho & Hv & [Hs|?])]]; [by left|by right| |done].
  rewrite Ho, Hv. destruct Hf as [_ [->| ->]]; [by left|right].
  symmetry. by apply shown_sameCorners.
Qed.

Lemma init_faithful value : faithful (App.init value).
Proof.
  unfold App.init. rewrite updateOverlay_blank. split; [|by left].
  unfold onGrid. simpl. lia.
Qed.

Lemma for_each_invariant (I : App.Page -> Prop) (es : list App.Event) p p' :
  (forall q e q', e ∈ es -> I q -> App.dispatch q e = Some q' -> I q') ->
  I p -> App.for_each App.dispatch p es = Some p' -> I p'.
Proof.
  revert p. induction es as [|e es IH]; intros p Hstep Hp; [by intros [= <-]|].
  cbn [App.for_each]. destruct (App.dispatch p e) as [q|] eqn:E; [|done].
  cbn [mbind option_bind]. apply IH.
  - intros q0 e0 q0' He0. apply Hstep. by right.
  - eapply Hstep; [left|done|done].
Qed.



Lemma picked_elem_of line spans x : x ∈ picked line spans -> x ∈ line.
Proof.
  revert spans. induction line as [|y line IH]; intros [|b spans]; simpl;
    try (by intros ?%elem_of_nil).
  destruct b.
  - rewrite !elem_of_cons. intros [->|H]; [by left|right; by eapply IH].
  - intros H. right. by eapply IH.
Qed.

Lemma picked_nil_r line : picked line [] = [].
Proof. by destruct line. Qed.

(** The characters of a line under a band of flags. *)
Lemma picked_band a b line k n :
  length line <= n ->
  picked line ((fun c => bool_decide (a <= Z.of_nat c <= b)%Z) <$> seq k n)
  = take (Z.to_nat (b + 1 - Z.max a (Z.of_nat k)))
      (drop (Z.to_nat (a - Z.of_nat k)) line).
Proof.
  revert k n. induction line as [|x line IH]; intros k n Hn.
  { by rewrite drop_nil, take_nil. }
  destruct n as [|n]; [simpl in Hn; lia|]. simpl in Hn.
  cbn [seq fmap list_fmap picked]. rewrite (IH (S k) n) by lia.
  destruct (bool_decide_reflect (a <= Z.of_nat k <= b)%Z) as [Hin|Hout].
  - replace (Z.to_nat (a - Z.of_nat k)) with 0 by lia.
    replace (Z.to_nat (a - Z.of_nat (S k))) with 0 by lia.
    replace (Z.to_nat (b + 1 - Z.max a (Z.of_nat k)))
      with (S (Z.to_nat (b + 1 - Z.max a (Z.of_nat (S k))))) by lia.
    done.
  - destruct (Z.lt_ge_cases (Z.of_nat k) a) as [Hlt|Hge].
    + replace (Z.to_nat (a - Z.of_nat k)) with (S (Z.to_nat (a - Z.of_nat (S k)))) by lia.
      replace (Z.max a (Z.of_nat (S k))) with a by lia.
      replace (Z.max a (Z.of_nat k)) with a by lia.
      done.
    + replace (Z.to_nat (b + 1 - Z.max a (Z.of_nat k))) with 0 by lia.
      replace (Z.to_nat (b + 1 - Z.max a (Z.of_nat (S k)))) with 0 by lia.
      done.
Qed.

Lemma take_min {A} (l : list A) n m :
  Nat.min n (length l) = Nat.min m (length l) -> take n l = take m l.
Proof.
  intros H. destruct (decide (n <= length l)), (decide (m <= length l)).
  - by replace n with m by lia.
  - rewrite (take_ge l m) by lia. replace n with (length l) by lia. by rewrite take_ge.
  - rewrite (take_ge l n) by lia. replace m with (length l) by lia. by rewrite take_ge.
  - by rewrite !take_ge by lia.
Qed.

(** X3.  The metrics [getPositionFromEvent] divides by are
    positive whenever the font size is, and the line height of the
    style, if it is a number, is not negative: a measuring span
    without width falls back on the font size, and so does a line
    height that is [normal] or zero. *)
Theorem metrics_measured (width : Q) (style : App.Style) (box : App.Box) :
  (0 < App.fontSize style)%Q ->
  (forall h, App.styleLineHeight style = Some h -> (0 <= h)%Q) ->
  measured (App.metricsOf width style box).
Proof.
  intros Hf Hh. split; simpl.
  - unfold App.measureCharWidth. destruct (Qlt_le_dec 0 width); [done|].
    apply Qmult_lt_0_compat; [done|reflexivity].
  - unfold App.measureLineHeight.
    destruct (App.styleLineHeight style) as [h|] eqn:E.
    2:{ apply Qmult_lt_0_compat; [done|reflexivity]. }
    destruct (Qeq_bool h 0) eqn:Eq.
    { apply Qmult_lt_0_compat; [done|reflexivity]. }
    apply Qeq_bool_neq in Eq. specialize (Hh h eq_refl).
    apply Qle_lteq in Hh as [?|Heq]; [done|]. exfalso. apply Eq. by symmetry.
Qed.

(** A font of 14 px whose line height is [normal], and a measuring
    span that has no width. *)
Lemma metrics_measured_witness :
  measured (App.metricsOf 0 (App.mkStyle 14 None 8 8) (App.mkBox 10 20 0 0)).
Proof.
  apply metrics_measured.
  - reflexivity.
  - intros h [=].
Defined.



(** On the rows of the selection, the entry [getSelectedText]
    extracts is made of the characters the overlay shows selected. *)
Lemma selectedLine_highlighted value s r :
  onGrid s -> (minRow s <= r <= maxRow s)%Z ->
  selectedLine (split_char nl value) (minCol s) (maxCol s) r
  = Some (highlighted (App.mkPage value s (shown s value)) (Z.to_nat r)).
Proof.
  intros Hg Hr. pose proof (onGrid_bounds s Hg) as [Hr0 Hc0].
  assert (Hcols : (minCol s <= maxCol s)%Z) by (unfold minCol, maxCol; lia).
  assert (Hshown : forall line,
            split_char nl value !! Z.to_nat r = line ->
            highlighted (App.mkPage value s (shown s value)) (Z.to_nat r)
            = picked (default [] line)
                (default [] ((fun l : text => band (minCol s) (maxCol s)
                                                (Nat.max 1 (length l))) <$> line))).
  { intros line El. unfold highlighted, shown. cbn [App.value App.overlay].
    rewrite list_lookup_imap. unfold text in *. rewrite El.
    destruct line as [line|]; [|done]. simpl.
    rewrite bool_decide_eq_true_2 by lia. done. }
  rewrite (Hshown _ eq_refl). clear Hshown. change (list ascii) with text.
  unfold selectedLine.
  destruct (Z.geb_spec r (Z.of_nat (length (split_char nl value)))) as [Hge|Hlt].
  { rewrite (proj2 (lookup_ge_None (split_char nl value) (Z.to_nat r))) by lia. done. }
  destruct (Z.ltb_spec r 0) as [?|_]; [lia|].
  destruct (split_char nl value !! Z.to_nat r) as [line|] eqn:El.
  2:{ apply lookup_ge_None in El. lia. }
  simpl. unfold band.
  rewrite picked_band by lia. simpl.
  replace (Z.max (minCol s) 0) with (minCol s) by lia. rewrite Z.sub_0_r.
  unfold len. destruct (Z.gtb_spec (Z.min (maxCol s + 1) (Z.of_nat (length line)))
                          (Z.min (minCol s) (Z.of_nat (length line)))) as [Hgt|Hle].
  - f_equal. unfold slice, rel_index.
    destruct (Z.ltb_spec (Z.min (minCol s) (Z.of_nat (length line))) 0) as [?|_]; [lia|].
    destruct (Z.ltb_spec (Z.min (maxCol s + 1) (Z.of_nat (length line))) 0) as [?|_]; [lia|].
    replace (Z.to_nat (Z.min (Z.min (minCol s) (Z.of_nat (length line)))
                         (Z.of_nat (length line)))) with (Z.to_nat (minCol s)) by lia.
    apply take_min. rewrite length_drop. lia.
  - f_equal. rewrite drop_ge by lia. by rewrite take_nil.
Qed.

Lemma mapM_total {A B} (f : A -> option B) (g : A -> B) (l : list A) :
  Forall (fun x => f x = Some (g x)) l -> mapM f l = Some (g <$> l).
Proof.
  intros H. apply mapM_Some. induction H; [constructor|]. by constructor.
Qed.

(** X4.  What is copied is what is highlighted.  After any events
    with measured metrics and no [mousedown] under the control or meta
    key, if [handleCopy] hands a text to the clipboard, then that text
    has one entry per row of the selection, entry by entry the
    characters the overlay shows selected in that row; and nothing is
    selected outside the rows and columns of the selection. *)
Theorem copy_is_highlight (value : text) (events : list App.Event) (p : App.Page)
  (t : text) :
  Forall plain events ->
  App.for_each App.dispatch (App.init value) events = Some p ->
  App.handleCopy p = Some (App.CopyToClipboard t) ->
  let s := App.selectionState p in
  split_char nl t = (fun r => highlighted p (Z.to_nat r)) <$> rows (minRow s) (maxRow s) /\
  forall r c : nat, selectedAt p r c ->
    (minRow s <= Z.of_nat r <= maxRow s)%Z /\ (minCol s <= Z.of_nat c <= maxCol s)%Z.
Proof.
  intros Hplain Hrun Hcopy s.
  assert (Hf : faithful p).
  { eapply (for_each_invariant faithful); [|apply init_faithful|exact Hrun].
    intros q e q' He Hq. apply dispatch_faithful; [done|].
    rewrite Forall_forall in Hplain. by apply Hplain. }
  destruct Hf as [Hg Hov]. destruct p as [v s0 ov]. simpl in *. subst s.
  unfold App.handleCopy in Hcopy.
  destruct Hov as [->| ->].
  { by rewrite hasSelection_blank in Hcopy. }
  split.
  - destruct (App.hasSelection _); cbn [negb] in Hcopy; [|done].
    unfold AppJs.getSelectedText, getSelectedText in Hcopy. simpl in Hcopy.
    fold (minRow s0) (maxRow s0) (minCol s0) (maxCol s0) in Hcopy.
    rewrite (mapM_total _ (fun r => highlighted (App.mkPage v s0 (shown s0 v)) (Z.to_nat r)))
      in Hcopy.
    2:{ apply Forall_forall. intros r Hr. apply rows_elem_of in Hr.
        by apply selectedLine_highlighted. }
    cbn [mbind option_bind] in Hcopy. destruct (bool_decide _); [done|].
    injection Hcopy as <-. apply split_char_join.
    + unfold rows. intros H. apply fmap_nil_inv, fmap_nil_inv in H.
      apply (f_equal length) in H. rewrite length_seq in H. simpl in H.
      unfold minRow, maxRow in H. lia.
    + apply Forall_fmap, Forall_forall. intros r _ Hin.
      apply picked_elem_of in Hin. simpl in Hin.
      destruct (split_char nl v !! Z.to_nat r) as [line|] eqn:El; simpl in Hin.
      * pose proof (split_char_no_sep nl v) as Hno. rewrite Forall_forall in Hno.
        eapply Hno; [|exact Hin]. by eapply list_elem_of_lookup_2.
      * by apply elem_of_nil in Hin.
  - intros r c Hsel. apply selectedAt_shown in Hsel. tauto.
Qed.

(** The first column of two lines, dragged over and copied. *)
Lemma copy_is_highlight_witness :
  exists p,
    App.for_each App.dispatch (App.init Sample.twoLines) Cases.dragDown = Some p /\
    App.handleCopy p = Some (App.CopyToClipboard (str "a" ++ nl :: str "e")) /\
    split_char nl (str "a" ++ nl :: str "e")
    = (fun r => highlighted p (Z.to_nat r))
        <$> rows (minRow (App.selectionState p)) (maxRow (App.selectionState p)).
Proof.
  eexists. split; [vm_compute; reflexivity|]. split; [vm_compute; reflexivity|].
  refine (proj1 (copy_is_highlight Sample.twoLines Cases.dragDown _ _ _ _ _)).
  - repeat constructor.
  - vm_compute. reflexivity.
  - vm_compute. reflexivity.
Defined.

(** X5.  The block [getSelectedText] extracts is never wider than the
    selection: for a selection on the grid, every entry of the output
    has at most [maxCol - minCol + 1] characters, exactly that many on
    a line that reaches [maxCol], and none on a line that does not
    reach [minCol] or past the end of the text. *)
Theorem selected_width (T : text) (s : SelectionState) :
  onGrid s ->
  exists out,
    AppJs.getSelectedText T s = Some out /\
    Part000.getSelectedText T s = Some out /\
    forall (k : nat) (e : text),
      split_char nl out !! k = Some e ->
      (Z.of_nat (length e) <= colCount s)%Z /\
      match split_char nl T !! (Z.to_nat (minRow s) + k) with
      | Some line =>
          ((maxCol s < len line)%Z -> Z.of_nat (length e) = colCount s) /\
          ((len line <= minCol s)%Z -> e = [])
      | None => e = []
      end.
Proof.
  intros Hg. destruct (onGrid_bounds s Hg) as [Hr Hc].
  assert (Hcols : (minCol s <= maxCol s)%Z) by (unfold minCol, maxCol; lia).
  unfold AppJs.getSelectedText, Part000.getSelectedText, getSelectedText.
  fold (minRow s) (maxRow s) (minCol s) (maxCol s).
  destruct (mapM_selectedLine (split_char nl T) (minCol s) (maxCol s)
              (rows (minRow s) (maxRow s)) Hc (rows_nonneg _ _ Hr)) as (es & -> & HF).
  cbn [mbind option_bind]. eexists. split; [done|]. split; [done|].
  assert (Hsplit : split_char nl (join nl es) = es).
  { apply split_char_join.
    - intros ->. apply Forall2_length in HF. unfold rows in HF.
      rewrite length_map, length_seq in HF. simpl in HF. unfold minRow, maxRow in HF. lia.
    - eapply Forall2_Forall_r; [exact HF|]. apply Forall_forall.
      intros r _ e [_ Hnl]. apply Hnl, split_char_no_sep. }
  rewrite Hsplit. intros k e He.
  destruct (Forall2_lookup_r _ _ _ _ _ HF He) as (r & Hrow & [Hlast Hline] & _).
  assert (Hk : k < Z.to_nat (maxRow s - minRow s + 1)).
  { apply lookup_lt_Some in Hrow. unfold rows in Hrow.
    by rewrite length_map, length_seq in Hrow. }
  rewrite rows_lookup in Hrow by done. injection Hrow as <-.
  unfold colCount.
  destruct (split_char nl T !! (Z.to_nat (minRow s) + k)) as [line|] eqn:El.
  - specialize (Hline line ltac:(lia)).
    replace (Z.to_nat (minRow s + Z.of_nat k)) with (Z.to_nat (minRow s) + k) in Hline by lia.
    destruct (Hline El) as [Hempty Hslice]. unfold len in *.
    destruct (Z.le_gt_cases (Z.min (maxCol s + 1) (Z.of_nat (length line)))
                (Z.min (minCol s) (Z.of_nat (length line)))) as [Hle|Hgt].
    + rewrite (Hempty Hle). simpl. split; [lia|]. split; [lia|done].
    + rewrite (Hslice ltac:(lia)). rewrite length_take, length_drop.
      split; [lia|]. split; [lia|]. intros ?. lia.
  - apply lookup_ge_None in El. rewrite Hlast by lia. simpl. split; [lia|done].
Qed.

(** Columns 1 to 2 of rows 0 to 3 of two lines of four characters. *)
Lemma selected_width_witness :
  exists out,
    AppJs.getSelectedText Sample.twoLines Sample.drag = Some out /\
    forall (k : nat) (e : text),
      split_char nl out !! k = Some e -> (Z.of_nat (length e) <= 2)%Z.
Proof.
  destruct (selected_width Sample.twoLines Sample.drag) as (out & H & _ & Hw).
  - unfold onGrid. simpl. lia.
  - exists out. split; [exact H|]. intros k e He. exact (proj1 (Hw k e He)).
Defined.




End PageProofs.

(** ** The panel of part 001 *)

Section PanelProofs.

Lemma replacedText001_nil o R T : Part001.replacedText o R T [] = T.
Proof. unfold Part001.replacedText. by destruct (Part001.replaceFirst o). Qed.

(** X7.  The preview of part 001 shows the text the replace button
    would produce, in every state of the panel: after "replace first",
    after "replace all", under an interactive selection, and when
    there is nothing to replace. *)
Theorem preview_is_replace (now : nat) (st : Part001.State) :
  Panel001.generatePreview st = Part001.st_text (Part001.performReplace now st).
Proof.
  unfold Panel001.generatePreview, Part001.performReplace.
  destruct (_ || _); [done|].
  destruct (bool_decide_reflect (Part001.matchesToReplace st = [])) as [->|_]; [|done].
  apply replacedText001_nil.
Qed.

Lemma ascending_sublist p l1 l2 : l1 `sublist_of` l2 -> ascending p l2 -> ascending p l1.
Proof.
  intros Hs. revert p. induction Hs as [|x l1 l2 Hs IH|x l1 l2 Hs IH]; intros p; [done| |].
  - intros Hasc. pose proof (ascending_strict _ _ _ Hasc) as Hstrict.
    cbn [ascending] in *. destruct Hasc as (Hp & Hx & _ & Hrest).
    repeat split; [done|done| |by apply IH].
    destruct l1 as [|y l1]; [done|].
    rewrite Forall_forall in Hstrict. apply Hstrict.
    apply (sublist_subseteq _ _ Hs). left.
  - intros Hasc. cbn [ascending] in Hasc. destruct Hasc as (Hp & Hx & _ & Hrest).
    eapply ascending_weaken; [|by apply IH]. lia.
Qed.

Lemma filter_index_sublist {A} (f : nat -> bool) i (l : list A) :
  filter_index f i l `sublist_of` l.
Proof.
  revert i. induction l as [|x l IH]; intros i; simpl; [done|].
  destruct (f i); [by apply sublist_skip|by apply sublist_cons].
Qed.

Lemma matchesToReplace_sublist st :
  Part001.matchesToReplace st `sublist_of` Part001.matches st.
Proof.
  unfold Part001.matchesToReplace. destruct (Part001.isInteractiveMode st); [|done].
  apply filter_index_sublist.
Qed.

(** X8.  Ticking a match twice leaves the selection as it was; one
    tick changes whether that match is selected, and nothing else. *)
Theorem toggle_twice (index : nat) (st : Part001.State) :
  Panel001.toggleMatchSelection index (Panel001.toggleMatchSelection index st) = st /\
  (index ∈ Part001.selectedMatches (Panel001.toggleMatchSelection index st) <->
   index ∉ Part001.selectedMatches st) /\
  (forall j, j <> index ->
     j ∈ Part001.selectedMatches (Panel001.toggleMatchSelection index st) <->
     j ∈ Part001.selectedMatches st).
Proof.
  destruct st as [T F R o ms cur h b im S]. unfold Panel001.toggleMatchSelection. simpl.
  destruct (bool_decide_reflect (index ∈ S)) as [Hin|Hout].
  - assert (Hgone : index ∉ S ∖ {[index]}).
    { rewrite elem_of_difference, elem_of_singleton. tauto. }
    split; [|split; [tauto|]].
    + f_equal. rewrite bool_decide_eq_false_2 by done.
      apply set_eq. intros j.
      rewrite elem_of_union, elem_of_difference, elem_of_singleton.
      destruct (decide (j = index)) as [->|]; tauto.
    + intros j Hj. rewrite elem_of_difference, elem_of_singleton. tauto.
  - assert (Hthere : index ∈ S ∪ {[index]}).
    { rewrite elem_of_union, elem_of_singleton. tauto. }
    split; [|split; [tauto|]].
    + f_equal. rewrite bool_decide_eq_true_2 by done.
      apply set_eq. intros j.
      rewrite elem_of_difference, elem_of_union, elem_of_singleton.
      destruct (decide (j = index)) as [->|]; tauto.
    + intros j Hj. rewrite elem_of_union, elem_of_singleton. tauto.
Qed.

Lemma toggle_twice_witness :
  1 <> 0 /\
  (1 ∈ Part001.selectedMatches (Panel001.toggleMatchSelection 0 Cases.findX) <->
   1 ∈ Part001.selectedMatches Cases.findX).
Proof.
  split; [lia|]. apply (proj2 (proj2 (toggle_twice 0 Cases.findX)) 1). lia.
Defined.

(** X9.  A pattern saved under a name that is not blank, with a find
    text that is not empty, goes to the head of the list of saved
    patterns, before those already there; loading it into the panel,
    in whatever state, brings back the find text, the replacement and
    the options of the moment it was saved, and touches neither the
    text nor the matches nor the history. *)
Theorem save_then_load (now : nat) (st st2 : Part001.State) (ps : Panel001.Patterns) :
  trim (Panel001.patternName ps) <> [] -> Part001.findText st <> [] ->
  exists pattern,
    Panel001.savedPatterns (Panel001.savePattern now st ps)
    = pattern :: Panel001.savedPatterns ps /\
    let st' := Panel001.loadPattern pattern st2 in
    Part001.findText st' = Part001.findText st /\
    Part001.replaceText st' = Part001.replaceText st /\
    Part001.st_options st' = Part001.st_options st /\
    Part001.st_text st' = Part001.st_text st2 /\
    Part001.matches st' = Part001.matches st2 /\
    Part001.history st' = Part001.history st2.
Proof.
  intros Hn Hf. unfold Panel001.savePattern.
  rewrite !bool_decide_eq_false_2 by done. simpl.
  eexists. split; [done|]. by repeat split.
Qed.

Lemma save_then_load_witness :
  exists pattern,
    Panel001.savedPatterns (Panel001.savePattern 5 Cases.findX Cases.namedXY) = [pattern] /\
    Part001.findText (Panel001.loadPattern pattern Cases.findParen) = str "X".
Proof.
  destruct (save_then_load 5 Cases.findX Cases.findParen Cases.namedXY)
    as (pattern & H & Hf & _).
  - vm_compute. discriminate.
  - vm_compute. discriminate.
  - exists pattern. split; [exact H|exact Hf].
Defined.

(** A save under a blank name, or without a find text, changes
    nothing. *)
Lemma savePattern_guard now st ps :
  trim (Panel001.patternName ps) = [] \/ Part001.findText st = [] ->
  Panel001.savePattern now st ps = ps.
Proof.
  intros H. unfold Panel001.savePattern.
  destruct H as [-> | ->]; by rewrite ?bool_decide_eq_true_2, ?orb_true_r by done.
Qed.

End PanelProofs.

Section FindThenReplace.
Context {host : RegExpHost} {ok : RegExpHostOk host}.

(** X10.  Find, then replace all, in part 001.  Whatever the find
    text and the search options, on any engine that reports leftmost
    matches inside the subject: when the scan returns and the replace
    button then finds something to replace (all matches, or those
    ticked in interactive mode), the new text is the searched text
    with the span of every such match replaced by its replacement,
    read from left to right, and the text between the spans
    unchanged. *)
Theorem find_then_replace_all (fuel now : nat) (st st1 : Part001.State) :
  Part001.findMatches fuel st = Returns st1 ->
  Part001.replaceFirst (Part001.st_options st) = false ->
  Part001.matchesToReplace st1 <> [] ->
  Part001.st_text (Part001.performReplace now st1)
  = spliceAll (Part001.st_text st) 0
      (span001 (Part001.st_options st) (Part001.replaceText st)
         <$> Part001.matchesToReplace st1) /\
  Part001.matchesToReplace st1 `sublist_of` Part001.matches st1.
Proof.
  intros Hfind Hall Hsome. split; [|apply matchesToReplace_sublist].
  unfold Part001.findMatches in Hfind.
  destruct (Part001.findText st) as [|c P] eqn:EP.
  { injection Hfind as <-. exfalso. apply Hsome.
    unfold Part001.matchesToReplace. simpl.
    by destruct (Part001.isInteractiveMode st). }
  destruct (Part001.scan fuel (c :: P) (Part001.st_text st) (Part001.st_options st))
    as [ms| |] eqn:Escan; [| |done].
  2:{ injection Hfind as <-. exfalso. apply Hsome.
      unfold Part001.matchesToReplace. simpl.
      by destruct (Part001.isInteractiveMode st). }
  injection Hfind as <-.
  rewrite performReplace001_text; [|by simpl; rewrite EP|done].
  apply (scan001_ascending (Part001.st_options st) (Part001.replaceText st)) in Escan
    as [Hasc Hin].
  pose proof (matchesToReplace_sublist
                (Part001.set_matches st ms (if decide (ms = []) then (-1)%Z else 0%Z)))
    as Hsub.
  simpl in *.
  apply replacedText001_all; [done|done| |].
  - eapply ascending_sublist; [|exact Hasc]. by apply fmap_sublist.
  - unfold within, before in *. rewrite Forall_forall in Hin. apply Forall_forall.
    intros sp Hsp. apply Hin.
    eapply sublist_subseteq; [|exact Hsp]. by apply fmap_sublist.
Qed.

(** The lines of a text are one more than its line separators. *)
Lemma split_char_newlines s : length (split_char nl s) = S (newlines s).
Proof.
  unfold newlines. induction s as [|x s IH]; [done|].
  cbn [split_char List.filter]. destruct (Ascii.eqb x nl).
  - simpl. by rewrite IH.
  - destruct (split_char nl s) as [|l ls]; simpl in *; [done|]. by rewrite <- IH.
Qed.

(** X11.  What part 001 records of a match is what the text holds:
    the match lies inside the text, its [text] is the text between
    its offsets, and its [lineNumber] is one more than the number of
    line separators before it. *)
Theorem recorded_fields (fuel : nat) (P T : text) (o : Part001.SearchOptions)
  (ms : list Part001.Match) :
  Part001.scan fuel P T o = Returns ms ->
  Forall (fun a =>
            Part001.index a + Part001.length a <= length T /\
            Part001.text a = take (Part001.length a) (drop (Part001.index a) T) /\
            Part001.lineNumber a = S (newlines (take (Part001.index a) T))) ms.
Proof.
  unfold Part001.scan. destruct (Part001.buildPattern P o) as [r|]; [|done].
  intros H. apply scanLoop_found in H as (new & -> & Hall). simpl.
  eapply Forall_impl; [exact Hall|]. simpl.
  intros a (from & m & Hs & ->). apply search_bounds in Hs as [_ Hb].
  unfold found001. simpl. split; [done|]. split; [done|].
  by rewrite substring_0, split_char_newlines.
Qed.

(** X12.  An expression the engine rejects is never fatal: the search
    comes back with an empty list of matches, in part 001 (where the
    current match is left as it was) as in FindReplace.tsx. *)
Theorem invalid_expression (fuel : nat) :
  (forall st,
     Part001.findText st <> [] ->
     Part001.buildPattern (Part001.findText st) (Part001.st_options st) = None ->
     Part001.findMatches fuel st
     = Returns (Part001.set_matches st [] (Part001.currentMatchIndex st))) /\
  (forall st,
     let o := FindReplaceTsx.st_options st in
     FindReplaceTsx.findText st <> [] ->
     FindReplaceTsx.useRegex o = true ->
     RegExp.new (if FindReplaceTsx.caseSensitive o then FindReplaceTsx.findText st
                 else toLowerCase (FindReplaceTsx.findText st))
       (if FindReplaceTsx.caseSensitive o then flags_g else flags_gi) = None ->
     FindReplaceTsx.findMatches fuel st = Returns (FindReplaceTsx.set_matches st [] (-1))).
Proof.
  split.
  - intros st Hf Hb. unfold Part001.findMatches, Part001.scan. rewrite Hb.
    by destruct (Part001.findText st).
  - intros st o Hf Hre Hn. unfold FindReplaceTsx.findMatches, FindReplaceTsx.scan.
    destruct (FindReplaceTsx.findText st) as [|c F] eqn:EF; [done|]. fold o.
    assert (Hlines : forall lines li g,
              FindReplaceTsx.scanLines fuel o (c :: F) lines li g [] = Returns []).
    { induction lines as [|line lines IH]; intros li g; [done|].
      cbn [FindReplaceTsx.scanLines]. unfold FindReplaceTsx.scanLine.
      destruct (FindReplaceTsx.outsideRange o li); [apply IH|].
      rewrite Hre, Hn. apply IH. }
    by rewrite Hlines.
Qed.

End FindThenReplace.

(** The two "X" of "aXaXa" replaced by "Y". *)
Lemma find_then_replace_all_witness :
  exists st1,
    Part001.findMatches (host := Fragment.host) 7 Cases.findX = Returns st1 /\
    Part001.st_text (Part001.performReplace 0 st1) = str "aYaYa".
Proof.
  eexists. split; [vm_compute; reflexivity|].
  refine (eq_trans
            (proj1 (find_then_replace_all (host := Fragment.host) 7 0 Cases.findX _ _ _ _))
            _).
  - vm_compute. reflexivity.
  - reflexivity.
  - vm_compute. discriminate.
  - vm_compute. reflexivity.
Defined.

(** An unbalanced parenthesis. *)
Lemma invalid_expression_witness :
  Part001.findMatches (host := Fragment.host) 3 Cases.findParen
  = Returns (Part001.set_matches Cases.findParen [] 0) /\
  FindReplaceTsx.findMatches (host := Fragment.host) 3 Cases.findParenTsx
  = Returns (FindReplaceTsx.set_matches Cases.findParenTsx [] (-1)).
Proof.
  destruct (invalid_expression (host := Fragment.host) 3) as [H1 H2]. split.
  - apply (H1 Cases.findParen); [discriminate|reflexivity].
  - apply (H2 Cases.findParenTsx); [discriminate|reflexivity|reflexivity].
Defined.

Lemma recorded_fields_witness :
  exists a b,
    Part001.scan (host := Fragment.host) 7 (str "X") (str "aXaXa") Sample.literal001
      = Returns [a; b] /\
    Part001.text b = take (Part001.length b) (drop (Part001.index b) (str "aXaXa")).
Proof.
  eexists _, _. split; [vm_compute; reflexivity|].
  pose proof (recorded_fields (host := Fragment.host) 7 (str "X") (str "aXaXa")
                Sample.literal001 _ ltac:(vm_compute; reflexivity)) as H.
  apply Forall_cons in H as [_ H]. apply Forall_cons in H as [(_ & H & _) _]. exact H.
Defined.

(** ** The line range of part 001 *)

Section LineRangeFilter.
Context {host : RegExpHost} {ok : RegExpHostOk host} {lit : LiteralHostOk host}.

(** X13.  The line range of part 001.  When the scan without the
    range returns and none of its matches is empty, the scan under the
    range returns as well, with exactly those of its matches whose
    1-indexed line number lies in the range, bounds included, in the
    same order and each as it was recorded.  Without a context filter
    the scan without the range does return when the expression is
    valid, and for a literal find text none of its matches is
    empty. *)
Theorem line_range_filter :
  (forall fuel P T o rng ms',
     Part001.lineRange o = Some rng ->
     Part001.scan fuel P T (without_range o) = Returns ms' ->
     Forall (fun a => 0 < Part001.length a) ms' ->
     Part001.scan fuel P T o
     = Returns (List.filter (fun a => inRange rng (Part001.lineNumber a)) ms')) /\
  (forall P T o rng,
     Part001.lineRange o = Some rng -> Part001.contextFilter o = None ->
     Part001.buildPattern P o <> None ->
     exists ms',
       Part001.scan (length T + 2) P T (without_range o) = Returns ms' /\
       (Part001.useRegex o = false -> P <> [] ->
        Part001.scan (length T + 2) P T o
        = Returns (List.filter (fun a => inRange rng (Part001.lineNumber a)) ms'))).
Proof.
  split; [intros; by apply scan001_lineRange|].
  intros P T o rng Hr Hc Hb.
  assert (exists ms', Part001.scan (length T + 2) P T (without_range o) = Returns ms')
    as (ms' & H').
  { unfold Part001.scan.
    change (Part001.buildPattern P (without_range o)) with (Part001.buildPattern P o).
    destruct (Part001.buildPattern P o) as [r|] eqn:E; [|done].
    apply buildPattern_global in E as [Hg Hl].
    replace (length T + 2) with (S (length T + 1)) by lia.
    apply scanLoop_terminates; [done|done|done|lia]. }
  exists ms'. split; [done|]. intros Hre Hp.
  apply scan001_lineRange; [done|done|].
  by apply (scan001_literal_nonempty (length T + 2) P T (without_range o)).
Qed.

End LineRangeFilter.

(** "ab" sought in two lines "ab" under the range 2 to 2: the match
    of the second line. *)
Lemma line_range_filter_witness :
  Part001.scan (host := Fragment.host) 7 (str "ab") Sample.abab (Sample.literal001_lines 2 2)
  = Returns [Part001.mkMatch 3 2 (str "ab") 2 Sample.abab].
Proof.
  refine (eq_trans
            (proj1 (line_range_filter (host := Fragment.host)) 7 (str "ab") Sample.abab
               (Sample.literal001_lines 2 2) (Part001.mkLineRange 2 2)
               [Part001.mkMatch 0 2 (str "ab") 1 Sample.abab;
                Part001.mkMatch 3 2 (str "ab") 2 Sample.abab] eq_refl _ _) _).
  - vm_compute. reflexivity.
  - repeat constructor.
  - reflexivity.
Defined.

(** ** The rules of a batch *)

Section Rules.

Lemma free_of_tail sep x s : free_of sep (x :: s) -> free_of sep s.
Proof. intros H i. exact (H (S i)). Qed.

Lemma split_str_from_nonempty sep skip cur s : split_str_from sep skip cur s <> [].
Proof.
  revert skip cur. induction s as [|x s IH]; intros skip cur; [done|].
  cbn [split_str_from]. destruct skip; [|apply IH].
  destruct (starts_with sep (x :: s)); [done|apply IH].
Qed.

(** A text free of the separator is a single piece. *)
Lemma split_str_from_free sep cur s :
  free_of sep s -> split_str_from sep 0 cur s = [reverse cur ++ s].
Proof.
  revert cur. induction s as [|x s IH]; intros cur Hfree.
  { by rewrite app_nil_r. }
  cbn [split_str_from]. pose proof (Hfree 0) as H0. rewrite drop_0 in H0. rewrite H0.
  rewrite IH by (by eapply free_of_tail).
  by rewrite reverse_cons, <- app_assoc.
Qed.

(** The characters of a separator just found are passed over. *)
Lemma split_str_from_skip sep k cur s :
  k <= length s -> split_str_from sep k cur s = split_str_from sep 0 cur (drop k s).
Proof.
  revert s. induction k as [|k IH]; intros s Hk; [done|].
  destruct s as [|x s]; [simpl in Hk; lia|]. simpl in Hk.
  cbn [split_str_from drop]. apply IH. lia.
Qed.

Lemma starts_with_app p s : starts_with p (p ++ s) = true.
Proof. induction p as [|y p IH]; [done|]. simpl. by rewrite Ascii.eqb_refl. Qed.

(** A piece that ends at the first separator. *)
Lemma split_str_from_first sep cur f r :
  sep <> [] ->
  (forall i, i < length f -> starts_with sep (drop i (f ++ sep ++ r)) = false) ->
  split_str_from sep 0 cur (f ++ sep ++ r)
  = (reverse cur ++ f) :: split_str_from sep 0 [] r.
Proof.
  intros Hsep. revert cur. induction f as [|x f IH]; intros cur Hfree.
  - destruct sep as [|c sep]; [done|]. rewrite app_nil_r.
    change ([] ++ (c :: sep) ++ r) with (c :: sep ++ r).
    cbn [split_str_from].
    assert (starts_with (c :: sep) (c :: sep ++ r) = true) as ->
      by apply (starts_with_app (c :: sep) r).
    f_equal. cbn [length]. rewrite Nat.sub_succ, Nat.sub_0_r.
    rewrite split_str_from_skip by (rewrite length_app; lia).
    by rewrite drop_app_length.
  - change ((x :: f) ++ sep ++ r) with (x :: f ++ sep ++ r).
    cbn [split_str_from]. pose proof (Hfree 0 ltac:(simpl; lia)) as H0.
    rewrite drop_0 in H0. change ((x :: f) ++ sep ++ r) with (x :: f ++ sep ++ r) in H0.
    rewrite H0. rewrite IH.
    + by rewrite reverse_cons, <- app_assoc.
    + intros i Hi. apply (Hfree (S i)). simpl. lia.
Qed.

(** An arrow never straddles the end of a text free of arrows. *)
Lemma arrow_first f rest :
  free_of (str "->") f ->
  forall i, i < length f -> starts_with (str "->") (drop i (f ++ str "->" ++ rest)) = false.
Proof.
  intros Hfree i Hi. specialize (Hfree i). rewrite drop_app_le by lia.
  destruct (drop i f) as [|y [|z tl]] eqn:E.
  - apply (f_equal length) in E. rewrite length_drop in E. simpl in E. lia.
  - simpl. by rewrite andb_false_r.
  - exact Hfree.
Qed.

(** X14.  How a line of the batch text is read.  A line without an
    arrow is passed over; so is a line with two arrows or more; a line
    with exactly one arrow is the rule made of the trimmed texts on
    either side of it, unless the find text is blank, in which case
    it is passed over too. *)
Theorem parseRule_arrows :
  (forall line, free_of (str "->") line -> Part001.parseRule line = None) /\
  (forall f r,
     free_of (str "->") f -> free_of (str "->") r ->
     Part001.parseRule (f ++ str "->" ++ r)
     = if bool_decide (trim f = []) then None else Some (trim f, trim r)) /\
  (forall a b c,
     free_of (str "->") a -> free_of (str "->") b ->
     Part001.parseRule (a ++ str "->" ++ b ++ str "->" ++ c) = None).
Proof.
  split; [|split].
  - intros line Hfree. unfold Part001.parseRule, split_str.
    by rewrite split_str_from_free.
  - intros f r Hf Hr. unfold Part001.parseRule, split_str.
    rewrite split_str_from_first by (done || by apply arrow_first).
    by rewrite split_str_from_free.
  - intros a b c Ha Hb. unfold Part001.parseRule, split_str.
    rewrite split_str_from_first by (done || by apply arrow_first).
    rewrite split_str_from_first by (done || by apply arrow_first).
    pose proof (split_str_from_nonempty (str "->") 0 [] c) as Hne.
    destruct (split_str_from (str "->") 0 [] c) as [|x [|y l]]; done.
Qed.

Lemma parseRule_arrows_witness :
  Part001.parseRule (str "a " ++ str "->" ++ str " b") = Some (str "a", str "b").
Proof.
  refine (eq_trans (proj1 (proj2 parseRule_arrows) (str "a ") (str " b") _ _) _).
  - intros [|[|[|i]]]; reflexivity.
  - intros [|[|[|i]]]; reflexivity.
  - reflexivity.
Defined.

End Rules.

(** ** The history of single replacements *)

(** X15.  A single replacement never lets the history grow past its
    limit, whatever it held before: [performReplace] leaves it as it
    was or puts one entry before its first 19 (part 001) or its first
    9 (FindReplace.tsx) entries, which keep their order; so it holds
    at most 20, respectively 10, entries afterwards if it did
    before. *)
Theorem single_replace_history :
  (forall now st,
     let h := Part001.history st in
     let h' := Part001.history (Part001.performReplace now st) in
     (h' = h \/ exists op, h' = op :: take 19 h) /\
     (length h <= 20 -> length h' <= 20)) /\
  (forall now replaceAll st st',
     FindReplaceTsx.performReplace now replaceAll st = Some st' ->
     let h := FindReplaceTsx.history st in
     let h' := FindReplaceTsx.history st' in
     (h' = h \/ exists e, h' = e :: take 9 h) /\
     (length h <= 10 -> length h' <= 10)).
Proof.
  split.
  - intros now st h h'.
    destruct (performReplace_history now st) as [H|(op & H)]; fold h h' in H.
    + split; [by left|]. by rewrite H.
    + split; [right; by exists op|]. intros _. rewrite H.
      rewrite length_cons, length_take. lia.
  - intros now replaceAll st st' H h h'. subst h h'.
    unfold FindReplaceTsx.performReplace in H.
    destruct (bool_decide _).
    { injection H as <-. split; [by left|done]. }
    destruct (if replaceAll then _ else _) as [rs|]; [|done]. simpl in H.
    injection H as <-. cbn [FindReplaceTsx.history]. rewrite pushHistoryTsx_take.
    split; [right; by eexists|]. intros _. rewrite length_cons, length_take. lia.
Qed.

(** The replacement of the only "X" of "aXa" in FindReplace.tsx. *)
Lemma single_replace_history_witness :
  exists st',
    FindReplaceTsx.performReplace 0 true Cases.foundXTsx = Some st' /\
    length (FindReplaceTsx.history st') <= 10.
Proof.
  eexists. split; [vm_compute; reflexivity|].
  apply (proj2 (proj2 single_replace_history 0 true Cases.foundXTsx _
                  ltac:(vm_compute; reflexivity))).
  simpl. lia.
Defined.

(** ** FindReplace.tsx: find, replace, preview *)

Section FindThenReplaceTsx.
Context {host : RegExpHost} {ok : RegExpHostOk host}.

(** The matches [findMatches] leaves in the state. *)
Lemma findMatchesTsx_scan fuel st st1 :
  FindReplaceTsx.findMatches fuel st = Returns st1 ->
  FindReplaceTsx.st_text st1 = FindReplaceTsx.st_text st /\
  FindReplaceTsx.replaceText st1 = FindReplaceTsx.replaceText st /\
  FindReplaceTsx.st_options st1 = FindReplaceTsx.st_options st /\
  (FindReplaceTsx.matches st1 = [] \/
   FindReplaceTsx.findText st <> [] /\
   FindReplaceTsx.scan fuel (FindReplaceTsx.findText st) (FindReplaceTsx.st_text st)
     (FindReplaceTsx.st_options st) = Returns (FindReplaceTsx.matches st1)).
Proof.
  unfold FindReplaceTsx.findMatches.
  destruct (FindReplaceTsx.findText st) as [|c P] eqn:EP.
  { intros [= <-]. simpl. repeat split. by left. }
  destruct (FindReplaceTsx.scan _ _ _ _) as [ms| |]; [|done..].
  intros [= <-]. simpl. repeat split. by right.
Qed.

(** X16.  Find by regular expression, then replace all, in
    FindReplace.tsx.  On any engine that reports leftmost matches
    inside the subject: when the scan returns and finds something, the
    text handed to [onReplace] is the searched text with the span of
    every match replaced by its replacement, read from left to right,
    and the text between the spans unchanged. *)
Theorem find_then_replace_all_tsx (fuel now : nat) (st st1 st2 : FindReplaceTsx.State) :
  FindReplaceTsx.useRegex (FindReplaceTsx.st_options st) = true ->
  FindReplaceTsx.findMatches fuel st = Returns st1 ->
  FindReplaceTsx.matches st1 <> [] ->
  FindReplaceTsx.performReplace now true st1 = Some st2 ->
  FindReplaceTsx.st_text st2
  = spliceAll (FindReplaceTsx.st_text st) 0
      (spanTsx (FindReplaceTsx.st_options st) (FindReplaceTsx.replaceText st)
         <$> FindReplaceTsx.matches st1).
Proof.
  intros Hre Hfind Hsome Hrep.
  apply findMatchesTsx_scan in Hfind as (HT & HR & Ho & [?|[Hp Hscan]]); [done|].
  rewrite (performReplaceTsx_all_text now st1 st2 Hsome Hrep), HT, HR, Ho.
  apply (scanTsx_invariant (FindReplaceTsx.st_options st) (FindReplaceTsx.replaceText st))
    in Hscan as (_ & _ & Hin & Hasc); [|done].
  apply replacedTextTsx_all; [done|by apply Hasc|done].
Qed.

Lemma previewStep_splice o R X m :
  PanelTsx.previewStep o R X m = splice X (markedSpan o R m).
Proof.
  unfold PanelTsx.previewStep, splice. simpl.
  by rewrite slice_0, slice_from_nat.
Qed.

Lemma ascending_spans {A} (f g : A -> Span) p (l : list A) :
  (forall a, s_start (f a) = s_start (g a) /\ s_stop (f a) = s_stop (g a)) ->
  ascending p (f <$> l) -> ascending p (g <$> l).
Proof.
  intros Hfg. revert p. induction l as [|a l IH]; intros p; [done|].
  rewrite !fmap_cons. cbn [ascending]. intros (Hp & Ha & Hnext & Hrest).
  destruct (Hfg a) as [<- <-]. repeat split; [done|done| |by apply IH].
  destruct l as [|b l]; [done|]. rewrite fmap_cons in *.
  by destruct (Hfg b) as [<- _].
Qed.

(** X17.  The preview of FindReplace.tsx after a search by regular
    expression is the searched text with every match replaced by its
    replacement between the tags [<mark class="bg-yellow-200">] and
    [</mark>], and the text between the matches unchanged; the tags put
    in for one match do not shift the place of another. *)
Theorem preview_marks (fuel : nat) (st st1 : FindReplaceTsx.State) :
  FindReplaceTsx.useRegex (FindReplaceTsx.st_options st) = true ->
  FindReplaceTsx.findMatches fuel st = Returns st1 ->
  PanelTsx.generatePreview st1
  = spliceAll (FindReplaceTsx.st_text st) 0
      (markedSpan (FindReplaceTsx.st_options st) (FindReplaceTsx.replaceText st)
         <$> FindReplaceTsx.matches st1).
Proof.
  intros Hre Hfind. unfold PanelTsx.generatePreview.
  apply findMatchesTsx_scan in Hfind as (HT & HR & Ho & Hms). rewrite HT, HR, Ho.
  destruct (bool_decide_reflect (FindReplaceTsx.matches st1 = [])) as [->|Hsome]; [done|].
  destruct Hms as [?|[Hp Hscan]]; [done|].
  set (o := FindReplaceTsx.st_options st) in *.
  set (R := FindReplaceTsx.replaceText st) in *.
  apply (scanTsx_invariant o R) in Hscan as (_ & _ & Hin & Hasc); [|done].
  specialize (Hasc Hre).
  assert (Hasc' : ascending 0 (markedSpan o R <$> FindReplaceTsx.matches st1)).
  { eapply (ascending_spans (spanTsx o R)); [|exact Hasc]. by intros a. }
  rewrite (sort_descending FindReplaceTsx.start _ (FindReplaceTsx.matches st1)).
  - rewrite (foldl_ext_map _ (markedSpan o R)) by apply previewStep_splice.
    rewrite fmap_reverse.
    rewrite (foldl_splice_reverse _ 0 _ Hasc'); [done|].
    unfold within, before in *. rewrite Forall_fmap in *.
    eapply Forall_impl; [exact Hin|]. by intros a.
  - done.
  - exact (ascending_sorted (spanTsx o R) 0 _ Hasc).
Qed.

(** X18.  [performReplace] of FindReplace.tsx never reads a match
    that is not there.  In every state the panel reaches from its
    mounting (by searches that return, clicks on listed matches,
    replacements, batches and edits of its fields) the list of matches
    is empty or the current index points into it, and both replace
    buttons come back. *)
Theorem replace_never_throws (T : text) (st : FindReplaceTsx.State) (now : nat)
  (replaceAll : bool) :
  PanelTsx.reachable T st ->
  (FindReplaceTsx.matches st = [] \/
   (0 <= FindReplaceTsx.currentMatchIndex st
      < Z.of_nat (length (FindReplaceTsx.matches st)))%Z) /\
  exists st', FindReplaceTsx.performReplace now replaceAll st = Some st'.
Proof.
  intros Hreach.
  assert (Hinv : FindReplaceTsx.matches st = [] \/
            (0 <= FindReplaceTsx.currentMatchIndex st
               < Z.of_nat (length (FindReplaceTsx.matches st)))%Z).
  { induction Hreach as [|st st' _ IH Hstep]; [by left|].
    destruct Hstep as [fuel st' Hfind|index Hidx|now' all st' Hrep|st' Hbatch|T' F R o items].
    - unfold FindReplaceTsx.findMatches in Hfind.
      destruct (FindReplaceTsx.findText st); [injection Hfind as <-; by left|].
      destruct (FindReplaceTsx.scan _ _ _ _) as [ms| |]; [|done..].
      injection Hfind as <-. simpl.
      destruct ms as [|m ms]; [by left|right]. simpl. lia.
    - right. simpl. lia.
    - unfold FindReplaceTsx.performReplace in Hrep.
      destruct (bool_decide_reflect (FindReplaceTsx.matches st = [])) as [E|_].
      { injection Hrep as <-. by left. }
      destruct (if all then _ else _); [|done]. injection Hrep as <-. by left.
    - unfold FindReplaceTsx.performBatchReplace in Hbatch.
      destruct (FindReplaceTsx.batchResult _ _ _) as [[newText total]|]; [|done].
      injection Hbatch as <-. exact IH.
    - exact IH. }
  split; [done|]. unfold FindReplaceTsx.performReplace.
  destruct (bool_decide_reflect (FindReplaceTsx.matches st = [])) as [E|Hne]; [by eexists|].
  destruct Hinv as [?|Hidx]; [done|].
  destruct replaceAll; [by eexists|].
  destruct (Z.ltb_spec (FindReplaceTsx.currentMatchIndex st) 0) as [?|_]; [lia|].
  destruct (FindReplaceTsx.matches st !! Z.to_nat (FindReplaceTsx.currentMatchIndex st))
    as [m|] eqn:Em; [by eexists|].
  apply lookup_ge_None in Em. lia.
Qed.

End FindThenReplaceTsx.

(** The panel after a search for "X" in "aXaXa" and a click on the
    second match. *)
Lemma replace_never_throws_witness :
  exists st st',
    PanelTsx.reachable (host := Fragment.host) (str "aXaXa") st /\
    FindReplaceTsx.currentMatchIndex st = 1%Z /\
    FindReplaceTsx.performReplace 0 false st = Some st'.
Proof.
  assert (Hfound : exists st1,
            FindReplaceTsx.findMatches (host := Fragment.host) 7 Cases.findXTsx
            = Returns st1 /\ 1 < length (FindReplaceTsx.matches st1)).
  { eexists. split; [vm_compute; reflexivity|]. simpl. lia. }
  destruct Hfound as (st1 & Hfind & Hlen).
  assert (Hreach : PanelTsx.reachable (host := Fragment.host) (str "aXaXa")
                     (PanelTsx.selectMatch 1 st1)).
  { eapply PanelTsx.reach_step; [|by apply PanelTsx.step_select].
    eapply PanelTsx.reach_step; [|exact (PanelTsx.step_find _ _ _ Hfind)].
    eapply PanelTsx.reach_step; [apply PanelTsx.reach_mounted|].
    exact (PanelTsx.step_edit (PanelTsx.mounted (str "aXaXa")) (str "aXaXa") (str "X")
             (str "Y") Sample.regexTsx []). }
  destruct (replace_never_throws (host := Fragment.host) _ _ 0 false Hreach)
    as (_ & st' & Hst').
  exists (PanelTsx.selectMatch 1 st1), st'. split; [exact Hreach|]. split; [reflexivity|].
  exact Hst'.
Defined.

(** The two "X" of "aXaXa" replaced by "Y". *)
Lemma find_then_replace_all_tsx_witness :
  exists st1 st2,
    FindReplaceTsx.findMatches (host := Fragment.host) 7 Cases.findXTsx = Returns st1 /\
    FindReplaceTsx.performReplace 0 true st1 = Some st2 /\
    FindReplaceTsx.st_text st2 = str "aYaYa".
Proof.
  eexists _, _. split; [vm_compute; reflexivity|]. split; [vm_compute; reflexivity|].
  refine (eq_trans
            (find_then_replace_all_tsx (host := Fragment.host) 7 0 Cases.findXTsx
               _ _ _ _ _ _) _).
  - reflexivity.
  - vm_compute. reflexivity.
  - vm_compute. discriminate.
  - vm_compute. reflexivity.
  - vm_compute. reflexivity.
Defined.

Lemma preview_marks_witness :
  exists st1,
    FindReplaceTsx.findMatches (host := Fragment.host) 7 Cases.findXTsx = Returns st1 /\
    PanelTsx.generatePreview st1
    = str "a" ++ PanelTsx.markOpen ++ str "Y" ++ PanelTsx.markClose
        ++ str "a" ++ PanelTsx.markOpen ++ str "Y" ++ PanelTsx.markClose ++ str "a".
Proof.
  eexists. split; [vm_compute; reflexivity|].
  refine (eq_trans
            (preview_marks (host := Fragment.host) 7 Cases.findXTsx _ _ _) _).
  - reflexivity.
  - vm_compute. reflexivity.
  - vm_compute. reflexivity.
Defined.

(** ** FindReplace.tsx: the literal search *)

Section LiteralSearch.
Context {host : RegExpHost}.

(** [indexOf] finds the first occurrence at or after its start. *)
Lemma find_from_head p s k :
  p <> [] -> k <= length s ->
  find_from p (drop k s) k
  = head (List.filter (fun i => starts_with p (drop i s)) (seq k (length s - k))).
Proof.
  intros Hp. remember (length s - k) as n eqn:En. revert k En.
  induction n as [|n IH]; intros k En Hk.
  - rewrite drop_ge by lia. destruct p; [done|]. reflexivity.
  - destruct (drop k s) as [|x rest] eqn:Ed.
    { apply (f_equal length) in Ed. rewrite length_drop in Ed. simpl in Ed. lia. }
    cbn [seq List.filter find_from]. rewrite Ed.
    destruct (starts_with p (x :: rest)); [done|].
    rewrite <- (IH (S k)) by lia. f_equal.
    replace (S k) with (k + 1) by lia. rewrite <- (drop_drop s 1 k), Ed. done.
Qed.

Lemma filter_seq_head (f : nat -> bool) k n i :
  head (List.filter f (seq k n)) = Some i ->
  k <= i < k + n /\
  List.filter f (seq k n) = i :: List.filter f (seq (S i) (k + n - S i)).
Proof.
  revert k. induction n as [|n IH]; intros k; [done|].
  cbn [seq List.filter]. destruct (f k) eqn:Ef.
  - intros [= <-]. split; [lia|]. f_equal. f_equal. f_equal. lia.
  - intros H. apply IH in H as [Hi ->]. split; [lia|]. f_equal. f_equal. f_equal. lia.
Qed.

Lemma slice_nat {A} (l : list A) (a b : nat) :
  a <= b <= length l -> slice l (Z.of_nat a) (Z.of_nat b) = take (b - a) (drop a l).
Proof.
  intros H. unfold slice, rel_index.
  destruct (Z.ltb_spec (Z.of_nat a) 0) as [?|_]; [lia|].
  destruct (Z.ltb_spec (Z.of_nat b) 0) as [?|_]; [lia|].
  f_equal; [lia|]. f_equal. lia.
Qed.

Lemma literalLoop_spec fuel o line sT sP li g idx acc :
  sP <> [] -> length sT = length line ->
  idx <= length sT -> length sT + 1 <= fuel + idx ->
  FindReplaceTsx.literalLoop (S fuel) o line sT sP li g idx acc
  = Returns (acc ++ (List.filter (fun i => starts_with sP (drop i sT))
                       (seq idx (length sT - idx))
                     ≫= literalFound o line li g (length sP))).
Proof.
  intros Hp Hlen. revert idx acc. induction fuel as [|fuel IH]; intros idx acc Hidx Hf;
    rewrite literalLoop_unfold; unfold indexOf; rewrite Nat.min_l by done;
    rewrite find_from_head by done;
    (destruct (head _) as [i|] eqn:Eh;
     [|apply head_None in Eh; rewrite Eh; by rewrite app_nil_r]);
    apply filter_seq_head in Eh as [Hi Eq];
    [lia|].
  assert (Hocc : starts_with sP (drop i sT) = true).
  { assert (Hin : i ∈ List.filter (fun i => starts_with sP (drop i sT))
                        (seq idx (length sT - idx))) by (rewrite Eq; left).
    apply list_elem_of_In, filter_In in Hin. tauto. }
  apply starts_with_length in Hocc. rewrite length_drop in Hocc.
  assert (0 < length sP) by (destruct sP; [done|simpl; lia]).
  rewrite IH by lia. rewrite Eq. f_equal.
  replace (idx + (length sT - idx) - S i) with (length sT - (i + 1)) by lia.
  replace (S i) with (i + 1) by lia.
  rewrite bind_cons. unfold literalFound.
  rewrite slice_nat by lia. replace (i + length sP - i) with (length sP) by lia.
  destruct (FindReplaceTsx.wholeWord o && FindReplaceTsx.touchesWord line i (length sP));
    [done|]. by rewrite <- app_assoc.
Qed.

Lemma scanLine_literal fuel o P line li g acc :
  P <> [] -> FindReplaceTsx.useRegex o = false -> length line + 2 <= fuel ->
  FindReplaceTsx.scanLine fuel o P line li g acc
  = Returns (acc ++
      if FindReplaceTsx.outsideRange o li then []
      else
        let fold := fun s : text =>
                      if FindReplaceTsx.caseSensitive o then s else toLowerCase s in
        occurrences (fold P) (fold line) ≫= literalFound o line li g (length P)).
Proof.
  intros Hp Hre Hf. unfold FindReplaceTsx.scanLine. rewrite Hre.
  destruct (FindReplaceTsx.outsideRange o li); [by rewrite app_nil_r|].
  destruct fuel as [|fuel]; [lia|]. unfold occurrences.
  destruct (FindReplaceTsx.caseSensitive o).
  - rewrite literalLoop_spec by (done || lia). by rewrite Nat.sub_0_r.
  - rewrite literalLoop_spec;
      [|by apply toLowerCase_nonempty|apply toLowerCase_length|lia
       |rewrite toLowerCase_length; lia].
    by rewrite Nat.sub_0_r, !toLowerCase_length.
Qed.

Lemma scanLines_literal fuel o P lines li g acc :
  P <> [] -> FindReplaceTsx.useRegex o = false ->
  Forall (fun line => length line + 2 <= fuel) lines ->
  FindReplaceTsx.scanLines fuel o P lines li g acc
  = Returns (acc ++
      ('(lineIndex, globalIndex, line) ← numbered lines li g;
       if FindReplaceTsx.outsideRange o lineIndex then []
       else
         let fold := fun s : text =>
                       if FindReplaceTsx.caseSensitive o then s else toLowerCase s in
         occurrences (fold P) (fold line)
           ≫= literalFound o line lineIndex globalIndex (length P))).
Proof.
  intros Hp Hre Hall. revert li g acc.
  induction Hall as [|line lines Hl _ IH]; intros li g acc.
  { simpl. by rewrite app_nil_r. }
  cbn [FindReplaceTsx.scanLines numbered]. rewrite scanLine_literal by done.
  rewrite IH, bind_cons. by rewrite <- app_assoc.
Qed.

(** X19.  The literal search of FindReplace.tsx, in full, when it
    is case-sensitive or runs on ASCII text.  For a find text that is
    not empty the scan comes back, and its matches are, line after
    line inside the line range and from left to right in a line, all
    the occurrences of the find text (sought in the lower-case line
    when the search ignores case), overlapping ones included, that the
    whole-word test lets through; each is recorded with the characters
    of the line at its place, the offsets of these in the whole text,
    the number of its line and its context. *)
Theorem literal_scan_complete (fuel : nat) (P T : text)
  (o : FindReplaceTsx.FindReplaceOptions) :
  P <> [] -> FindReplaceTsx.useRegex o = false -> caseFaithful o P T ->
  length T + 2 <= fuel ->
  FindReplaceTsx.scan fuel P T o = Returns (literalMatches o P T).
Proof.
  intros Hp Hre _ Hf. unfold FindReplaceTsx.scan, literalMatches.
  rewrite scanLines_literal; [done|done|done|].
  eapply Forall_impl; [apply split_char_lengths|]. simpl. intros; lia.
Qed.

End LiteralSearch.

(** "aa" occurs twice in "aAa" when the case is ignored. *)
Lemma literal_scan_complete_witness :
  FindReplaceTsx.scan (host := Fragment.host) 5 (str "aa") (str "aAa")
    FindReplaceTsx.initialOptions
  = Returns [FindReplaceTsx.mkMatch 0 2 (str "aA") 1 (str "aAa");
             FindReplaceTsx.mkMatch 1 3 (str "Aa") 1 (str "aAa")].
Proof.
  refine (eq_trans
            (literal_scan_complete (host := Fragment.host) 5 (str "aa") (str "aAa")
               FindReplaceTsx.initialOptions _ _ _ _) _).
  - discriminate.
  - reflexivity.
  - right. split; by apply ascii_text_check.
  - simpl. lia.
  - vm_compute. reflexivity.
Defined.

(** ** FindReplace.tsx: what a match records *)

Section RecordedTsx.
Context {host : RegExpHost} {ok : RegExpHostOk host}.

Lemma regexLoop_recorded fuel o line li g r acc ms :
  global (RegExp.flags r) = true ->
  FindReplaceTsx.regexLoop fuel o line li g r acc = Returns ms ->
  exists new, ms = acc ++ new /\ Forall (recordedFrom [(li, g, line)]) new.
Proof.
  revert r acc. induction fuel as [|fuel IH]; intros r acc Hg H; [done|].
  apply regexLoop_round in H as [(r' & E & ->)|(m & r' & E & H)].
  { exists []. by rewrite app_nil_r. }
  pose proof (exec_global_flags r line (Some m) r' Hg E) as Hg'.
  destruct (exec_global r line m r' Hg E) as (_ & Hlen & _).
  destruct H as [H|H]; apply IH in H as (new & -> & Hall); try done.
  - by exists new.
  - eexists (_ :: new). rewrite <- app_assoc. split; [done|].
    constructor; [|done]. exists li, g, line, (m_index m), (m_length m).
    split; [left|]. by split.
Qed.

Lemma literalLoop_recorded fuel o line sT sP li g idx acc ms :
  sP <> [] -> length sT = length line ->
  FindReplaceTsx.literalLoop fuel o line sT sP li g idx acc = Returns ms ->
  exists new, ms = acc ++ new /\ Forall (recordedFrom [(li, g, line)]) new.
Proof.
  intros Hp Hlen. revert idx acc. induction fuel as [|fuel IH]; intros idx acc H; [done|].
  apply literalLoop_round in H as [(E & ->)|(i & E & H)].
  { exists []. by rewrite app_nil_r. }
  apply indexOf_bounds in E as [_ Hb]; [|done].
  destruct H as [H|H]; apply IH in H as (new & -> & Hall).
  - by exists new.
  - eexists (_ :: new). rewrite <- app_assoc. split; [done|].
    constructor; [|done]. exists li, g, line, i, (length sP).
    split; [left|]. split; [lia|].
    rewrite slice_nat by lia. by replace (i + length sP - i) with (length sP) by lia.
Qed.

Lemma scanLine_recorded fuel o P line li g acc ms :
  P <> [] ->
  FindReplaceTsx.scanLine fuel o P line li g acc = Returns ms ->
  exists new, ms = acc ++ new /\ Forall (recordedFrom [(li, g, line)]) new.
Proof.
  intros Hp. unfold FindReplaceTsx.scanLine.
  destruct (FindReplaceTsx.outsideRange o li).
  { intros [= <-]. exists []. by rewrite app_nil_r. }
  destruct (FindReplaceTsx.useRegex o).
  - destruct (RegExp.new _ _) as [regex|] eqn:En.
    2:{ intros [= <-]. exists []. by rewrite app_nil_r. }
    apply new_global in En as [Hf _]. apply regexLoop_recorded.
    rewrite Hf. by destruct (FindReplaceTsx.caseSensitive o).
  - apply literalLoop_recorded.
    + destruct (FindReplaceTsx.caseSensitive o); [done|by apply toLowerCase_nonempty].
    + destruct (FindReplaceTsx.caseSensitive o); [done|apply toLowerCase_length].
Qed.

Lemma recordedFrom_mono l1 l2 a : l1 ⊆ l2 -> recordedFrom l1 a -> recordedFrom l2 a.
Proof.
  intros Hsub (li & g & line & idx & n & Hin & Hb & ->).
  exists li, g, line, idx, n. split; [by apply Hsub|done].
Qed.

Lemma scanLines_recorded fuel o P lines li g acc ms :
  P <> [] ->
  FindReplaceTsx.scanLines fuel o P lines li g acc = Returns ms ->
  exists new, ms = acc ++ new /\ Forall (recordedFrom (numbered lines li g)) new.
Proof.
  intros Hp. revert li g acc. induction lines as [|line lines IH]; intros li g acc.
  { intros [= <-]. exists []. by rewrite app_nil_r. }
  cbn [FindReplaceTsx.scanLines numbered].
  destruct (FindReplaceTsx.scanLine fuel o P line li g acc) as [ms1| |] eqn:E1; [|done..].
  apply scanLine_recorded in E1 as (new1 & -> & H1); [|done].
  intros H. apply IH in H as (new2 & -> & H2).
  exists (new1 ++ new2). rewrite app_assoc. split; [done|].
  apply Forall_app. split.
  - eapply Forall_impl; [exact H1|]. intros a. apply recordedFrom_mono.
    intros x Hx. apply list_elem_of_singleton in Hx as ->. left.
  - eapply Forall_impl; [exact H2|]. intros a. apply recordedFrom_mono.
    intros x Hx. by right.
Qed.

Lemma join_split_char s : join nl (split_char nl s) = s.
Proof.
  induction s as [|x s IH]; [done|].
  cbn [split_char]. destruct (Ascii.eqb_spec x nl) as [->|Hne].
  - pose proof (split_char_nonempty nl s) as Hne.
    destruct (split_char nl s) as [|l ls]; [done|].
    change (join nl ([] :: l :: ls)) with ([] ++ nl :: join nl (l :: ls)).
    by rewrite IH.
  - destruct (split_char nl s) as [|l ls]; [by subst|].
    destruct ls as [|l' ls]; simpl in *; by rewrite <- IH.
Qed.

Lemma newlines_app s t : newlines (s ++ t) = newlines s + newlines t.
Proof. unfold newlines. by rewrite List.filter_app, length_app. Qed.

Lemma newlines_free s : nl ∉ s -> newlines s = 0.
Proof.
  unfold newlines. induction s as [|x s IH]; [done|].
  rewrite not_elem_of_cons. intros [Hx Hs]. cbn [List.filter].
  destruct (Ascii.eqb_spec x nl); [by subst|by apply IH].
Qed.

(** Where a numbered line lies in the joined text. *)
Lemma numbered_join lines li g li' g' line :
  Forall (fun l => nl ∉ l) lines ->
  (li', g', line) ∈ numbered lines li g ->
  exists pre post,
    join nl lines = pre ++ line ++ post /\
    g' = g + length pre /\ li' = li + newlines pre /\ nl ∉ line.
Proof.
  intros Hall. revert li g. induction Hall as [|l ls Hl Hls IH]; intros li g.
  { by intros ?%elem_of_nil. }
  cbn [numbered]. rewrite elem_of_cons. intros [[= -> -> ->]|Hin].
  - exists [], (match ls with [] => [] | _ => nl :: join nl ls end).
    split; [|by rewrite Nat.add_0_r]. destruct ls; simpl; by rewrite ?app_nil_r.
  - destruct (IH _ _ Hin) as (pre & post & Hj & -> & -> & Hline).
    exists (l ++ nl :: pre), post. split; [|split; [|split; [|done]]].
    + destruct ls as [|l' ls]; [by apply elem_of_nil in Hin|].
      change (join nl (l :: l' :: ls)) with (l ++ nl :: join nl (l' :: ls)).
      rewrite Hj. by rewrite <- app_assoc.
    + rewrite length_app. simpl. lia.
    + rewrite newlines_app, (newlines_free l Hl).
      change (nl :: pre) with ([nl] ++ pre). rewrite newlines_app.
      change (newlines [nl]) with 1. lia.
Qed.

(** X20.  What FindReplace.tsx records of a match is what the text
    holds, in a search by regular expression, in a case-sensitive
    search and on ASCII text: the match lies inside the text, its
    [text] is the text between [start] and [end], and its [line] is
    one more than the number of line separators before [start].  The
    running offset of the lines is the offset in the whole text. *)
Theorem recorded_fields_tsx (fuel : nat) (P T : text)
  (o : FindReplaceTsx.FindReplaceOptions) (ms : list FindReplaceTsx.Match) :
  P <> [] ->
  FindReplaceTsx.useRegex o = true \/ caseFaithful o P T ->
  FindReplaceTsx.scan fuel P T o = Returns ms ->
  Forall (fun a =>
            FindReplaceTsx.start a <= FindReplaceTsx.end_ a <= length T /\
            FindReplaceTsx.text a
            = take (FindReplaceTsx.end_ a - FindReplaceTsx.start a)
                (drop (FindReplaceTsx.start a) T) /\
            FindReplaceTsx.line a = S (newlines (take (FindReplaceTsx.start a) T))) ms.
Proof.
  intros Hp _ H. unfold FindReplaceTsx.scan in H.
  apply scanLines_recorded in H as (new & -> & Hall); [|done]. simpl.
  eapply Forall_impl; [exact Hall|]. simpl.
  intros a (li & g & line & idx & n & Hin & Hb & ->).
  apply numbered_join in Hin as (pre & post & Hj & -> & -> & Hline);
    [|apply split_char_no_sep].
  rewrite join_split_char in Hj. simpl. rewrite Hj.
  split; [|split].
  - rewrite !length_app. lia.
  - replace (length pre + idx + n - (length pre + idx)) with n by lia.
    rewrite drop_app_add'  by done. rewrite drop_app_le by lia.
    rewrite take_app_le by (rewrite length_drop; lia). done.
  - rewrite take_app_add' by done. rewrite newlines_app.
    rewrite take_app_le by lia. rewrite (newlines_free (take idx line)); [lia|].
    intros Hx. apply Hline. exact (sublist_subseteq _ _ (sublist_take line idx) _ Hx).
Qed.

End RecordedTsx.

(** The second "ab" of two lines "ab". *)
Lemma recorded_fields_tsx_witness :
  exists a b,
    FindReplaceTsx.scan (host := Fragment.host) 7 (str "ab") Sample.abab Sample.literalTsx
      = Returns [a; b] /\
    FindReplaceTsx.line b = S (newlines (take (FindReplaceTsx.start b) Sample.abab)).
Proof.
  eexists _, _. split; [vm_compute; reflexivity|].
  pose proof (recorded_fields_tsx (host := Fragment.host) 7 (str "ab") Sample.abab
                Sample.literalTsx _ ltac:(discriminate) ltac:(by right; left)
                ltac:(vm_compute; reflexivity)) as H.
  apply Forall_cons in H as [_ H]. apply Forall_cons in H as [(_ & _ & H) _]. exact H.
Defined.

(** ** FindReplace.tsx: suggestions *)

Section Suggestions.

(** An expression that begins with a literal backslash finds nothing
    in a text without one. *)
Lemma search_from_backslash r prev s k :
  "\"%char ∉ s ->
  Fragment.search_from false (Fragment.One (Fragment.Lit "\") :: r) prev s k = None.
Proof.
  revert prev k. induction s as [|x s IH]; intros prev k Hs; [done|].
  apply not_elem_of_cons in Hs as [Hx Hs].
  cbn [Fragment.search_from Fragment.match_here Fragment.atom_matches].
  destruct (Ascii.eqb_spec x "\"); [done|]. by apply IH.
Qed.

Lemma lower_char_backslash x : lower_char x = "\"%char -> x = "\"%char.
Proof. destruct x as [[] [] [] [] [] [] [] []]; vm_compute; congruence. Qed.

Lemma toLowerCase_backslash s : "\"%char ∉ s -> "\"%char ∉ toLowerCase s.
Proof.
  induction s as [|x s IH]; [done|].
  change (toLowerCase (x :: s)) with (lower_char x :: toLowerCase s).
  rewrite !not_elem_of_cons. intros [Hx Hs]. split; [|by apply IH].
  intros H. apply Hx. symmetry. by apply lower_char_backslash.
Qed.

(** X22.  The suggestions of FindReplace.tsx.  The expression that
    is to pick the words of the text is written [/\\b\\w+\\b/g], in
    which every backslash is doubled and so stands for itself: it
    matches a backslash, "b", a backslash, one "w" or more, a
    backslash and "b".  On a text that contains no backslash it finds
    no word, and [generateSuggestions] suggests nothing, whatever words
    the text repeats. *)
Theorem no_suggestions (T : text) :
  "\"%char ∉ T ->
  PanelTsx.generateSuggestions (host := FragmentPlus.host) T = Some [].
Proof.
  intros HT. apply toLowerCase_backslash in HT.
  unfold PanelTsx.generateSuggestions.
  assert (exists r,
            RegExp.new (host := FragmentPlus.host) (str "\\b\\w+\\b") flags_g
            = Some (RegExp.mkRegExp (host := FragmentPlus.host)
                      (false, Fragment.One (Fragment.Lit "\") :: r) flags_g 0))
    as (r & ->) by (eexists; reflexivity).
  cbn [mbind option_bind].
  assert (RegExp.String_match (host := FragmentPlus.host) (toLowerCase T)
            (RegExp.mkRegExp (host := FragmentPlus.host)
               (false, Fragment.One (Fragment.Lit "\") :: r) flags_g 0)
          = None) as ->; [|done].
  unfold RegExp.String_match, RegExp.global_matches.
  replace (length (toLowerCase T) + 2) with (S (length (toLowerCase T) + 1)) by lia.
  cbn [RegExp.global_matches_loop]. unfold RegExp.exec.
  cbn [RegExp.flags RegExp.set_lastIndex RegExp.lastIndex RegExp.pattern global flags_g
       Nat.ltb Nat.leb search FragmentPlus.host].
  unfold Fragment.search_fragment.
  cbn [Nat.ltb Nat.leb fst snd Fragment.prev_at drop].
  by rewrite search_from_backslash.
Qed.

End Suggestions.

(** A sentence that repeats its words. *)
Lemma no_suggestions_witness :
  PanelTsx.generateSuggestions (host := FragmentPlus.host)
    (str "the cat and the hat and the cat") = Some [].
Proof.
  apply no_suggestions. vm_compute.
  intros H. repeat (apply elem_of_cons in H as [H|H]; [discriminate H|]).
  by apply elem_of_nil in H.
Defined.

(** A text in which the expression does find a word, twice. *)
Example suggestions_backslash :
  PanelTsx.generateSuggestions (host := FragmentPlus.host) (str "\b\www\b or \B\WWW\B")
  = Some [str "\b\www\b"].
Proof. vm_compute. reflexivity. Qed.

(** ** Case preservation, case by case *)

Section CaseByCase.

(** X23.  On ASCII text [replaceWithCasePreservation] of
    FindReplace.tsx follows the four cases of the design, each in the
    absence of the cases before it: an original without lower-case
    letters gives the replacement in upper case, one without
    upper-case letters gives it in lower case, a capitalized one gives
    it capitalized, and any other leaves it as it is. *)
Theorem case_preservation_tsx (o : FindReplaceTsx.FindReplaceOptions)
  (original R : text) :
  FindReplaceTsx.preserveCase o = true ->
  ascii_text original -> ascii_text R ->
  let result := FindReplaceTsx.replaceWithCasePreservation o original R in
  (allUpper original -> result = toUpperCase R) /\
  (~ allUpper original -> allLower original -> result = toLowerCase R) /\
  (~ allUpper original -> ~ allLower original -> capitalized original ->
     result = capitalize R) /\
  (~ allUpper original -> ~ allLower original -> ~ capitalized original -> result = R).
Proof.
  intros Ho _ _. by apply replaceWithCasePreservation_cases.
Qed.

Lemma case_preservation_tsx_witness :
  FindReplaceTsx.replaceWithCasePreservation Sample.keepCase (str "HELLO") (str "world")
  = toUpperCase (str "world").
Proof.
  apply (case_preservation_tsx Sample.keepCase (str "HELLO") (str "world") eq_refl).
  - by apply ascii_text_check.
  - by apply ascii_text_check.
  - rewrite <- toUpperCase_fixed. reflexivity.
Defined.

(** X24.  [preserveCase] of part 001, as the code has it, on ASCII
    text.  With smart case on: an original without lower-case letters gives the
    replacement in upper case; failing that, one without upper-case
    letters gives it in lower case; failing that, the first character
    alone decides: if it is no lower-case letter the replacement comes
    back capitalized, whatever the other characters are, otherwise as
    it is.  With smart case off the replacement is left as it is. *)
Theorem case_preservation_001 (o : Part001.SearchOptions) (original R : text) :
  ascii_text original -> ascii_text R ->
  let result := Part001.preserveCase o original R in
  (Part001.smartCase o = false -> result = R) /\
  (Part001.smartCase o = true ->
   (allUpper original -> result = toUpperCase R) /\
   (~ allUpper original -> allLower original -> result = toLowerCase R) /\
   (~ allUpper original -> ~ allLower original ->
    forall c rest, original = c :: rest ->
      (is_lower c = false -> result = capitalize R) /\
      (is_lower c = true -> result = R))).
Proof.
  intros _ _ result. unfold result, Part001.preserveCase. split.
  { by intros ->. }
  intros ->. simpl.
  rewrite <- !toUpperCase_fixed, <- !toLowerCase_fixed.
  destruct (text_eqb original (toUpperCase original)) eqn:E1.
  { apply text_eqb_true in E1. tauto. }
  apply text_eqb_false in E1.
  destruct (text_eqb original (toLowerCase original)) eqn:E2.
  { apply text_eqb_true in E2. tauto. }
  apply text_eqb_false in E2.
  split; [tauto|]. split; [tauto|]. intros _ _ c rest ->.
  change (take 1 (c :: rest)) with [c].
  change (toUpperCase [c]) with [upper_char c].
  pose proof (upper_char_fixed c) as Hc.
  destruct (text_eqb [c] [upper_char c]) eqn:E3.
  - apply text_eqb_true in E3. injection E3 as E3.
    split; [intros _; apply capitalize_code|].
    intros Hl. symmetry in E3. apply Hc in E3. congruence.
  - apply text_eqb_false in E3. split; [|done].
    intros Hl. apply Hc in Hl. exfalso. apply E3. by rewrite Hl.
Qed.

Lemma case_preservation_001_witness :
  Part001.preserveCase Sample.smartCase (str "hELLO") (str "World") = str "World".
Proof.
  refine (proj2 (proj2 (proj2 (proj2 (case_preservation_001 Sample.smartCase
            (str "hELLO") (str "World") _ _) eq_refl)) _ _ _ _ eq_refl) eq_refl).
  - by apply ascii_text_check.
  - by apply ascii_text_check.
  - rewrite <- toUpperCase_fixed. vm_compute. congruence.
  - rewrite <- toLowerCase_fixed. vm_compute. congruence.
Defined.

End CaseByCase.

(** ** Debounce and throttle *)

Section ClosureProofs.
Context {Args : Type}.

Lemma run_cons {S} (step : S -> Utils.Step Args -> option (S * option (nat * Args)))
  clock s e steps outs :
  Utils.run step clock s (e :: steps) = Some outs ->
  clock <= Utils.time e /\
  exists s' out outs',
    step s e = Some (s', out) /\
    Utils.run step (Utils.time e) s' steps = Some outs' /\ outs = out :: outs'.
Proof.
  cbn [Utils.run]. destruct (Nat.ltb_spec (Utils.time e) clock) as [|Hc]; [done|].
  destruct (step s e) as [[s' out]|]; [|done]. simpl.
  destruct (Utils.run step (Utils.time e) s' steps) as [outs'|] eqn:Er; [|done].
  simpl. intros [= Ho]. split; [done|]. by exists s', out, outs'.
Qed.

(** The call of [func] at a step goes back to the last call of the
    closure before it, or to the timer that was pending at the
    start. *)
Lemma debounced_origin wait clock d (steps : list (Utils.Step Args)) outs j t a :
  Utils.run (Utils.debounced wait) clock d steps = Some outs ->
  outs !! j = Some (Some (t, a)) ->
  (exists i t0, i < j /\ steps !! i = Some (Utils.call t0 a) /\ t0 + wait <= t /\
     forall k, i < k < j -> forall t' a', steps !! k <> Some (Utils.call t' a')) \/
  (exists at_, Utils.timeout d = Some (at_, a) /\ at_ <= t /\
     forall k, k < j -> forall t' a', steps !! k <> Some (Utils.call t' a')).
Proof.
  revert clock d outs j. induction steps as [|e steps IH]; intros clock d outs j H Hj.
  { injection H as <-. done. }
  apply run_cons in H as (Hc & d' & out & outs' & He & Hrun & ->).
  destruct j as [|j].
  - right. injection Hj as ->. destruct e as [now args|now]; simpl in He; [done|].
    destruct (Utils.timeout d) as [[at_ args]|]; [|done].
    destruct (Nat.leb_spec at_ now) as [Hle|]; [|done]. injection He as <- <- <-.
    exists at_. split; [done|]. split; [done|]. intros k Hk. lia.
  - cbn [lookup list_lookup] in Hj.
    destruct (IH _ _ _ _ Hrun Hj) as [(i & t0 & Hi & Hs & Ht & Hno)|(at_ & Hp & Ht & Hno)].
    + left. exists (S i), t0. split; [lia|]. split; [done|]. split; [done|].
      intros [|k] Hk; [lia|]. apply Hno. lia.
    + destruct e as [now args|now]; simpl in He.
      * injection He as <- <-. simpl in Hp. injection Hp as <- <-.
        left. exists 0, now. split; [lia|]. split; [done|]. split; [done|].
        intros [|k] Hk; [lia|]. apply Hno. lia.
      * destruct (Utils.timeout d) as [[at' args]|]; [|done].
        destruct (at' <=? now); [|done]. by injection He as <- <-.
Qed.

(** X25.  A closure of [debounce] calls [func] only for the last
    call in a burst: every call of [func] passes the arguments of the
    latest call of the closure before it, and comes no sooner than
    [wait] milliseconds after that call. *)
Theorem debounce_waits (wait : nat) (steps : list (Utils.Step Args))
  (outs : list (option (nat * Args))) (j t : nat) (a : Args) :
  Utils.run (Utils.debounced wait) 0 (Utils.mkDebounced None) steps = Some outs ->
  outs !! j = Some (Some (t, a)) ->
  exists i t0,
    i < j /\ steps !! i = Some (Utils.call t0 a) /\ t0 + wait <= t /\
    forall k, i < k < j -> forall t' a', steps !! k <> Some (Utils.call t' a').
Proof.
  intros H Hj.
  by destruct (debounced_origin _ _ _ _ _ _ _ _ H Hj) as [?|(at_ & [=] & _)].
Qed.

Lemma play_cons limit clock s e (events : list (Utils.Event Args)) outs :
  Utils.play limit clock s (e :: events) = Some outs ->
  clock <= Utils.moment e /\
  exists s' out outs',
    Utils.throttled limit s e = Some (s', out) /\
    Utils.play limit (Utils.moment e) s' events = Some outs' /\ outs = out :: outs'.
Proof.
  cbn [Utils.play]. destruct (Nat.ltb_spec (Utils.moment e) clock) as [|Hc]; [done|].
  destruct (Utils.throttled limit s e) as [[s' out]|]; [|done]. simpl.
  destruct (Utils.play limit (Utils.moment e) s' events) as [outs'|] eqn:Er; [|done].
  simpl. intros [= Ho]. split; [done|]. by exists s', out, outs'.
Qed.

(** A call of [func] is made in a call of the closure, no sooner
    than the clock, nor sooner than the timer that is pending. *)
Lemma throttled_after limit clock s (events : list (Utils.Event Args)) outs j t a :
  Utils.flat events -> idle s ->
  Utils.play limit clock s events = Some outs ->
  outs !! j = Some (Some (t, a)) ->
  events !! j = Some (Utils.enter t a) /\ clock <= t /\ barrier s <= t.
Proof.
  intros Hflat. revert clock s outs j.
  induction Hflat as [|now args|now events _ IH|now args now' returned events _ IH];
    intros clock s outs j [Hf Ht] H Hj.
  - injection H as <-. done.
  - apply play_cons in H as (Hc & s' & out & outs' & He & Hrun & ->).
    cbn [Utils.moment Utils.throttled Utils.play] in *.
    injection Hrun as <-. destruct j as [|[|j]]; [|done..]. injection Hj as ->.
    unfold barrier. destruct (Utils.inThrottle s); [done|]. injection He as _ <- <-.
    rewrite Ht. split; [done|]. lia.
  - apply play_cons in H as (Hc & s' & out & outs' & He & Hrun & ->).
    cbn [Utils.moment Utils.throttled] in *.
    rewrite Hf in He. destruct (Utils.timers s) as [|at_ timers'] eqn:Et; [done|].
    destruct (Nat.leb_spec at_ now) as [Hle|]; [|done]. injection He as <- <-.
    destruct j as [|j]; [done|]. cbn [lookup list_lookup] in Hj |- *.
    destruct (Utils.inThrottle s); [|done]. destruct Ht as (at' & [= <- ->]).
    destruct (IH now (Utils.mkThrottled false [] []) _ _ ltac:(done) Hrun Hj)
      as (Hev & Hc' & _).
    unfold barrier. rewrite Et. split; [done|]. lia.
  - apply play_cons in H as (Hc & s1 & out1 & outs1 & He1 & Hrun & ->).
    apply play_cons in Hrun as (Hc2 & s2 & out2 & outs2 & He2 & Hrun & ->).
    cbn [Utils.moment Utils.throttled] in *.
    unfold barrier. destruct (Utils.inThrottle s) eqn:Ein.
    + injection He1 as <- <-. simpl in He2. rewrite Hf in He2.
      destruct returned; [|done]. injection He2 as <- <-.
      destruct j as [|[|j]]; [done..|]. cbn [lookup list_lookup] in Hj |- *.
      destruct Ht as (at_ & Ht). rewrite Ht.
      destruct (IH now' (Utils.mkThrottled true (Utils.timers s) []) _ _
                  ltac:(split; [done|simpl; eauto]) Hrun Hj) as (Hev & Hc' & Hb).
      unfold barrier in Hb. simpl in Hb. rewrite Ht in Hb. split; [done|]. lia.
    + injection He1 as <- <-. simpl in He2. rewrite Hf in He2. rewrite Ht in *.
      destruct j as [|[|j]].
      * injection Hj as <- <-. split; [done|]. lia.
      * destruct returned; by injection He2 as <- <-.
      * cbn [lookup list_lookup] in Hj |- *.
        destruct returned; injection He2 as <- <-.
        -- destruct (IH now' (Utils.mkThrottled true [now' + limit] []) _ _
                       ltac:(split; [done|simpl; eauto]) Hrun Hj) as (Hev & Hc' & Hb).
           split; [done|]. lia.
        -- destruct (IH now' (Utils.mkThrottled false [] []) _ _
                       ltac:(done) Hrun Hj) as (Hev & Hc' & Hb).
           split; [done|]. lia.
Qed.

Lemma throttled_spacing limit clock s (events : list (Utils.Event Args)) outs
  i j t1 a1 t1' t2 a2 :
  Utils.flat events -> idle s ->
  Utils.play limit clock s events = Some outs ->
  i < j ->
  outs !! i = Some (Some (t1, a1)) ->
  events !! (S i) = Some (Utils.leave t1' true) ->
  outs !! j = Some (Some (t2, a2)) ->
  events !! i = Some (Utils.enter t1 a1) /\ events !! j = Some (Utils.enter t2 a2) /\
  t1 <= t1' /\ t1' + limit <= t2.
Proof.
  intros Hflat. revert clock s outs i j.
  induction Hflat as [|now args|now events _ IH|now args now' returned events Hflat IH];
    intros clock s outs i j [Hf Ht] H Hij Hi Hl Hj.
  - injection H as <-. done.
  - by destruct i.
  - apply play_cons in H as (Hc & s' & out & outs' & He & Hrun & ->).
    cbn [Utils.moment Utils.throttled] in *.
    rewrite Hf in He. destruct (Utils.timers s) as [|at_ timers'] eqn:Et; [done|].
    destruct (at_ <=? now); [|done]. injection He as <- <-.
    destruct (Utils.inThrottle s); [|done]. destruct Ht as (at' & [= <- ->]).
    destruct i as [|i]; [done|]. destruct j as [|j]; [lia|].
    cbn [lookup list_lookup] in Hi, Hj, Hl |- *.
    apply (IH now (Utils.mkThrottled false [] []) outs' i j); [done|done|lia|done..].
  - apply play_cons in H as (Hc & s1 & out1 & outs1 & He1 & Hrun & ->).
    apply play_cons in Hrun as (Hc2 & s2 & out2 & outs2 & He2 & Hrun & ->).
    cbn [Utils.moment Utils.throttled] in *.
    assert (Hidle : idle s2 /\ out2 = None).
    { destruct (Utils.inThrottle s) eqn:Ein; injection He1 as <- <-; simpl in He2;
        rewrite Hf in He2; destruct returned; try done; injection He2 as <- <-;
        (split; [split; [done|simpl; rewrite ?Ein, ?Ht; eauto]|done]). }
    destruct Hidle as [Hidle ->].
    destruct i as [|[|i]].
    + injection Hi as ->. injection Hl as -> ->.
      destruct (Utils.inThrottle s); [done|]. injection He1 as <- <- <-.
      simpl in He2. rewrite Hf in He2. injection He2 as <-.
      destruct j as [|[|j]]; [lia|done|]. cbn [lookup list_lookup] in Hj.
      destruct (throttled_after _ _ _ _ _ _ _ _ Hflat Hidle Hrun Hj) as (Hev & _ & Hb).
      unfold barrier in Hb. simpl in Hb. rewrite Ht in Hb. simpl in Hb.
      repeat split; [done|done|lia].
    + done.
    + destruct j as [|[|j]]; [lia..|]. cbn [lookup list_lookup] in Hi, Hj, Hl |- *.
      apply (IH now' s2 outs2 i j); [done|done|lia|done..].
Qed.

(** X26.  A closure of [throttle] whose [func] does not call the
    closure: a call of [func] is made in a call of the closure, at its
    time and with its arguments; and once a call of [func] has come
    back, [func] is not called again before [limit] milliseconds have
    gone by since. *)
Theorem throttle_spacing (limit : nat) (events : list (Utils.Event Args))
  (outs : list (option (nat * Args))) (i j t1 t1' t2 : nat) (a1 a2 : Args) :
  Utils.flat events ->
  Utils.play limit 0 (Utils.mkThrottled false [] []) events = Some outs ->
  i < j ->
  outs !! i = Some (Some (t1, a1)) ->
  events !! (S i) = Some (Utils.leave t1' true) ->
  outs !! j = Some (Some (t2, a2)) ->
  events !! i = Some (Utils.enter t1 a1) /\ events !! j = Some (Utils.enter t2 a2) /\
  t1 <= t1' /\ t1' + limit <= t2.
Proof.
  intros Hflat. by apply throttled_spacing.
Qed.

End ClosureProofs.

(** A burst of three calls, the callback 125 ms after the first, and
    a call after it. *)
Lemma debounce_waits_witness :
  exists i t0,
    i < 3 /\ Cases.burst !! i = Some (Utils.call t0 3) /\ t0 + 100 <= 125.
Proof.
  destruct (debounce_waits 100 Cases.burst
              [None; None; None; Some (125, 3); None] 3 125 3 eq_refl eq_refl)
    as (i & t0 & Hi & Hs & Ht & _).
  by exists i, t0.
Defined.

(** The first call comes back at 2 ms, the next one that goes through
    is made at 130 ms. *)
Lemma throttle_spacing_witness : 0 <= 2 /\ 2 + 100 <= 130.
Proof.
  refine (proj2 (proj2 (throttle_spacing 100 Cases.spaced
                  [Some (0, 1); None; None; None; None; Some (130, 3); None]
                  0 5 0 2 130 1 3 _ eq_refl ltac:(lia) eq_refl eq_refl eq_refl))).
  repeat constructor.
Defined.

(** A call in which [func] throws sets neither [inThrottle] nor a
    timer: the next call goes through at once.  And a call [func]
    makes of the closure goes through as well. *)
Example throttle_thrown :
  Utils.play 100 0 (Utils.mkThrottled false [] []) Cases.thrown
  = Some [Some (0, 1); None; Some (1, 2); None].
Proof. reflexivity. Qed.

Example throttle_nested :
  Utils.play 100 0 (Utils.mkThrottled false [] []) Cases.nested
  = Some [Some (0, 1); Some (0, 2); None; None].
Proof. reflexivity. Qed.

